(** * sillyimages: inline image generation for chat messages

    A shallow embedding of [src/index.js]: the tag parser
    [parseImageTags], the retry loop [generateImageWithRetry], the rewrite
    of [message.mes] done by [processTag], and the guard
    [processingMessages] of [processMessageTags]; then the log buffer of
    [iigLog], the settings ([getSettings], [validateSettings] and the
    handlers of the number fields), the list of models ([fetchModels],
    [isImageModel]), the requests and the answers of the two providers
    ([generateImageOpenAI], [generateImageGemini]), the upload
    ([saveImageToFile]) and [regenerateMessageImages].

    Conventions.
    - A JavaScript string is a list of UTF-16 code units ([N]).  Indices
      and lengths are [nat], an absent index ([-1] in the source) is [None].
    - String literals of this file are written with [lit]; inside such a
      literal the backquote stands for the double quote character (code
      34), which the source texts use throughout.
    - A value that JavaScript computes dynamically (the decoded JSON, the
      fields of a tag) is a [jsval]. *)

From Stdlib Require Import NArith ZArith String Ascii DecimalString DecimalNat Sorted Lia.
From stdpp Require Import gmap list.

Local Open Scope nat_scope.

(** ** JavaScript strings *)

Abbreviation jsstring := (list N).

Definition dquote : N := 34%N.
Definition squote : N := 39%N.
Definition backslash : N := 92%N.
Definition lbrace : N := 123%N.
Definition rbrace : N := 125%N.
Definition rbracket : N := 93%N.
Definition dollar : N := 36%N.

(** A code unit of a literal: the backquote (96) is read as the double
    quote (34). *)
Definition unit_of_ascii (a : ascii) : N :=
  let n := N_of_ascii a in if N.eqb n 96 then dquote else n.

Definition lit (s : string) : jsstring :=
  map unit_of_ascii (list_ascii_of_string s).
Arguments lit _%_string.

Definition jseq (a b : jsstring) : bool := bool_decide (a = b).

(** [s.startsWith(p)] *)
Fixpoint startsWith (p s : jsstring) : bool :=
  match p, s with
  | [], _ => true
  | _ :: _, [] => false
  | a :: p', b :: s' => N.eqb a b && startsWith p' s'
  end.

(** Offset of the first occurrence of [p] in [s]. *)
Fixpoint findFirst (p s : jsstring) : option nat :=
  if startsWith p s then Some 0
  else match s with
       | [] => None
       | _ :: s' => option_map S (findFirst p s')
       end.

(** [s.indexOf(p, from)] *)
Definition indexOf (p s : jsstring) (from : nat) : option nat :=
  option_map (fun k => from + k) (findFirst p (drop from s)).

(** [s.includes(p)] *)
Definition includes (p s : jsstring) : bool :=
  match findFirst p s with Some _ => true | None => false end.

(** [s.substring(a, b)]: the arguments are swapped when [a > b] and
    clamped to the length. *)
Definition substring (s : jsstring) (a b : nat) : jsstring :=
  take (max a b - min a b) (drop (min a b) s).

(** [s.substring(a)] *)
Definition substringFrom (s : jsstring) (a : nat) : jsstring := drop a s.

(** [s.replace(/c/g, r)] for a one-unit pattern [c]. *)
Definition replaceUnit (c : N) (r : jsstring) (s : jsstring) : jsstring :=
  flat_map (fun x => if N.eqb x c then r else [x]) s.

(** [s.replace(/p/g, r)] for a literal pattern [p] of at least one unit
    and a replacement [r] without dollar signs: the occurrences are taken
    from the left and do not overlap.  [skip] counts the units of an
    occurrence still to be dropped. *)
Fixpoint replaceAllFrom (p r : jsstring) (skip : nat) (s : jsstring) : jsstring :=
  match s with
  | [] => []
  | c :: s' =>
      match skip with
      | S k => replaceAllFrom p r k s'
      | 0 => if startsWith p s then r ++ replaceAllFrom p r (length p - 1) s'
             else c :: replaceAllFrom p r 0 s'
      end
  end.

Definition replaceAll (p r s : jsstring) : jsstring := replaceAllFrom p r 0 s.

(** *** Replacement patterns ([GetSubstitution])

    [String.prototype.replace] with a string as replacement expands the
    dollar patterns in it, whether the pattern is a string or a regular
    expression: [$$] is one dollar, [$&] the matched text, [$`] the text
    before the match, [$'] the text after it, and [$n] / [$nn] the capture
    [n] when the pattern has that many groups.  Anything else stays as it
    is written. *)

Definition isDigit (c : N) : bool := (N.leb 48 c && N.leb c 57)%N.
Definition digitVal (c : N) : nat := N.to_nat (c - 48).

Definition captureText (caps : list (option jsstring)) (n : nat) : option jsstring :=
  match n with
  | 0 => None
  | S k => match caps !! k with
           | Some (Some t) => Some t
           | Some None => Some []
           | None => None
           end
  end.

Fixpoint getSubstitution (matched before after : jsstring)
    (caps : list (option jsstring)) (r : jsstring) : jsstring :=
  match r with
  | [] => []
  | c :: r1 =>
      if negb (N.eqb c dollar) then c :: getSubstitution matched before after caps r1
      else
        match r1 with
        | [] => [c]
        | d :: r2 =>
            if N.eqb d dollar then dollar :: getSubstitution matched before after caps r2
            else if N.eqb d 38 then matched ++ getSubstitution matched before after caps r2
            else if N.eqb d 96 then before ++ getSubstitution matched before after caps r2
            else if N.eqb d squote then after ++ getSubstitution matched before after caps r2
            else if isDigit d then
              let one :=
                match captureText caps (digitVal d) with
                | Some t => t ++ getSubstitution matched before after caps r2
                | None => c :: d :: getSubstitution matched before after caps r2
                end in
              match r2 with
              | e :: r3 =>
                  if isDigit e then
                    let idx := 10 * digitVal d + digitVal e in
                    if idx <=? length caps then
                      match captureText caps idx with
                      | Some t => t ++ getSubstitution matched before after caps r3
                      | None => c :: d :: e :: getSubstitution matched before after caps r3
                      end
                    else one
                  else one
              | [] => one
              end
            else c :: getSubstitution matched before after caps r1
        end
  end.

(** [s.replace(p, r)] for a string pattern [p]: the first occurrence only,
    no captures. *)
Definition replaceFirst (p r s : jsstring) : jsstring :=
  match findFirst p s with
  | None => s
  | Some k =>
      let before := take k s in
      let after := drop (k + length p) s in
      before ++ getSubstitution p before after [] r ++ after
  end.

(** ** The legacy grammar: brace matching (index.js 729-764) *)

(** The state of the scan: [braceCount] may go below zero, as in the
    source, where a closing brace is counted before any opening one. *)
Record scanState := ScanState {
  braceCount : Z;
  inString : bool;
  escapeNext : bool
}.

Definition scanInit : scanState := ScanState 0 false false.

(** One turn of the [for] loop over the character at index [i]: the new
    state, and [true] when the loop breaks with [jsonEnd = i + 1]. *)
Definition scanStep (st : scanState) (char : N) : scanState * bool :=
  if escapeNext st then (ScanState (braceCount st) (inString st) false, false)
  else if N.eqb char backslash && inString st then
    (ScanState (braceCount st) (inString st) true, false)
  else if N.eqb char dquote then
    (ScanState (braceCount st) (negb (inString st)) false, false)
  else if negb (inString st) then
    if N.eqb char lbrace then
      (ScanState (braceCount st + 1) false false, false)
    else if N.eqb char rbrace then
      (ScanState (braceCount st - 1) false false, Z.eqb (braceCount st - 1) 0)
    else (st, false)
  else (st, false).

(** The loop from index [i] over the rest [s] of the text; [None] is the
    source's [jsonEnd === -1]. *)
Fixpoint scanLoop (st : scanState) (i : nat) (s : jsstring) : option nat :=
  match s with
  | [] => None
  | char :: s' =>
      let '(st', stop) := scanStep st char in
      if stop then Some (i + 1) else scanLoop st' (i + 1) s'
  end.

Definition findJsonEnd (text : jsstring) (jsonStart : nat) : option nat :=
  scanLoop scanInit jsonStart (drop jsonStart text).

(** ** Regular expressions

    The three regular expressions of the parser and the writer use
    literals, one-unit classes, greedy stars over a class, one capturing
    class, one lazy capturing [[\s\S]*?] and a back reference to the first
    group.  [matchHere] is the backtracking matcher for exactly these
    forms, with the priorities of the language: a greedy star tries the
    longest run first, the lazy group the shortest. *)

Inductive atom :=
| ALit (c : N)
| AClass (p : N → bool)
| AStar (p : N → bool)
| AGroup1 (p : N → bool)
| ALazyGroup2
| ABackref1.

Record rmatch := RMatch {
  m_len : nat;
  m_g1 : option N;
  m_g2 : option jsstring
}.

Definition bump (o : option rmatch) : option rmatch :=
  match o with
  | Some r => Some (RMatch (S (m_len r)) (m_g1 r) (m_g2 r))
  | None => None
  end.

(** [Canonicalize] of the [i] flag without the [u] flag: a unit outside
    ASCII never folds onto an ASCII unit, so only the letters a-z matter
    for patterns written in ASCII. *)
Definition canon (c : N) : N :=
  if (N.leb 97 c && N.leb c 122)%N then (c - 32)%N else c.

Definition unitEq (ignoreCase : bool) (a b : N) : bool :=
  if ignoreCase then N.eqb (canon a) (canon b) else N.eqb a b.

(** The class [\s]: white space and line terminators. *)
Definition isSpace (c : N) : bool :=
  (N.leb 9 c && N.leb c 13)%N || N.eqb c 32 || N.eqb c 160 || N.eqb c 5760
  || (N.leb 8192 c && N.leb c 8202)%N || N.eqb c 8232 || N.eqb c 8233
  || N.eqb c 8239 || N.eqb c 8287 || N.eqb c 12288 || N.eqb c 65279.

Definition notGt (c : N) : bool := negb (N.eqb c 62).
Definition isQuote (c : N) : bool := N.eqb c squote || N.eqb c dquote.
Definition notQuote (c : N) : bool := negb (isQuote c).

Fixpoint matchHere (ic : bool) (pat : list atom) (s : jsstring)
    (g1 : option N) (g2 : option jsstring) {struct pat} : option rmatch :=
  match pat with
  | [] => Some (RMatch 0 g1 g2)
  | ALit c :: pat' =>
      match s with
      | x :: s' => if unitEq ic c x then bump (matchHere ic pat' s' g1 g2) else None
      | [] => None
      end
  | AClass p :: pat' =>
      match s with
      | x :: s' => if p x then bump (matchHere ic pat' s' g1 g2) else None
      | [] => None
      end
  | AStar p :: pat' =>
      (fix greedy (s : jsstring) : option rmatch :=
         match s with
         | x :: s' =>
             if p x then
               match greedy s' with
               | Some r => bump (Some r)
               | None => matchHere ic pat' s g1 g2
               end
             else matchHere ic pat' s g1 g2
         | [] => matchHere ic pat' [] g1 g2
         end) s
  | AGroup1 p :: pat' =>
      match s with
      | x :: s' => if p x then bump (matchHere ic pat' s' (Some x) g2) else None
      | [] => None
      end
  | ALazyGroup2 :: pat' =>
      (fix lazy (s : jsstring) (acc : jsstring) : option rmatch :=
         match matchHere ic pat' s g1 (Some (rev acc)) with
         | Some r => Some r
         | None =>
             match s with
             | x :: s' => bump (lazy s' (x :: acc))
             | [] => None
             end
         end) s []
  | ABackref1 :: pat' =>
      match g1 with
      | None => matchHere ic pat' s g1 g2
      | Some q =>
          match s with
          | x :: s' => if unitEq ic q x then bump (matchHere ic pat' s' g1 g2) else None
          | [] => None
          end
      end
  end.

(** The leftmost match in [s], whose first unit has index [i] in the text. *)
Fixpoint searchFrom (ic : bool) (pat : list atom) (s : jsstring) (i : nat)
    : option (nat * rmatch) :=
  match matchHere ic pat s None None with
  | Some r => Some (i, r)
  | None =>
      match s with
      | [] => None
      | _ :: s' => searchFrom ic pat s' (S i)
      end
  end.

(** [regex.exec(text)] with [regex.lastIndex = lastIndex]. *)
Definition regexExec (ic : bool) (pat : list atom) (text : jsstring) (lastIndex : nat)
    : option (nat * rmatch) :=
  if lastIndex <=? length text then searchFrom ic pat (drop lastIndex text) lastIndex
  else None.

(** [s.replace(regex, r)] for a regular expression without the [g] flag. *)
Definition regexReplace (ic : bool) (pat : list atom) (r s : jsstring) : jsstring :=
  match regexExec ic pat s 0 with
  | None => s
  | Some (k, m) =>
      let matched := take (m_len m) (drop k s) in
      let before := take k s in
      let after := drop (k + m_len m) s in
      let caps := [option_map (fun q => [q]) (m_g1 m)] in
      before ++ getSubstitution matched before after caps r ++ after
  end.

Definition lits (s : string) : list atom := map ALit (lit s).
Arguments lits _%_string.

(** The pattern of [imgTagRegex] (flags [gi]); as in the literals, the
    backquote stands for the double quote:
    [<img\s+[^>]*data-iig-instruction\s*=\s*(['`])([\s\S]*?)\1[^>]*>] *)
Definition imgTagRegex : list atom :=
  lits "<img" ++ [AClass isSpace; AStar isSpace; AStar notGt]
  ++ lits "data-iig-instruction"
  ++ [AStar isSpace; ALit 61; AStar isSpace; AGroup1 isQuote; ALazyGroup2;
      ABackref1; AStar notGt; ALit 62].

(** The pattern the parser reads the resource attribute with (flag [i]):
    [src\s*=\s*(['`])([\s\S]*?)\1] *)
Definition srcAttrRegex : list atom :=
  lits "src" ++ [AStar isSpace; ALit 61; AStar isSpace; AGroup1 isQuote;
                 ALazyGroup2; ABackref1].

(** The pattern the writer replaces the resource attribute with (flag
    [i]): [src\s*=\s*(['`])[^'`]*\1] *)
Definition srcSlotRegex : list atom :=
  lits "src" ++ [AStar isSpace; ALit 61; AStar isSpace; AGroup1 isQuote;
                 AStar notQuote; ABackref1].

(** ** JavaScript values and [JSON.parse] *)

(** A number is kept as the decimal it was written as: [mant * 10 ^ exp10],
    negated when [neg]. *)
#[warnings="-register-all"]
Inductive jsval :=
| JUndefined
| JNull
| JBool (b : bool)
| JNum (neg : bool) (mant : N) (exp10 : Z)
| JStr (s : jsstring)
| JArr (l : list jsval)
| JObj (members : list (jsstring * jsval)).

(** The double nearest to [mant * 10 ^ exp10] is zero exactly when the
    decimal is at most [2 ^ -1075], half the least positive double. *)
Definition numIsZero (mant : N) (exp10 : Z) : bool :=
  N.eqb mant 0
  || (Z.ltb exp10 0 && Z.leb (Z.of_N mant * 2 ^ 1075) (10 ^ (- exp10)))%Z.

(** [ToBoolean] *)
Definition truthy (v : jsval) : bool :=
  match v with
  | JUndefined | JNull => false
  | JBool b => b
  | JNum _ mant exp10 => negb (numIsZero mant exp10)
  | JStr s => negb (jseq s [])
  | JArr _ | JObj _ => true
  end.

(** [a || b] *)
Definition jsOr (a b : jsval) : jsval := if truthy a then a else b.

Fixpoint lookupLast (k : jsstring) (members : list (jsstring * jsval)) : option jsval :=
  match members with
  | [] => None
  | (k', v) :: rest =>
      match lookupLast k rest with
      | Some w => Some w
      | None => if jseq k k' then Some v else None
      end
  end.

(** [data.k] for one of the keys the parser reads, none of which is a
    property of a prototype.  [None] is the [TypeError] of reading a
    property of [null] or [undefined]. *)
Definition getProp (data : jsval) (k : jsstring) : option jsval :=
  match data with
  | JUndefined | JNull => None
  | JObj members => Some (default JUndefined (lookupLast k members))
  | _ => Some JUndefined
  end.

(** Whether [ToString] converts [v], as a template literal or the setter
    of a DOM attribute does, instead of throwing a [TypeError].  A decoded
    object is converted by [Object.prototype.toString] unless it has a
    property [toString] of its own, which is not callable and leaves only
    [valueOf], which gives no primitive; an array is converted by [join],
    which converts its elements. *)
Fixpoint canConvert (v : jsval) : bool :=
  match v with
  | JArr l => forallb canConvert l
  | JObj members =>
      match lookupLast (lit "toString") members with
      | Some _ => false
      | None => true
      end
  | _ => true
  end.

Definition isJsonWs (c : N) : bool :=
  N.eqb c 32 || N.eqb c 9 || N.eqb c 10 || N.eqb c 13.

Fixpoint skipWs (s : jsstring) : jsstring :=
  match s with
  | c :: s' => if isJsonWs c then skipWs s' else s
  | [] => []
  end.

Definition hexVal (c : N) : option N :=
  if isDigit c then Some (c - 48)%N
  else if (N.leb 97 c && N.leb c 102)%N then Some (c - 87)%N
  else if (N.leb 65 c && N.leb c 70)%N then Some (c - 55)%N
  else None.

Definition hex4 (a b c d : N) : option N :=
  match hexVal a, hexVal b, hexVal c, hexVal d with
  | Some x, Some y, Some z, Some w => Some (((x * 16 + y) * 16 + z) * 16 + w)%N
  | _, _, _, _ => None
  end.

Definition simpleEscape (e : N) : option N :=
  if N.eqb e dquote then Some dquote
  else if N.eqb e backslash then Some backslash
  else if N.eqb e 47 then Some 47%N
  else if N.eqb e 98 then Some 8%N
  else if N.eqb e 102 then Some 12%N
  else if N.eqb e 110 then Some 10%N
  else if N.eqb e 114 then Some 13%N
  else if N.eqb e 116 then Some 9%N
  else None.

(** The rest of a string literal after its opening quote: the decoded
    units (in [acc], last first) and what follows the closing quote. *)
Fixpoint parseStringBody (s : jsstring) (acc : jsstring) : option (jsstring * jsstring) :=
  match s with
  | [] => None
  | c :: s' =>
      if N.eqb c dquote then Some (rev acc, s')
      else if N.eqb c backslash then
        match s' with
        | [] => None
        | e :: s'' =>
            if N.eqb e 117 then
              match s'' with
              | a :: b :: x :: d :: rest =>
                  match hex4 a b x d with
                  | Some u => parseStringBody rest (u :: acc)
                  | None => None
                  end
              | _ => None
              end
            else
              match simpleEscape e with
              | Some u => parseStringBody s'' (u :: acc)
              | None => None
              end
        end
      else if N.ltb c 32 then None
      else parseStringBody s' (c :: acc)
  end.

Fixpoint spanDigits (s : jsstring) : jsstring * jsstring :=
  match s with
  | c :: s' =>
      if isDigit c then let '(ds, r) := spanDigits s' in (c :: ds, r) else ([], s)
  | [] => ([], [])
  end.

Definition digitsToN (ds : jsstring) : N :=
  fold_left (fun a c => (a * 10 + (c - 48))%N) ds 0%N.

(** A JSON number: an optional minus, [0] or a run of digits that does not
    start with [0], an optional fraction and an optional exponent. *)
Definition parseNumber (s : jsstring) : option (jsval * jsstring) :=
  let '(neg, s1) :=
    match s with
    | c :: s' => if N.eqb c 45 then (true, s') else (false, s)
    | [] => (false, s)
    end in
  let intPart :=
    match s1 with
    | c :: s' =>
        if N.eqb c 48 then Some ([c], s')
        else if isDigit c then Some (spanDigits s1)
        else None
    | [] => None
    end in
  match intPart with
  | None => None
  | Some (ids, s2) =>
      let fracPart :=
        match s2 with
        | c :: s' =>
            if N.eqb c 46 then
              match spanDigits s' with
              | ([], _) => None
              | (fds, r) => Some (fds, r)
              end
            else Some ([], s2)
        | [] => Some ([], s2)
        end in
      match fracPart with
      | None => None
      | Some (fds, s3) =>
          let expPart :=
            match s3 with
            | c :: s' =>
                if N.eqb c 101 || N.eqb c 69 then
                  let '(eneg, s4) :=
                    match s' with
                    | d :: s'' =>
                        if N.eqb d 45 then (true, s'')
                        else if N.eqb d 43 then (false, s'')
                        else (false, s')
                    | [] => (false, s')
                    end in
                  match spanDigits s4 with
                  | ([], _) => None
                  | (eds, r) =>
                      let e := Z.of_N (digitsToN eds) in
                      Some ((if eneg then - e else e)%Z, r)
                  end
                else Some (0%Z, s3)
            | [] => Some (0%Z, s3)
            end in
          match expPart with
          | None => None
          | Some (e, s5) =>
              Some (JNum neg (digitsToN (ids ++ fds)) (e - Z.of_nat (length fds)), s5)
          end
      end
  end.

(** The value at the start of [s] (after white space) and the rest.  Each
    call of a function of the group costs one unit of [fuel]. *)
Fixpoint parseValue (fuel : nat) (s : jsstring) {struct fuel} : option (jsval * jsstring) :=
  match fuel with
  | 0 => None
  | S n =>
      match skipWs s with
      | [] => None
      | c :: s' =>
          if N.eqb c lbrace then
            match skipWs s' with
            | d :: r => if N.eqb d rbrace then Some (JObj [], r)
                        else parseMembers n (d :: r) []
            | [] => None
            end
          else if N.eqb c 91 then
            match skipWs s' with
            | d :: r => if N.eqb d rbracket then Some (JArr [], r)
                        else parseElems n (d :: r) []
            | [] => None
            end
          else if N.eqb c dquote then
            match parseStringBody s' [] with
            | Some (t, r) => Some (JStr t, r)
            | None => None
            end
          else if N.eqb c 45 || isDigit c then parseNumber (c :: s')
          else if startsWith (lit "true") (c :: s') then Some (JBool true, drop 4 (c :: s'))
          else if startsWith (lit "false") (c :: s') then Some (JBool false, drop 5 (c :: s'))
          else if startsWith (lit "null") (c :: s') then Some (JNull, drop 4 (c :: s'))
          else None
      end
  end
with parseElems (fuel : nat) (s : jsstring) (acc : list jsval) {struct fuel}
    : option (jsval * jsstring) :=
  match fuel with
  | 0 => None
  | S n =>
      match parseValue n s with
      | None => None
      | Some (v, r) =>
          match skipWs r with
          | d :: r' =>
              if N.eqb d 44 then parseElems n r' (v :: acc)
              else if N.eqb d rbracket then Some (JArr (rev (v :: acc)), r')
              else None
          | [] => None
          end
      end
  end
with parseMembers (fuel : nat) (s : jsstring) (acc : list (jsstring * jsval)) {struct fuel}
    : option (jsval * jsstring) :=
  match fuel with
  | 0 => None
  | S n =>
      match skipWs s with
      | q :: s' =>
          if N.eqb q dquote then
            match parseStringBody s' [] with
            | None => None
            | Some (k, r) =>
                match skipWs r with
                | c :: r1 =>
                    if N.eqb c 58 then
                      match parseValue n r1 with
                      | None => None
                      | Some (v, r2) =>
                          match skipWs r2 with
                          | d :: r3 =>
                              if N.eqb d 44 then parseMembers n r3 ((k, v) :: acc)
                              else if N.eqb d rbrace then
                                Some (JObj (rev ((k, v) :: acc)), r3)
                              else None
                          | [] => None
                          end
                      end
                    else None
                | [] => None
                end
            end
          else None
      | [] => None
      end
  end.

(** [JSON.parse(s)]; [None] is the [SyntaxError].  The fuel is enough for
    every text ([JSON_parse_fuel]). *)
Definition JSON_parse (s : jsstring) : option jsval :=
  match parseValue (2 * length s + 2) s with
  | Some (v, r) => match skipWs r with [] => Some v | _ => None end
  | None => None
  end.

(** ** [parseImageTags] (index.js 638-805) *)

Record tag := Tag {
  fullMatch : jsstring;
  index : nat;
  style : jsval;
  prompt : jsval;
  aspectRatio : jsval;
  imageSize : jsval;
  quality : jsval;
  isNewFormat : bool;
  existingSrc : jsval
}.

Record parseOptions := ParseOptions {
  checkExistence : bool;
  forceAll : bool
}.

(** The default options of [parseImageTags(text)]. *)
Definition noOptions : parseOptions := ParseOptions false false.

(** [fullImgTag.match(srcAttrRegex)], then [srcMatch ? srcMatch[2] : ''] *)
Definition srcValueOf (fullImgTag : jsstring) : jsstring :=
  match regexExec true srcAttrRegex fullImgTag 0 with
  | Some (_, m) => default [] (m_g2 m)
  | None => []
  end.

Definition hasMarker (srcValue : jsstring) : bool :=
  includes (lit "[IMG:GEN]") srcValue || includes (lit "[IMG:") srcValue.

Definition hasErrorImage (srcValue : jsstring) : bool :=
  includes (lit "error.svg") srcValue.

Definition hasPath (srcValue : jsstring) : bool :=
  negb (jseq srcValue []) && startsWith (lit "/") srcValue && (5 <? length srcValue).

(** Lines 654-689: whether the tag goes on to the decoding of its
    instruction.  [probe] is [checkFileExists], the answer of the server
    to a [HEAD] request for the path. *)
Definition needsGeneration (opts : parseOptions) (probe : jsstring → bool)
    (srcValue : jsstring) : bool :=
  if hasErrorImage srcValue && negb (forceAll opts) then false
  else if forceAll opts then true
  else if hasMarker srcValue || jseq srcValue [] then true
  else if hasPath srcValue && checkExistence opts then negb (probe srcValue)
  else false.

(** The quote normalisation of the attribute grammar (lines 693-697). *)
Definition normalizeNew (instructionJson : jsstring) : jsstring :=
  replaceAll (lit "&amp;") (lit "&")
    (replaceAll (lit "&apos;") (lit "'")
       (replaceAll (lit "&quot;") [dquote]
          (replaceUnit squote [dquote] instructionJson))).

(** The quote normalisation of the legacy grammar (line 782). *)
Definition normalizeLegacy (jsonStr : jsstring) : jsstring :=
  replaceUnit squote [dquote] jsonStr.

(** The object pushed on [tags] for the decoded [data]; [None] when one of
    the property reads throws, which the [catch] of the loop absorbs. *)
Definition tagOfData (data : jsval) (full : jsstring) (idx : nat) (new : bool)
    (src : jsval) : option tag :=
  match getProp data (lit "style"), getProp data (lit "prompt"),
        getProp data (lit "aspect_ratio"), getProp data (lit "aspectRatio"),
        getProp data (lit "image_size"), getProp data (lit "imageSize"),
        getProp data (lit "quality") with
  | Some st, Some pr, Some ar1, Some ar2, Some is1, Some is2, Some q =>
      Some (Tag full idx (jsOr st (JStr [])) (jsOr pr (JStr []))
              (jsOr (jsOr ar1 ar2) JNull) (jsOr (jsOr is1 is2) JNull)
              (jsOr q JNull) new src)
  | _, _, _, _, _, _, _ => None
  end.

(** The body of the first loop for the match [m] found at index [k]: the
    tag it pushes, if any. *)
Definition newFormatBody (opts : parseOptions) (probe : jsstring → bool)
    (text : jsstring) (k : nat) (m : rmatch) : option tag :=
  let fullImgTag := take (m_len m) (drop k text) in
  let instructionJson := default [] (m_g2 m) in
  let srcValue := srcValueOf fullImgTag in
  if needsGeneration opts probe srcValue then
    match JSON_parse (normalizeNew instructionJson) with
    | Some data =>
        tagOfData data fullImgTag k true
          (if hasPath srcValue then JStr srcValue else JNull)
    | None => None
    end
  else None.

Definition pushTag (tags : list tag) (o : option tag) : list tag :=
  match o with Some t => tags ++ [t] | None => tags end.

(** The first loop, [while ((imgMatch = imgTagRegex.exec(text)) !== null)]. *)
Fixpoint newFormatLoop (fuel : nat) (opts : parseOptions) (probe : jsstring → bool)
    (text : jsstring) (lastIndex : nat) (tags : list tag) : list tag :=
  match fuel with
  | 0 => tags
  | S fuel' =>
      match regexExec true imgTagRegex text lastIndex with
      | None => tags
      | Some (k, m) =>
          newFormatLoop fuel' opts probe text (k + m_len m)
            (pushTag tags (newFormatBody opts probe text k m))
      end
  end.

Definition marker : jsstring := lit "[IMG:GEN:".

(** What one turn of the second loop does once the marker is found at
    [markerIndex]: where the search goes on, and the tag pushed, if any. *)
Definition legacyBody (text : jsstring) (markerIndex : nat) : nat * option tag :=
  let jsonStart := markerIndex + length marker in
  match findJsonEnd text jsonStart with
  | None => (jsonStart, None)
  | Some jsonEnd =>
      let jsonStr := substring text jsonStart jsonEnd in
      let afterJson := substringFrom text jsonEnd in
      if negb (startsWith (lit "]") afterJson) then (jsonEnd, None)
      else
        let tagOnly := substring text markerIndex (jsonEnd + 1) in
        (jsonEnd + 1,
         match JSON_parse (normalizeLegacy jsonStr) with
         | Some data => tagOfData data tagOnly markerIndex false JUndefined
         | None => None
         end)
  end.

(** The second loop, [while (true)]. *)
Fixpoint legacyLoop (fuel : nat) (text : jsstring) (searchStart : nat)
    (tags : list tag) : list tag :=
  match fuel with
  | 0 => tags
  | S fuel' =>
      match indexOf marker text searchStart with
      | None => tags
      | Some markerIndex =>
          let '(next, pushed) := legacyBody text markerIndex in
          legacyLoop fuel' text next (pushTag tags pushed)
      end
  end.

(** Each turn of either loop moves its index forward by at least one unit,
    so [S (length text)] turns are never used up. *)
Definition parseImageTags (text : jsstring) (opts : parseOptions)
    (probe : jsstring → bool) : list tag :=
  let tags := newFormatLoop (S (length text)) opts probe text 0 [] in
  legacyLoop (S (length text)) text 0 tags.

(** ** [generateImageWithRetry] (index.js 545-613) *)

Record settings := Settings {
  endpoint : jsstring;
  apiKey : jsstring;
  model : jsstring;
  maxRetries : Z;
  retryDelay : Z
}.

(** What a [catch] receives: an [Error] with its message, or the
    [undefined] that [throw lastError] throws when no attempt was made. *)
Inductive jsError :=
| Error (message : jsstring)
| ThrownUndefined.

Definition joinComma (errors : list jsstring) : jsstring :=
  match errors with
  | [] => []
  | e :: rest => e ++ flat_map (fun x => lit ", " ++ x) rest
  end.

(** The three messages of [validateSettings] and the prefix of the error
    it throws, as code units. *)
Definition msgNoEndpoint : jsstring :=
  [85; 82; 76; 32; 1101; 1085; 1076; 1087; 1086; 1080; 1085; 1090; 1072; 32;
   1085; 1077; 32; 1085; 1072; 1089; 1090; 1088; 1086; 1077; 1085]%N.
Definition msgNoApiKey : jsstring :=
  [65; 80; 73; 32; 1082; 1083; 1102; 1095; 32; 1085; 1077; 32; 1085; 1072;
   1089; 1090; 1088; 1086; 1077; 1085]%N.
Definition msgNoModel : jsstring :=
  [1052; 1086; 1076; 1077; 1083; 1100; 32; 1085; 1077; 32; 1074; 1099; 1073;
   1088; 1072; 1085; 1072]%N.
Definition msgSettingsPrefix : jsstring :=
  [1054; 1096; 1080; 1073; 1082; 1072; 32; 1085; 1072; 1089; 1090; 1088; 1086;
   1077; 1082; 58; 32]%N.

(** [validateSettings()]: the error it throws, if any. *)
Definition validateSettings (s : settings) : option jsError :=
  let errors :=
    (if jseq (endpoint s) [] then [msgNoEndpoint] else [])
    ++ (if jseq (apiKey s) [] then [msgNoApiKey] else [])
    ++ (if jseq (model s) [] then [msgNoModel] else []) in
  match errors with
  | [] => None
  | _ => Some (Error (msgSettingsPrefix ++ joinComma errors))
  end.

(** One call of the provider ([generateImageGemini] or
    [generateImageOpenAI]): the data URL it returns or the message of the
    error it throws. *)
Inductive attemptResult :=
| Returned (dataUrl : jsstring)
| Threw (message : jsstring).

(** The message of a response that is not [ok] (lines 378 and 481):
    [API Error (status): text]. *)
Definition decimalOf (n : nat) : jsstring :=
  lit (NilEmpty.string_of_uint (Nat.to_uint n)).

Definition apiError (status : nat) (text : jsstring) : jsstring :=
  lit "API Error (" ++ decimalOf status ++ lit "): " ++ text.

(** Lines 595-600. *)
Definition isRetryable (message : jsstring) : bool :=
  includes (lit "429") message || includes (lit "503") message
  || includes (lit "502") message || includes (lit "504") message
  || includes (lit "timeout") message || includes (lit "network") message.

Inductive genOutcome :=
| GenOk (dataUrl : jsstring)
| GenThrow (e : jsError).

(** What a call did: its outcome, the number of calls of the provider, and
    the delays waited between them, in order. *)
Record genRun := GenRun {
  outcome : genOutcome;
  attempts : nat;
  delays : list Z
}.

(** The [for] loop with [remaining] turns left before [attempt] exceeds
    [maxRetries]; [provider k] is what the call of attempt [k] does. *)
Fixpoint attemptLoop (remaining : nat) (s : settings) (provider : nat → attemptResult)
    (attempt : nat) (lastError : jsError) : genRun :=
  match remaining with
  | 0 => GenRun (GenThrow lastError) 0 []
  | S remaining' =>
      match provider attempt with
      | Returned dataUrl => GenRun (GenOk dataUrl) 1 []
      | Threw message =>
          if negb (isRetryable message) || Z.eqb (Z.of_nat attempt) (maxRetries s)
          then GenRun (GenThrow (Error message)) 1 []
          else
            let delay := (retryDelay s * 2 ^ Z.of_nat attempt)%Z in
            let r := attemptLoop remaining' s provider (S attempt) (Error message) in
            GenRun (outcome r) (S (attempts r)) (delay :: delays r)
      end
  end.

Definition generateImageWithRetry (s : settings) (provider : nat → attemptResult) : genRun :=
  match validateSettings s with
  | Some e => GenRun (GenThrow e) 0 []
  | None => attemptLoop (Z.to_nat (maxRetries s + 1)) s provider 0 ThrownUndefined
  end.

(** ** The rewrite of [message.mes] by [processTag] (index.js 1064-1096) *)

Definition ERROR_IMAGE_PATH : jsstring :=
  lit "/scripts/extensions/third-party/sillyimages/error.svg".

(** The template [src=`path`] *)
Definition srcAttribute (path : jsstring) : jsstring :=
  lit "src=`" ++ path ++ lit "`".

(** The check mark of the completion marker is the unit U+2713. *)
Definition completionMarker (imagePath : jsstring) : jsstring :=
  lit "[IMG:" ++ [10003%N] ++ lit ":" ++ imagePath ++ lit "]".

Definition errorMarker (message : jsstring) : jsstring :=
  lit "[IMG:ERROR:" ++ substring message 0 50 ++ lit "]".

(** Lines 1065-1076: the log after a job of [t] ended with [imagePath]. *)
Definition rewriteDone (log : jsstring) (t : tag) (imagePath : jsstring) : jsstring :=
  if isNewFormat t then
    let updatedTag := regexReplace true srcSlotRegex (srcAttribute imagePath) (fullMatch t) in
    replaceFirst (fullMatch t) updatedTag log
  else replaceFirst (fullMatch t) (completionMarker imagePath) log.

(** Lines 1088-1096: the log after a job of [t] failed with [message]. *)
Definition rewriteError (log : jsstring) (t : tag) (message : jsstring) : jsstring :=
  if isNewFormat t then
    let errorTag := regexReplace true srcSlotRegex (srcAttribute ERROR_IMAGE_PATH) (fullMatch t) in
    replaceFirst (fullMatch t) errorTag log
  else replaceFirst (fullMatch t) (errorMarker message) log.

(** ** [processMessageTags] (index.js 850-1136)

    The function is asynchronous: it runs until an [await], and goes on
    when the awaited promise settles; other calls run in between.  The
    [world] holds what the calls share, and for each [call] where it
    stands. *)

Record message := Message {
  mes : jsstring;
  is_user : bool
}.

(** What [document.querySelector] finds for a message. *)
Inductive domState :=
| NoElement
| NoMesText
| Rendered.

Inductive jobState :=
| JRunning
| JFulfilled
| JRejected.

Inductive callState :=
| TParsing
| TJoin
| TSaving
| TReturned
| TThrew.

Record call := Call {
  c_message : nat;
  c_tags : list tag;
  c_jobs : list jobState;
  c_state : callState
}.

(** [saves] lists the uses of [context.saveChat()]: the index of the call
    of [processMessageTags] that saved, and the chat it saved. *)
Record world := World {
  enabled : bool;
  chat : list message;
  dom : nat → domState;
  fileExists : jsstring → bool;
  processingMessages : gset nat;
  saves : list (nat * list message);
  calls : list call
}.

(** How the asynchronous part of a job ends: generation and upload gave
    [imagePath], or one of them threw. *)
Inductive jobOutcome :=
| OutDone (imagePath : jsstring)
| OutError (e : jsError).

Inductive action :=
| Trigger (messageId : nat)
| ResumeParse (i : nat)
| Settle (i j : nat) (o : jobOutcome)
| ResumeJoin (i : nat)
| ResumeSave (i : nat).

Definition setCalls (w : world) (ts : list call) : world :=
  World (enabled w) (chat w) (dom w) (fileExists w) (processingMessages w) (saves w) ts.

Definition setProcessing (w : world) (p : gset nat) : world :=
  World (enabled w) (chat w) (dom w) (fileExists w) p (saves w) (calls w).

Definition setChat (w : world) (c : list message) : world :=
  World (enabled w) c (dom w) (fileExists w) (processingMessages w) (saves w) (calls w).

(** [context.saveChat()] in the call [i]. *)
Definition addSave (w : world) (i : nat) : world :=
  World (enabled w) (chat w) (dom w) (fileExists w) (processingMessages w)
    (saves w ++ [(i, chat w)]) (calls w).

(** Lines 851-866: the call up to [await parseImageTags(...)]. *)
Definition trigger (w : world) (messageId : nat) : world :=
  let returned := Call messageId [] [] TReturned in
  if negb (enabled w) then setCalls w (calls w ++ [returned])
  else if bool_decide (messageId ∈ processingMessages w) then setCalls w (calls w ++ [returned])
  else
    match chat w !! messageId with
    | None => setCalls w (calls w ++ [returned])
    | Some m =>
        if is_user m then setCalls w (calls w ++ [returned])
        else
          let tags := parseImageTags (mes m) (ParseOptions true false) (fileExists w) in
          setCalls w (calls w ++ [Call messageId tags [] TParsing])
    end.

(** The part of [processTag] before its [try] (lines 894-1041): the
    attribute grammar reads [tag.prompt.substring(0, 30)], which throws
    when the prompt is not a string; the promise of the job is then
    rejected at once. *)
Definition startJob (t : tag) : jobState :=
  if isNewFormat t then
    match prompt t with
    | JStr _ => JRunning
    | _ => JRejected
    end
  else JRunning.

(** Lines 867-1105: from the result of the parser to [await Promise.all]. *)
Definition resumeParse (w : world) (i : nat) : world :=
  match calls w !! i with
  | Some (Call messageId tags _ TParsing) =>
      if bool_decide (tags = []) then
        setCalls w (<[i := Call messageId tags [] TReturned]> (calls w))
      else
        let w1 := setProcessing w ({[messageId]} ∪ processingMessages w) in
        match dom w messageId with
        | NoElement | NoMesText =>
            setCalls w1 (<[i := Call messageId tags [] TReturned]> (calls w))
        | Rendered =>
            setCalls w1 (<[i := Call messageId tags (map startJob tags) TJoin]> (calls w))
        end
  | _ => w
  end.

Definition updateMes (c : list message) (messageId : nat) (f : jsstring → jsstring)
    : list message :=
  match c !! messageId with
  | Some m => <[messageId := Message (f (mes m)) (is_user m)]> c
  | None => c
  end.

(** The message of the [TypeError] of a conversion that fails, in the
    words of V8; only the error marker of the legacy grammar shows it. *)
Definition conversionError : jsstring :=
  lit "Cannot convert object to primitive value".

(** The end of a job (lines 1053-1100): the rewrite of [message.mes].
    After the upload, [img.alt = tag.prompt] and the template of
    [img.title] (lines 1059-1060) convert the prompt and the style, still
    inside the [try]: when one of them cannot be converted the [catch]
    runs as for any other error.  The [catch] reads [error.message]
    first, which throws when the error is [undefined]. *)
Definition settle (w : world) (i j : nat) (o : jobOutcome) : world :=
  match calls w !! i with
  | Some (Call messageId tags jobs st) =>
      match jobs !! j, tags !! j with
      | Some JRunning, Some t =>
          match o with
          | OutDone imagePath =>
              setCalls
                (setChat w
                   (updateMes (chat w) messageId
                      (fun log =>
                         if canConvert (prompt t) && canConvert (style t)
                         then rewriteDone log t imagePath
                         else rewriteError log t conversionError)))
                (<[i := Call messageId tags (<[j := JFulfilled]> jobs) st]> (calls w))
          | OutError (Error msg) =>
              setCalls
                (setChat w (updateMes (chat w) messageId (fun log => rewriteError log t msg)))
                (<[i := Call messageId tags (<[j := JFulfilled]> jobs) st]> (calls w))
          | OutError ThrownUndefined =>
              setCalls w (<[i := Call messageId tags (<[j := JRejected]> jobs) st]> (calls w))
          end
      | _, _ => w
      end
  | None => w
  end.

Definition isRejected (s : jobState) : bool :=
  match s with JRejected => true | _ => false end.
Definition isFulfilled (s : jobState) : bool :=
  match s with JFulfilled => true | _ => false end.

(** Lines 1103-1113: [Promise.all] rejects as soon as one job is rejected
    and is fulfilled when all are; the [finally] runs either way, and
    [saveChat] is called only after a fulfilled join. *)
Definition resumeJoin (w : world) (i : nat) : world :=
  match calls w !! i with
  | Some (Call messageId tags jobs TJoin) =>
      if existsb isRejected jobs then
        setCalls (setProcessing w (processingMessages w ∖ {[messageId]}))
          (<[i := Call messageId tags jobs TThrew]> (calls w))
      else if forallb isFulfilled jobs then
        setCalls (addSave (setProcessing w (processingMessages w ∖ {[messageId]})) i)
          (<[i := Call messageId tags jobs TSaving]> (calls w))
      else w
  | _ => w
  end.

(** Lines 1115-1136: after [await context.saveChat()]. *)
Definition resumeSave (w : world) (i : nat) : world :=
  match calls w !! i with
  | Some (Call messageId tags jobs TSaving) =>
      setCalls w (<[i := Call messageId tags jobs TReturned]> (calls w))
  | _ => w
  end.

Definition exec (w : world) (a : action) : world :=
  match a with
  | Trigger messageId => trigger w messageId
  | ResumeParse i => resumeParse w i
  | Settle i j o => settle w i j o
  | ResumeJoin i => resumeJoin w i
  | ResumeSave i => resumeSave w i
  end.

Definition run (w : world) (schedule : list action) : world :=
  fold_left exec schedule w.

(** The runs of [messageId] that are between their mark and their join. *)
Definition isJoin (st : callState) : bool :=
  match st with TJoin => true | _ => false end.

Definition activeRuns (w : world) (messageId : nat) : nat :=
  length (List.filter (fun t => Nat.eqb (c_message t) messageId && isJoin (c_state t))
            (calls w)).

(** ** The log buffer of [iigLog] (index.js 14-34) *)

Definition MAX_LOG_ENTRIES : nat := 200.

(** The entry of line 20: [timestamp] is the ISO string of the clock,
    [message] the arguments joined by spaces. *)
Definition logEntry (timestamp level message : jsstring) : jsstring :=
  lit "[" ++ timestamp ++ lit "] [" ++ level ++ lit "] " ++ message.

(** [logBuffer] after a call of [iigLog]: [push], then [shift] when the
    buffer has grown over the bound. *)
Definition iigLog (logBuffer : list jsstring) (timestamp level message : jsstring)
    : list jsstring :=
  let pushed := logBuffer ++ [logEntry timestamp level message] in
  if MAX_LOG_ENTRIES <? length pushed then drop 1 pushed else pushed.

(** A sequence of calls, each with its clock reading, level and message. *)
Definition iigLogAll (logBuffer : list jsstring)
    (logged : list (jsstring * jsstring * jsstring)) : list jsstring :=
  fold_left (fun b '(timestamp, level, message) => iigLog b timestamp level message)
    logged logBuffer.

(** ** [defaultSettings] and [getSettings] (index.js 49-132)

    The settings object is a map from property names to values. *)

Definition defaultSettings : list (jsstring * jsval) :=
  [ (lit "enabled", JBool true);
    (lit "apiType", JStr (lit "openai"));
    (lit "endpoint", JStr []);
    (lit "apiKey", JStr []);
    (lit "model", JStr []);
    (lit "size", JStr (lit "1024x1024"));
    (lit "quality", JStr (lit "standard"));
    (lit "maxRetries", JNum false 0 0);
    (lit "retryDelay", JNum false 1000 0);
    (lit "sendCharAvatar", JBool false);
    (lit "sendUserAvatar", JBool false);
    (lit "userAvatarFile", JStr []);
    (lit "aspectRatio", JStr (lit "1:1"));
    (lit "imageSize", JStr (lit "1K")) ].

(** One turn of the loop of lines 125-129. *)
Definition ensureKey (o : gmap jsstring jsval) (kv : jsstring * jsval)
    : gmap jsstring jsval :=
  match o !! kv.1 with
  | Some _ => o
  | None => <[kv.1 := kv.2]> o
  end.

(** [stored] is [context.extensionSettings[MODULE_NAME]], [None] when
    there is none; the result is the object the function returns, which
    is also the one it leaves in [extensionSettings]. *)
Definition getSettings (stored : option (gmap jsstring jsval)) : gmap jsstring jsval :=
  let o :=
    match stored with
    | Some o => o
    | None => list_to_map defaultSettings
    end in
  fold_left ensureKey defaultSettings o.

(** ** The input handlers of the retry settings (index.js 1631-1640) *)

Definition hexDigitVal (c : N) : option N :=
  if isDigit c then Some (c - 48)%N
  else if (N.leb 97 c && N.leb c 102)%N then Some (c - 87)%N
  else if (N.leb 65 c && N.leb c 70)%N then Some (c - 55)%N
  else None.

Fixpoint spanHex (s : jsstring) (acc : N) (seen : bool) : N * bool :=
  match s with
  | c :: s' =>
      match hexDigitVal c with
      | Some d => spanHex s' (acc * 16 + d)%N true
      | None => (acc, seen)
      end
  | [] => (acc, seen)
  end.

Fixpoint trimStart (s : jsstring) : jsstring :=
  match s with
  | c :: s' => if isSpace c then trimStart s' else s
  | [] => []
  end.

(** The result of [parseInt]: [NaN], an integer that is a double, or an
    infinity. *)
Inductive parsedInt :=
| PNaN
| PInt (z : Z)
| PInfinity (negative : bool).

(** The double nearest to the integer [n], which is not negative: [n]
    keeps its 53 leading bits, rounded to nearest, ties to even; [None]
    when the result is [2 ^ 1024] or more, which is an infinity. *)
Definition nearestDouble (n : Z) : option Z :=
  let bits := (Z.log2 n + 1)%Z in
  if (bits <=? 53)%Z then Some n
  else
    let shift := (bits - 53)%Z in
    let q := Z.shiftr n shift in
    let rest := (n - Z.shiftl q shift)%Z in
    let half := Z.shiftl 1 (shift - 1) in
    let q' := if (half <? rest)%Z || ((rest =? half)%Z && Z.odd q) then (q + 1)%Z else q in
    let r := Z.shiftl q' shift in
    if (r <? 2 ^ 1024)%Z then Some r else None.

(** The number of the digits read, with their sign. *)
Definition numberOf (sign : Z) (n : N) : parsedInt :=
  match nearestDouble (Z.of_N n) with
  | Some d => PInt (sign * d)
  | None => PInfinity (sign <? 0)%Z
  end.

(** The longest run of decimal digits at the head of [s], as a number. *)
Definition decimalRun (sign : Z) (s : jsstring) : parsedInt :=
  let '(ds, _) := spanDigits s in
  match ds with
  | [] => PNaN
  | _ :: _ => numberOf sign (digitsToN ds)
  end.

(** [parseInt(s)] with no radix: white space, a sign, [0x] or [0X] for
    radix 16, then the longest run of digits, of which every one counts,
    as the engines have it; the number is the double nearest to the
    integer that the digits denote. *)
Definition parseInt (s : jsstring) : parsedInt :=
  let s1 := trimStart s in
  let '(sign, s2) :=
    match s1 with
    | c :: r =>
        if N.eqb c 45 then ((-1)%Z, r)
        else if N.eqb c 43 then (1%Z, r)
        else (1%Z, s1)
    | [] => (1%Z, s1)
    end in
  match s2 with
  | z :: x :: r =>
      if N.eqb z 48 && (N.eqb x 120 || N.eqb x 88) then
        let '(v, seen) := spanHex r 0 false in
        if seen then numberOf sign v else PNaN
      else decimalRun sign s2
  | _ => decimalRun sign s2
  end.

(** [parseInt(value) || fallback]: [NaN] and both zeros are falsy. *)
Definition parseIntOr (value : jsstring) (fallback : Z) : parsedInt :=
  match parseInt value with
  | PNaN => PInt fallback
  | PInt n => if Z.eqb n 0 then PInt fallback else PInt n
  | PInfinity negative => PInfinity negative
  end.

(** The settings after the [input] event of the field [iig_max_retries]
    with the text [value]; [None] when the number stored is an infinity,
    which the integer ceiling of [settings] does not hold. *)
Definition onMaxRetriesInput (s : settings) (value : jsstring) : option settings :=
  match parseIntOr value 3 with
  | PInt n => Some (Settings (endpoint s) (apiKey s) (model s) n (retryDelay s))
  | _ => None
  end.

(** The same for the field [iig_retry_delay]. *)
Definition onRetryDelayInput (s : settings) (value : jsstring) : option settings :=
  match parseIntOr value 1000 with
  | PInt n => Some (Settings (endpoint s) (apiKey s) (model s) (maxRetries s) n)
  | _ => None
  end.

(** ** Providers: requests, responses and the upload

    Two operations of the language are taken as they come:
    [toLowerCase], and [ToString], the conversion applied by a template
    literal to the value of a placeholder.  The conversion throws for
    the values that [canConvert] refuses: a request is then not built,
    and an answer ends in an error of the engine. *)

(** An HTTP exchange as the code sees it: [fetch] rejects, or the
    response is not [ok], or it is and [response.json()] gives a value
    ([None] when the body is not JSON and the promise is rejected). *)
Inductive httpResponse :=
| FetchRejected (message : jsstring)
| NotOk (status : nat) (text : jsstring)
| OkBody (body : option jsval).

(** What a provider call or the upload does: it returns a value, throws
    an [Error] with the given message, or the engine raises an error of
    its own, with its own message: the [TypeError] of a property read or
    a method call that fails, the [SyntaxError] of [response.json()]. *)
Inductive callResult :=
| CReturned (v : jsval)
| CThrew (message : jsstring)
| CEngineError.


(** [v === s] for a string [s] *)
Definition strictEq (v : jsval) (s : jsstring) : bool :=
  match v with
  | JStr x => jseq x s
  | _ => false
  end.

(** [list.includes(v)] for a list of strings *)
Definition listIncludes (l : list jsstring) (v : jsval) : bool :=
  existsb (strictEq v) l.

(** [v.length === 0] for a value [v] that is neither [null] nor
    [undefined] *)
Definition lengthIsZero (v : jsval) : bool :=
  match v with
  | JArr l => match l with [] => true | _ :: _ => false end
  | JStr s => jseq s []
  | JObj members =>
      match lookupLast (lit "length") members with
      | Some (JNum _ mant exp10) => numIsZero mant exp10
      | _ => false
      end
  | _ => false
  end.

(** [v[0]] for such a value *)
Definition itemAt0 (v : jsval) : jsval :=
  match v with
  | JArr (x :: _) => x
  | JStr (c :: _) => JStr [c]
  | JObj members => default JUndefined (lookupLast (lit "0") members)
  | _ => JUndefined
  end.

Definition IMAGE_MODEL_KEYWORDS : list jsstring :=
  map lit [ "dall-e"; "midjourney"; "mj"; "journey"; "stable-diffusion"; "sdxl";
            "flux"; "imagen"; "drawing"; "paint"; "image"; "seedream"; "hidream";
            "dreamshaper"; "ideogram"; "nano-banana"; "gpt-image"; "wanx";
            "qwen" ]%string.

Definition VIDEO_MODEL_KEYWORDS : list jsstring :=
  map lit [ "sora"; "kling"; "jimeng"; "veo"; "pika"; "runway"; "luma"; "video";
            "gen-3"; "minimax"; "cogvideo"; "mochi"; "seedance"; "vidu"; "wan-ai";
            "hunyuan"; "hailuo" ]%string.

Definition VALID_ASPECT_RATIOS : list jsstring :=
  map lit [ "1:1"; "2:3"; "3:2"; "3:4"; "4:3"; "4:5"; "5:4"; "9:16"; "16:9";
            "21:9" ]%string.

Definition VALID_IMAGE_SIZES : list jsstring :=
  map lit [ "1K"; "2K"; "4K" ]%string.


(** The settings the providers read besides those of [settings]. *)
Record providerSettings := ProviderSettings {
  p_settings : settings;
  p_apiType : jsval;
  p_size : jsval;
  p_quality : jsval;
  p_sendCharAvatar : bool;
  p_sendUserAvatar : bool;
  p_aspectRatio : jsval;
  p_imageSize : jsval
}.

(** The fourth argument of the providers, built from the tag at lines
    1048 and 1193. *)
Record genOptions := GenOptions {
  o_aspectRatio : jsval;
  o_imageSize : jsval;
  o_quality : jsval
}.






(** The body sent to [/api/images/upload]; the file name, made from the
    clock, is left out. *)
Record uploadRequest := UploadRequest {
  u_image : jsstring;
  u_format : jsstring;
  u_ch_name : jsval
}.

(** The class [\w] *)
Definition isWordUnit (c : N) : bool :=
  isDigit c || (N.leb 65 c && N.leb c 90)%N || (N.leb 97 c && N.leb c 122)%N
  || N.eqb c 95.

(** The units that [.] does not match *)
Definition isLineTerminator (c : N) : bool :=
  N.eqb c 10 || N.eqb c 13 || N.eqb c 8232 || N.eqb c 8233.

Fixpoint spanWord (s : jsstring) : jsstring * jsstring :=
  match s with
  | c :: s' =>
      if isWordUnit c then let '(w, r) := spanWord s' in (c :: w, r) else ([], s)
  | [] => ([], [])
  end.

(** [dataUrl.match(/^data:image\/(\w+);base64,(.+)$/)]: the groups 1 and
    2 of the match.  The run of [\w] is followed by a semicolon, which is
    no [\w], so it is the longest one; [.+] has to reach the end of the
    text, so the rest holds no line terminator. *)
Definition dataUrlMatch (dataUrl : jsstring) : option (jsstring * jsstring) :=
  if startsWith (lit "data:image/") dataUrl then
    let '(format, r) := spanWord (drop (length (lit "data:image/")) dataUrl) in
    if negb (jseq format []) && startsWith (lit ";base64,") r then
      let base64Data := drop (length (lit ";base64,")) r in
      if negb (jseq base64Data []) && forallb (fun c => negb (isLineTerminator c)) base64Data
      then Some (format, base64Data)
      else None
    else None
  else None.

Section Platform.

Variable toLowerCase : jsstring → jsstring.
Variable ToString : jsval → jsstring.

(** *** [isImageModel], [isGeminiModel] (index.js 87-112) *)

Definition isImageModel (modelId : jsstring) : bool :=
  let mid := toLowerCase modelId in
  if existsb (fun kw => includes kw mid) VIDEO_MODEL_KEYWORDS then false
  else if includes (lit "vision") mid && includes (lit "preview") mid then false
  else existsb (fun kw => includes kw mid) IMAGE_MODEL_KEYWORDS.


(** *** [fetchModels] (index.js 145-177) *)

(** The callback [m => isImageModel(m.id)]; [None] when it throws, for an
    [m] that is [null] or whose [id] is no string. *)
Definition keepsModel (m : jsval) : option bool :=
  match getProp m (lit "id") with
  | Some (JStr id) => Some (isImageModel id)
  | _ => None
  end.

(** [models.filter(...)], which stops at the first callback that throws. *)
Fixpoint filterModels (models : list jsval) : option (list jsval) :=
  match models with
  | [] => Some []
  | m :: rest =>
      match keepsModel m with
      | None => None
      | Some keep =>
          match filterModels rest with
          | None => None
          | Some kept => Some (if keep then m :: kept else kept)
          end
      end
  end.

(** The list the function returns; every error ends in the [catch],
    which returns the empty list. *)
Definition fetchModels (s : settings) (response : httpResponse) : list jsval :=
  if jseq (endpoint s) [] || jseq (apiKey s) [] then []
  else
    match response with
    | FetchRejected _ | NotOk _ _ | OkBody None => []
    | OkBody (Some data) =>
        match getProp data (lit "data") with
        | None => []
        | Some d =>
            match jsOr d (JArr []) with
            | JArr models =>
                match filterModels models with
                | Some kept =>
                    map (fun m => default JUndefined (getProp m (lit "id"))) kept
                | None => []
                end
            | _ => []
            end
        end
    end.

(** *** The request of [generateImageOpenAI] (index.js 338-365) *)





(** *** The request of [generateImageGemini] (index.js 409-468) *)

(** Lines 415-419.  The warning for an invalid value puts the value in a
    template literal: when it cannot be converted the function throws, and
    the result is [None]. *)
Definition geminiAspectRatio (ps : providerSettings) (options : genOptions)
    : option jsval :=
  let aspectRatio :=
    jsOr (jsOr (o_aspectRatio options) (p_aspectRatio ps)) (JStr (lit "1:1")) in
  if negb (listIncludes VALID_ASPECT_RATIOS aspectRatio) then
    if canConvert aspectRatio then
      Some (if listIncludes VALID_ASPECT_RATIOS (p_aspectRatio ps) then p_aspectRatio ps
            else JStr (lit "1:1"))
    else None
  else Some aspectRatio.

(** Lines 422-426, in the same way. *)
Definition geminiImageSize (ps : providerSettings) (options : genOptions)
    : option jsval :=
  let imageSize :=
    jsOr (jsOr (o_imageSize options) (p_imageSize ps)) (JStr (lit "1K")) in
  if negb (listIncludes VALID_IMAGE_SIZES imageSize) then
    if canConvert imageSize then
      Some (if listIncludes VALID_IMAGE_SIZES (p_imageSize ps) then p_imageSize ps
            else JStr (lit "1K"))
    else None
  else Some imageSize.




(** *** The choice of the provider in [generateImageWithRetry]
        (index.js 553-589) *)





(** *** The answer of [generateImageOpenAI] (index.js 367-398) *)

Definition openaiResult (response : httpResponse) : callResult :=
  match response with
  | FetchRejected message => CThrew message
  | NotOk status text => CThrew (apiError status text)
  | OkBody None => CEngineError
  | OkBody (Some result) =>
      match getProp result (lit "data"), getProp result (lit "url") with
      | Some d, Some url =>
          let dataList := jsOr d (JArr []) in
          if lengthIsZero dataList then
            if truthy url then CReturned url
            else CThrew (lit "No image data in response")
          else
            let imageObj := itemAt0 dataList in
            match getProp imageObj (lit "b64_json"), getProp imageObj (lit "url") with
            | Some b64_json, Some imageUrl =>
                if truthy b64_json then
                  if canConvert b64_json then
                    CReturned (JStr (lit "data:image/png;base64," ++ ToString b64_json))
                  else CEngineError
                else CReturned (jsOr b64_json imageUrl)
            | _, _ => CEngineError
            end
      | _, _ => CEngineError
      end
  end.

(** *** The answer of [generateImageGemini] (index.js 470-504) *)

(** One turn of the loop over [responseParts]: the value returned, if
    any; [None] is a [TypeError], of a property read or of the template
    when the type or the data cannot be converted. *)
Definition inlineImage (p : jsval) : option (option jsstring) :=
  match getProp p (lit "inlineData"), getProp p (lit "inline_data") with
  | Some inlineData, Some inline_data =>
      if truthy inlineData then
        match getProp inlineData (lit "mimeType"), getProp inlineData (lit "data") with
        | Some mimeType, Some data =>
            if canConvert mimeType && canConvert data then
              Some (Some (lit "data:" ++ ToString mimeType ++ lit ";base64," ++ ToString data))
            else None
        | _, _ => None
        end
      else if truthy inline_data then
        match getProp inline_data (lit "mime_type"), getProp inline_data (lit "data") with
        | Some mime_type, Some data =>
            if canConvert mime_type && canConvert data then
              Some (Some (lit "data:" ++ ToString mime_type ++ lit ";base64," ++ ToString data))
            else None
        | _, _ => None
        end
      else Some None
  | _, _ => None
  end.

Fixpoint firstImage (responseParts : list jsval) : callResult :=
  match responseParts with
  | [] => CThrew (lit "No image found in Gemini response")
  | p :: rest =>
      match inlineImage p with
      | None => CEngineError
      | Some (Some dataUrl) => CReturned (JStr dataUrl)
      | Some None => firstImage rest
      end
  end.

(** [for (const part of responseParts)]: an array gives its elements, a
    string its characters, which hold no image; nothing else that is
    truthy can be iterated. *)
Definition geminiResult (response : httpResponse) : callResult :=
  match response with
  | FetchRejected message => CThrew message
  | NotOk status text => CThrew (apiError status text)
  | OkBody None => CEngineError
  | OkBody (Some result) =>
      match getProp result (lit "candidates") with
      | None => CEngineError
      | Some c =>
          let candidates := jsOr c (JArr []) in
          if lengthIsZero candidates then CThrew (lit "No candidates in response")
          else
            match getProp (itemAt0 candidates) (lit "content") with
            | None => CEngineError
            | Some content =>
                let responseParts :=
                  match content with
                  | JUndefined | JNull => JArr []
                  | _ => jsOr (default JUndefined (getProp content (lit "parts"))) (JArr [])
                  end in
                match responseParts with
                | JArr l => firstImage l
                | JStr _ => CThrew (lit "No image found in Gemini response")
                | _ => CEngineError
                end
            end
      end
  end.

(** *** [saveImageToFile] (index.js 230-271) *)

(** [character] is [context.characters?.[context.characterId]], or
    [undefined] when no character is selected. *)
Definition charNameOf (character : jsval) : jsval :=
  if truthy character then
    jsOr (default JUndefined (getProp character (lit "name"))) (JStr (lit "generated"))
  else JStr (lit "generated").

(** Lines 263-270: what the function makes of the answer to the upload.
    [new Error(message)] converts its message, and throws a [TypeError]
    instead when that cannot be converted. *)
Definition uploadResult (response : httpResponse) : callResult :=
  match response with
  | FetchRejected message => CThrew message
  | NotOk status text =>
      let error :=
        default (JObj [(lit "error", JStr (lit "Unknown error"))]) (JSON_parse text) in
      match getProp error (lit "error") with
      | Some e =>
          let message := jsOr e (JStr (lit "Upload failed: " ++ decimalOf status)) in
          if canConvert message then CThrew (ToString message) else CEngineError
      | None => CEngineError
      end
  | OkBody None => CEngineError
  | OkBody (Some result) =>
      match getProp result (lit "path") with
      | Some path => CReturned path
      | None => CEngineError
      end
  end.

(** [server] answers the upload.  The result is what the function
    returns or throws, with the request that was sent, if one was. *)
Definition saveImageToFile (dataUrl : jsval) (character : jsval)
    (server : uploadRequest → httpResponse) : callResult * option uploadRequest :=
  match dataUrl with
  | JStr s =>
      match dataUrlMatch s with
      | None => (CThrew (lit "Invalid data URL format"), None)
      | Some (format, base64Data) =>
          let req := UploadRequest base64Data format (charNameOf character) in
          (uploadResult (server req), Some req)
      end
  | _ => (CEngineError, None)
  end.

End Platform.

(** ** [regenerateMessageImages] (index.js 1141-1220)

    The call is followed from its start to its end, with no other call
    running between its awaits. *)

(** Lines 1206-1207: the rewrite of the log, the same for both grammars. *)
Definition regenRewrite (log : jsstring) (t : tag) (imagePath : jsstring) : jsstring :=
  let updatedTag :=
    regexReplace true srcSlotRegex (srcAttribute imagePath) (fullMatch t) in
  replaceFirst (fullMatch t) updatedTag log.

(** The loop of lines 1176-1215 from the tag [index] on.  [imgs] counts
    the elements [img[data-iig-instruction]] left in the text of the
    message: a turn that finds one replaces it by a placeholder, which in
    the end gives way to an image without the attribute or stays.
    [outcomeOf index] is how generation and upload end for the tag
    [index].  After the upload, [img.alt = tag.prompt] (line 1202)
    converts the prompt, still inside the [try]: when it cannot be
    converted the [catch] runs and the log is not rewritten.  The result
    is the log, the indices of the tags for which an image was requested,
    and whether the [catch] threw, which ends the call. *)
Fixpoint regenLoop (tags : list tag) (index imgs : nat) (outcomeOf : nat → jobOutcome)
    (log : jsstring) : jsstring * list nat * bool :=
  match tags with
  | [] => (log, [], false)
  | t :: rest =>
      match imgs with
      | 0 => regenLoop rest (S index) 0 outcomeOf log
      | S imgs' =>
          match outcomeOf index with
          | OutDone imagePath =>
              let '(log', requested, threw) :=
                regenLoop rest (S index) imgs' outcomeOf
                  (if canConvert (prompt t) then regenRewrite log t imagePath else log) in
              (log', index :: requested, threw)
          | OutError (Error _) =>
              let '(log', requested, threw) :=
                regenLoop rest (S index) imgs' outcomeOf log in
              (log', index :: requested, threw)
          | OutError ThrownUndefined => (log, [index], true)
          end
      end
  end.

Record regenRun := RegenRun {
  rr_chat : list message;
  rr_processing : gset nat;
  rr_saved : list (list message);
  rr_requested : list nat;
  rr_threw : bool
}.

(** [rr_saved] lists the chats given to [context.saveChat()]. *)
Definition regenerateMessageImages (w : world) (imgs : nat)
    (outcomeOf : nat → jobOutcome) (messageId : nat) : regenRun :=
  match chat w !! messageId with
  | None => RegenRun (chat w) (processingMessages w) [] [] false
  | Some m =>
      let tags := parseImageTags (mes m) (ParseOptions false true) (fileExists w) in
      if bool_decide (tags = []) then RegenRun (chat w) (processingMessages w) [] [] false
      else
        let marked := {[messageId]} ∪ processingMessages w in
        match dom w messageId with
        | NoElement | NoMesText =>
            RegenRun (chat w) (marked ∖ {[messageId]}) [] [] false
        | Rendered =>
            let '(log, requested, threw) := regenLoop tags 0 imgs outcomeOf (mes m) in
            let chat' := <[messageId := Message log (is_user m)]> (chat w) in
            if threw then RegenRun chat' marked [] requested true
            else RegenRun chat' (marked ∖ {[messageId]}) [chat'] requested false
        end
  end.

(** * Specification-side definitions

    What follows is not translated from the source: these definitions
    state what the claims speak of, and the theorems relate them to the
    functions above. *)

(** ** Tag occurrences, from left to right

    [sweepFrom f skip i s] walks the text once.  [f i s] tells whether a
    tag starts at index [i] (where [s] is the text from [i] on), how far
    the search moves on from [i], and what the tag yields; [skip] units
    are passed over before the search resumes. *)
Section Sweep.
Context {A : Type} (f : nat → jsstring → option (nat * A)).

Fixpoint sweepFrom (skip i : nat) (s : jsstring) : list A :=
  match s with
  | [] => []
  | _ :: s' =>
      match skip with
      | S k => sweepFrom k (S i) s'
      | 0 =>
          match f i s with
          | Some (adv, a) => a :: sweepFrom (adv - 1) (S i) s'
          | None => sweepFrom 0 (S i) s'
          end
      end
  end.

(** The first index at or after [i] where a tag starts. *)
Fixpoint firstFrom (i : nat) (s : jsstring) : option (nat * (nat * A)) :=
  match f i s with
  | Some r => Some (i, r)
  | None =>
      match s with
      | [] => None
      | _ :: s' => firstFrom (S i) s'
      end
  end.

End Sweep.

(** An attribute-embedded tag starts at [i] when [imgTagRegex] matches
    there. *)
Definition imgCandidate (i : nat) (s : jsstring) : option (nat * (nat * rmatch)) :=
  match matchHere true imgTagRegex s None None with
  | Some m => Some (m_len m, (i, m))
  | None => None
  end.

(** The matches of [imgTagRegex] in the text, from left to right, none
    overlapping an earlier one. *)
Definition imgMatches (text : jsstring) : list (nat * rmatch) :=
  sweepFrom imgCandidate 0 0 text.

(** A legacy tag may start wherever the marker stands. *)
Definition legacyCandidate (text : jsstring) (i : nat) (s : jsstring)
    : option (nat * (nat * option tag)) :=
  if startsWith marker s then
    let '(next, pushed) := legacyBody text i in Some (next - i, (i, pushed))
  else None.

Definition legacyTurns (text : jsstring) : list (nat * option tag) :=
  sweepFrom (legacyCandidate text) 0 0 text.

(** The instructions of a text: the attribute-embedded tags that ask for
    generation and decode, from left to right, then the legacy tags that
    close with a bracket and decode, from left to right. *)
Definition newInstructions (text : jsstring) (opts : parseOptions)
    (probe : jsstring → bool) : list tag :=
  omap (fun km => newFormatBody opts probe text km.1 km.2) (imgMatches text).

Definition legacyInstructions (text : jsstring) : list tag :=
  omap snd (legacyTurns text).

Definition instructionsOf (text : jsstring) (opts : parseOptions)
    (probe : jsstring → bool) : list tag :=
  newInstructions text opts probe ++ legacyInstructions text.

Fixpoint increasing (l : list nat) : bool :=
  match l with
  | a :: ((b :: _) as rest) => (a <? b) && increasing rest
  | _ => true
  end.

(** Document order: the tags stand in the list as in the text. *)
Definition inDocumentOrder (tags : list tag) : bool :=
  increasing (map index tags).

(** The text of a tag stands at its index. *)
Definition spanOf (text : jsstring) (t : tag) : jsstring :=
  substring text (index t) (index t + length (fullMatch t)).

(** ** Well-formed instructions

    The words of the specification for the two grammars: when a tag is
    pending, how the quoting of a payload is read, which instruction a
    decoded payload gives, and how the scan for legacy tags moves on. *)

(** The resource attribute holds a path: it starts with a slash and is
    longer than five units. *)
Definition isPath (src : jsstring) : bool :=
  startsWith (lit "/") src && (5 <? length src).

(** A tag is pending: under [forceAll] always; otherwise when its
    resource attribute does not hold the error image and holds a marker,
    or is empty or absent, or, with existence checking, is a path that the
    probe reports missing. *)
Definition pending (opts : parseOptions) (probe : jsstring → bool) (src : jsstring) : bool :=
  forceAll opts
  || (negb (includes (lit "error.svg") src)
      && (includes (lit "[IMG:") src
          || jseq src []
          || (checkExistence opts && isPath src && negb (probe src)))).

Definition holds (c : N) (s : jsstring) : bool := existsb (N.eqb c) s.

(** Single quotes read as double quotes. *)
Definition asDoubleQuotes (s : jsstring) : jsstring :=
  map (fun c => if N.eqb c squote then dquote else c) s.

(** The entities of the quotes and of the ampersand, decoded. *)
Definition decodeEntities (s : jsstring) : jsstring :=
  replaceAll (lit "&amp;") (lit "&")
    (replaceAll (lit "&apos;") (lit "'") (replaceAll (lit "&quot;") [dquote] s)).

(** The payload of a legacy tag as the tolerant rules read it: a payload
    without single quotes is taken as it is, one written with single
    quotes and no double quote has them read as double quotes.  A payload
    that holds both kinds of quotes is left open. *)
Definition readLegacy (payload : jsstring) : option jsstring :=
  if negb (holds squote payload) then Some payload
  else if negb (holds dquote payload) then Some (asDoubleQuotes payload)
  else None.

(** The same for the attribute grammar, where the entities are decoded
    as well; here a payload with single quotes is left open also when it
    holds the entity of the double quote. *)
Definition readAttribute (payload : jsstring) : option jsstring :=
  if negb (holds squote payload) then Some (decodeEntities payload)
  else if negb (holds dquote payload) && negb (includes (lit "&quot;") payload)
       then Some (decodeEntities (asDoubleQuotes payload))
       else None.

(** The field [k] of a decoded payload; [undefined] when it has none. *)
Definition fieldOf (data : jsval) (k : jsstring) : jsval :=
  default JUndefined (getProp data k).

(** The instruction of a decoded payload: its fields unchanged, the empty
    string for a style or prompt that is missing or falsy, [null] for the
    other fields, either spelling of the two options. *)
Definition instructionOf (data : jsval) (full : jsstring) (idx : nat) (new : bool)
    (src : jsval) : tag :=
  Tag full idx
    (jsOr (fieldOf data (lit "style")) (JStr []))
    (jsOr (fieldOf data (lit "prompt")) (JStr []))
    (jsOr (jsOr (fieldOf data (lit "aspect_ratio")) (fieldOf data (lit "aspectRatio"))) JNull)
    (jsOr (jsOr (fieldOf data (lit "image_size")) (fieldOf data (lit "imageSize"))) JNull)
    (jsOr (fieldOf data (lit "quality")) JNull)
    new src.

(** What the text [q] gives: no instruction when it is not JSON, or is
    JSON for [null]; the instruction of the value otherwise. *)
Definition decoded (q : jsstring) (full : jsstring) (idx : nat) (new : bool) (src : jsval)
    : option tag :=
  match JSON_parse q with
  | None | Some JNull | Some JUndefined => None
  | Some data => Some (instructionOf data full idx new src)
  end.

(** Where the scan for legacy tags goes on after the marker at [i]:
    behind the marker when no object closes, behind the object when no
    bracket follows it, behind the bracket otherwise. *)
Definition resumeAfter (text : jsstring) (i : nat) : nat :=
  match findJsonEnd text (i + length marker) with
  | None => i + length marker
  | Some jsonEnd => if startsWith (lit "]") (drop jsonEnd text) then jsonEnd + 1 else jsonEnd
  end.

Definition markerAt (text : jsstring) (i : nat) (s : jsstring) : option (nat * nat) :=
  if startsWith marker s then Some (resumeAfter text i - i, i) else None.

(** The markers that the scan examines, from left to right: a marker
    that stands before the point where the scan goes on is passed over. *)
Definition examinedMarkers (text : jsstring) : list nat :=
  sweepFrom (markerAt text) 0 0 text.

(** ** The lexical shape of a JSON object

    What the brace matching has to get right: units outside strings,
    string literals whose body is made of plain units and escape pairs,
    and nested objects.  Brackets, commas and colons are plain units. *)

Inductive strItem :=
| SChar (c : N)
| SEscape (c : N).

#[warnings="-register-all"]
Inductive item :=
| IPlain (c : N)
| IString (body : list strItem)
| IObject (body : list item).

Definition renderStrItem (x : strItem) : jsstring :=
  match x with
  | SChar c => [c]
  | SEscape c => [backslash; c]
  end.

Fixpoint render (it : item) : jsstring :=
  match it with
  | IPlain c => [c]
  | IString body => dquote :: flat_map renderStrItem body ++ [dquote]
  | IObject body => lbrace :: flat_map render body ++ [rbrace]
  end.

(** A plain unit of a string body is neither the quote nor the backslash. *)
Definition wfStrItem (x : strItem) : bool :=
  match x with
  | SChar c => negb (N.eqb c dquote) && negb (N.eqb c backslash)
  | SEscape _ => true
  end.

(** A plain unit outside strings is neither the quote nor a brace. *)
Fixpoint wfItem (it : item) : bool :=
  match it with
  | IPlain c => negb (N.eqb c dquote) && negb (N.eqb c lbrace) && negb (N.eqb c rbrace)
  | IString body => forallb wfStrItem body
  | IObject body => forallb wfItem body
  end.

(** The units that may stand outside strings as they are. *)
Definition plainUnit (c : N) : bool :=
  negb (N.eqb c dquote) && negb (N.eqb c lbrace) && negb (N.eqb c rbrace).

(** A string literal whose body is written without escapes. *)
Definition plainString (s : string) : item := IString (map SChar (lit s)).
Arguments plainString _%_string.

(** The state of the scan after the units of [s], from [st]. *)
Definition scanStateAfter (st : scanState) (s : jsstring) : scanState :=
  fold_left (fun st c => (scanStep st c).1) s st.

(** ** The writer *)

(** How many times [p] stands in [s], occurrences that overlap
    included. *)
Fixpoint countOccurrences (p s : jsstring) : nat :=
  (if startsWith p s then 1 else 0)
  + match s with
    | [] => 0
    | _ :: s' => countOccurrences p s'
    end.

(** The units that open and close the text of a tag: angle brackets in
    the attribute grammar, square brackets in the legacy one. *)
Definition opener (t : tag) : N := if isNewFormat t then 60%N else 91%N.
Definition closer (t : tag) : N := if isNewFormat t then 62%N else rbracket.

(** What the writer puts into the log for an image at [imagePath]: the
    resource attribute of the tag, or the completion marker instead of
    the tag. *)
Definition written (t : tag) (imagePath : jsstring) : jsstring :=
  if isNewFormat t then srcAttribute imagePath else completionMarker imagePath.

(** ** Saves *)

(** How many times the call [i] has saved the chat. *)
Definition savesOf (w : world) (i : nat) : nat :=
  length (List.filter (fun s => Nat.eqb s.1 i) (saves w)).

(** What the state of a call says about its saves: a call saves at most
    once, and only when all its jobs are fulfilled. *)
Definition callOk (w : world) (i : nat) (t : call) : Prop :=
  match c_state t with
  | TParsing | TJoin | TThrew => savesOf w i = 0
  | TSaving => savesOf w i = 1 ∧ forallb isFulfilled (c_jobs t) = true
  | TReturned =>
      savesOf w i = 0 ∨ (savesOf w i = 1 ∧ forallb isFulfilled (c_jobs t) = true)
  end.

Definition saveInv (w : world) : Prop :=
  (∀ i t, calls w !! i = Some t → callOk w i t)
  ∧ (∀ s, s ∈ saves w → s.1 < length (calls w)).

(** ** Retry *)

(** The delay waited after the failed attempt [k]. *)
Definition backoff (s : settings) (k : nat) : Z := (retryDelay s * 2 ^ Z.of_nat k)%Z.

(** How the attempt [n] ends a call: with the data of the provider, or
    with its error, which is either not retryable or met the ceiling. *)
Definition endsAt (s : settings) (provider : nat → attemptResult) (n : nat)
    (o : genOutcome) : Prop :=
  match provider n with
  | Returned dataUrl => o = GenOk dataUrl
  | Threw message =>
      o = GenThrow (Error message)
      ∧ (isRetryable message = false ∨ Z.of_nat n = maxRetries s)
  end.

(** ** The log buffer *)

(** The entry of one call of [iigLog]. *)
Definition entryOf (c : jsstring * jsstring * jsstring) : jsstring :=
  logEntry c.1.1 c.1.2 c.2.

(** ** Settings *)

(** The default value of a property, if it has one. *)
Definition defaultOf (k : jsstring) : option jsval :=
  (list_to_map defaultSettings : gmap jsstring jsval) !! k.

(** ** The platform, for the examples

    [toLowerCase] on text whose letters are all in ASCII, and [ToString]
    on strings, booleans, [null] and [undefined]. *)

Definition asciiLower (s : jsstring) : jsstring :=
  map (fun c => if (N.leb 65 c && N.leb c 90)%N then (c + 32)%N else c) s.

Definition textOf (v : jsval) : jsstring :=
  match v with
  | JStr s => s
  | JBool true => lit "true"
  | JBool false => lit "false"
  | JNull => lit "null"
  | JUndefined => lit "undefined"
  | _ => []
  end.

(** ** Retry *)

(** The time a call spends waiting between its attempts. *)
Definition totalDelay (r : genRun) : Z := fold_right Z.add 0%Z (delays r).

(** ** Spans *)

(** Where the text of a tag ends. *)
Definition endOf (t : tag) : nat := index t + length (fullMatch t).

(** Each tag of the list ends before the later ones start. *)
Definition apart (tags : list tag) : Prop :=
  StronglySorted (fun a b => endOf a ≤ index b) tags.

(** ** The answer of the Gemini provider *)

(** A part of the response without an image: both spellings of the
    property are absent or falsy. *)
Definition holdsNoImage (p : jsval) : Prop :=
  ∃ a b, getProp p (lit "inlineData") = Some a ∧ truthy a = false
         ∧ getProp p (lit "inline_data") = Some b ∧ truthy b = false.


(** * Theorems *)

(** ** The fuel of [JSON_parse] *)

Lemma skipWs_length (s : jsstring) : length (skipWs s) ≤ length s.
Proof.
  induction s as [| c s IH]; [reflexivity |]. cbn [skipWs].
  destruct (isJsonWs c); cbn [length]; lia.
Qed.

Lemma skipWs_cons_length (s r : jsstring) (c : N) :
  skipWs s = c :: r → length r < length s.
Proof. intros H. pose proof (skipWs_length s) as Hl. rewrite H in Hl. cbn in Hl. lia. Qed.

Lemma parseStringBody_length (n : nat) :
  ∀ s acc t r, length s ≤ n → parseStringBody s acc = Some (t, r) → length r < length s.
Proof.
  induction n as [| n IH]; intros s acc t r Hn H.
  - destruct s; [discriminate | cbn in Hn; lia].
  - destruct s as [| c s]; [discriminate |]. cbn [parseStringBody] in H. cbn [length] in *.
    destruct (N.eqb c dquote); [simplify_eq; lia |].
    destruct (N.eqb c backslash).
    + destruct s as [| e s]; [discriminate |]. cbn [length] in *.
      destruct (N.eqb e 117).
      * destruct s as [| a [| b [| x [| d rest]]]]; try discriminate.
        destruct (hex4 a b x d); [| discriminate].
        apply IH in H; cbn [length] in *; lia.
      * destruct (simpleEscape e); [| discriminate].
        apply IH in H; lia.
    + destruct (N.ltb c 32); [discriminate |].
      apply IH in H; lia.
Qed.

Lemma spanDigits_length (s : jsstring) : length (spanDigits s).2 ≤ length s.
Proof.
  induction s as [| c s IH]; [reflexivity |]. cbn [spanDigits].
  destruct (isDigit c); [| reflexivity].
  destruct (spanDigits s) as [ds r]. cbn [snd length] in *. lia.
Qed.

Lemma parseNumber_length (s : jsstring) (v : jsval) (r : jsstring) :
  parseNumber s = Some (v, r) → length r ≤ length s.
Proof.
  unfold parseNumber. intros H.
  set (p1 := match s with
             | c :: s' => if N.eqb c 45 then (true, s') else (false, s)
             | [] => (false, s)
             end) in H.
  assert (H1 : length p1.2 ≤ length s).
  { unfold p1. destruct s as [| c s']; [reflexivity |].
    destruct (N.eqb c 45); cbn; lia. }
  destruct p1 as [neg s1]. cbn [snd] in H1.
  set (p2 := match s1 with
             | c :: s' =>
                 if N.eqb c 48 then Some ([c], s')
                 else if isDigit c then Some (spanDigits s1) else None
             | [] => None
             end) in H.
  assert (H2 : ∀ ids s2, p2 = Some (ids, s2) → length s2 ≤ length s1).
  { unfold p2. intros ids s2 Hp. destruct s1 as [| c s']; [discriminate |].
    destruct (N.eqb c 48); [simplify_eq; cbn; lia |].
    destruct (isDigit c); [| discriminate].
    pose proof (spanDigits_length (c :: s')) as Hl. simplify_eq. rewrite Hp in Hl. exact Hl. }
  destruct p2 as [[ids s2] |]; [| discriminate]. specialize (H2 _ _ eq_refl).
  set (p3 := match s2 with
             | c :: s' =>
                 if N.eqb c 46 then
                   match spanDigits s' with
                   | ([], _) => None
                   | (fds, r) => Some (fds, r)
                   end
                 else Some ([], s2)
             | [] => Some ([], s2)
             end) in H.
  assert (H3 : ∀ fds s3, p3 = Some (fds, s3) → length s3 ≤ length s2).
  { unfold p3. intros fds s3 Hp. destruct s2 as [| c s']; [simplify_eq; lia |].
    destruct (N.eqb c 46); [| simplify_eq; lia].
    pose proof (spanDigits_length s') as Hl.
    destruct (spanDigits s') as [[| f fds'] r']; [discriminate |].
    simplify_eq. cbn in *. lia. }
  destruct p3 as [[fds s3] |]; [| discriminate]. specialize (H3 _ _ eq_refl).
  match type of H with
  | match ?p with _ => _ end = _ => set (p4 := p) in H
  end.
  assert (H4 : ∀ e s5, p4 = Some (e, s5) → length s5 ≤ length s3).
  { unfold p4. intros e s5 Hp. destruct s3 as [| c s']; [simplify_eq; lia |].
    destruct (N.eqb c 101 || N.eqb c 69); [| simplify_eq; lia].
    match type of Hp with
    | (let '(_, _) := ?q in _) = _ => set (p5 := q) in Hp
    end.
    assert (H5 : length p5.2 ≤ length s').
    { unfold p5. destruct s' as [| d s'']; [reflexivity |].
      destruct (N.eqb d 45); [cbn; lia |]. destruct (N.eqb d 43); cbn; lia. }
    destruct p5 as [eneg s4]. cbn [snd] in H5.
    pose proof (spanDigits_length s4) as Hl.
    destruct (spanDigits s4) as [[| f eds] r']; [discriminate |].
    simplify_eq. cbn in *. lia. }
  destruct p4 as [[e s5] |]; [| discriminate]. specialize (H4 _ _ eq_refl).
  simplify_eq. lia.
Qed.

Lemma parse_length (n : nat) :
  (∀ s v r, parseValue n s = Some (v, r) → length r ≤ length s)
  ∧ (∀ s acc v r, parseElems n s acc = Some (v, r) → length r ≤ length s)
  ∧ (∀ s acc v r, parseMembers n s acc = Some (v, r) → length r ≤ length s).
Proof.
  induction n as [| n (IHv & IHe & IHm)]; [repeat split; intros; discriminate |].
  repeat split.
  - intros s v r H. cbn [parseValue] in H.
    destruct (skipWs s) as [| c s'] eqn:Hs; [discriminate |].
    apply skipWs_cons_length in Hs.
    destruct (N.eqb c lbrace).
    { destruct (skipWs s') as [| d r'] eqn:Hs'; [discriminate |].
      apply skipWs_cons_length in Hs'.
      destruct (N.eqb d rbrace); [simplify_eq; lia |].
      apply IHm in H. cbn [length] in H. lia. }
    destruct (N.eqb c 91).
    { destruct (skipWs s') as [| d r'] eqn:Hs'; [discriminate |].
      apply skipWs_cons_length in Hs'.
      destruct (N.eqb d rbracket); [simplify_eq; lia |].
      apply IHe in H. cbn [length] in H. lia. }
    destruct (N.eqb c dquote).
    { destruct (parseStringBody s' []) as [[t r'] |] eqn:Hb; [| discriminate].
      apply (parseStringBody_length (length s')) in Hb; [| lia]. simplify_eq. lia. }
    destruct (N.eqb c 45 || isDigit c).
    { apply parseNumber_length in H. cbn [length] in H. lia. }
    destruct (startsWith (lit "true") (c :: s')); [simplify_eq; rewrite length_drop; cbn; lia |].
    destruct (startsWith (lit "false") (c :: s')); [simplify_eq; rewrite length_drop; cbn; lia |].
    destruct (startsWith (lit "null") (c :: s')); [simplify_eq; rewrite length_drop; cbn; lia |].
    discriminate.
  - intros s acc v r H. cbn [parseElems] in H.
    destruct (parseValue n s) as [[v' r'] |] eqn:Hv; [| discriminate].
    apply IHv in Hv.
    destruct (skipWs r') as [| d r''] eqn:Hs; [discriminate |].
    apply skipWs_cons_length in Hs.
    destruct (N.eqb d 44); [apply IHe in H; lia |].
    destruct (N.eqb d rbracket); [simplify_eq; lia | discriminate].
  - intros s acc v r H. cbn [parseMembers] in H.
    destruct (skipWs s) as [| q s'] eqn:Hs; [discriminate |].
    apply skipWs_cons_length in Hs.
    destruct (N.eqb q dquote); [| discriminate].
    destruct (parseStringBody s' []) as [[k r1] |] eqn:Hb; [| discriminate].
    apply (parseStringBody_length (length s')) in Hb; [| lia].
    destruct (skipWs r1) as [| c r2] eqn:Hs1; [discriminate |].
    apply skipWs_cons_length in Hs1.
    destruct (N.eqb c 58); [| discriminate].
    destruct (parseValue n r2) as [[v' r3] |] eqn:Hv; [| discriminate].
    apply IHv in Hv.
    destruct (skipWs r3) as [| d r4] eqn:Hs3; [discriminate |].
    apply skipWs_cons_length in Hs3.
    destruct (N.eqb d 44); [apply IHm in H; lia |].
    destruct (N.eqb d rbrace); [simplify_eq; lia | discriminate].
Qed.

(** One more unit of fuel changes nothing once the fuel is twice the
    length of the text. *)
Lemma parse_stable (n : nat) :
  (∀ s, 2 * length s + 1 ≤ n → parseValue (S n) s = parseValue n s)
  ∧ (∀ s acc, 2 * length s + 2 ≤ n → parseElems (S n) s acc = parseElems n s acc)
  ∧ (∀ s acc, 2 * length s + 2 ≤ n → parseMembers (S n) s acc = parseMembers n s acc).
Proof.
  induction n as [| n (IHv & IHe & IHm)]; [repeat split; intros; lia |].
  destruct (parse_length n) as (Lv & Le & Lm).
  repeat split.
  - intros s Hn.
    change (parseValue (S (S n)) s) with
      (match skipWs s with
       | [] => None
       | c :: s' =>
           if N.eqb c lbrace then
             match skipWs s' with
             | d :: r => if N.eqb d rbrace then Some (JObj [], r)
                         else parseMembers (S n) (d :: r) []
             | [] => None
             end
           else if N.eqb c 91 then
             match skipWs s' with
             | d :: r => if N.eqb d rbracket then Some (JArr [], r)
                         else parseElems (S n) (d :: r) []
             | [] => None
             end
           else if N.eqb c dquote then
             match parseStringBody s' [] with
             | Some (t, r) => Some (JStr t, r)
             | None => None
             end
           else if N.eqb c 45 || isDigit c then parseNumber (c :: s')
           else if startsWith (lit "true") (c :: s') then Some (JBool true, drop 4 (c :: s'))
           else if startsWith (lit "false") (c :: s') then Some (JBool false, drop 5 (c :: s'))
           else if startsWith (lit "null") (c :: s') then Some (JNull, drop 4 (c :: s'))
           else None
       end).
    cbn [parseValue].
    destruct (skipWs s) as [| c s'] eqn:Hs; [reflexivity |].
    apply skipWs_cons_length in Hs.
    destruct (N.eqb c lbrace).
    { destruct (skipWs s') as [| d r'] eqn:Hs'; [reflexivity |].
      apply skipWs_cons_length in Hs'.
      destruct (N.eqb d rbrace); [reflexivity |].
      apply IHm. cbn [length]. lia. }
    destruct (N.eqb c 91); [| reflexivity].
    destruct (skipWs s') as [| d r'] eqn:Hs'; [reflexivity |].
    apply skipWs_cons_length in Hs'.
    destruct (N.eqb d rbracket); [reflexivity |].
    apply IHe. cbn [length]. lia.
  - intros s acc Hn.
    change (parseElems (S (S n)) s acc) with
      (match parseValue (S n) s with
       | None => None
       | Some (v, r) =>
           match skipWs r with
           | d :: r' =>
               if N.eqb d 44 then parseElems (S n) r' (v :: acc)
               else if N.eqb d rbracket then Some (JArr (rev (v :: acc)), r')
               else None
           | [] => None
           end
       end).
    cbn [parseElems]. rewrite IHv by lia.
    destruct (parseValue n s) as [[v r] |] eqn:Hv; [| reflexivity].
    apply Lv in Hv.
    destruct (skipWs r) as [| d r'] eqn:Hs; [reflexivity |].
    apply skipWs_cons_length in Hs.
    destruct (N.eqb d 44); [| reflexivity].
    apply IHe. lia.
  - intros s acc Hn.
    change (parseMembers (S (S n)) s acc) with
      (match skipWs s with
       | q :: s' =>
           if N.eqb q dquote then
             match parseStringBody s' [] with
             | None => None
             | Some (k, r) =>
                 match skipWs r with
                 | c :: r1 =>
                     if N.eqb c 58 then
                       match parseValue (S n) r1 with
                       | None => None
                       | Some (v, r2) =>
                           match skipWs r2 with
                           | d :: r3 =>
                               if N.eqb d 44 then parseMembers (S n) r3 ((k, v) :: acc)
                               else if N.eqb d rbrace then
                                 Some (JObj (rev ((k, v) :: acc)), r3)
                               else None
                           | [] => None
                           end
                       end
                     else None
                 | [] => None
                 end
             end
           else None
       | [] => None
       end).
    cbn [parseMembers].
    destruct (skipWs s) as [| q s'] eqn:Hs; [reflexivity |].
    apply skipWs_cons_length in Hs.
    destruct (N.eqb q dquote); [| reflexivity].
    destruct (parseStringBody s' []) as [[k r1] |] eqn:Hb; [| reflexivity].
    apply (parseStringBody_length (length s')) in Hb; [| lia].
    destruct (skipWs r1) as [| c r2] eqn:Hs1; [reflexivity |].
    apply skipWs_cons_length in Hs1.
    destruct (N.eqb c 58); [| reflexivity].
    rewrite IHv by lia.
    destruct (parseValue n r2) as [[v r3] |] eqn:Hv; [| reflexivity].
    apply Lv in Hv.
    destruct (skipWs r3) as [| d r4] eqn:Hs3; [reflexivity |].
    apply skipWs_cons_length in Hs3.
    destruct (N.eqb d 44); [| reflexivity].
    apply IHm. lia.
Qed.

(** The fuel of [JSON_parse] is enough: with any larger fuel the result
    is the same. *)
Lemma JSON_parse_fuel (s : jsstring) (m : nat) :
  2 * length s + 2 ≤ m → parseValue m s = parseValue (2 * length s + 2) s.
Proof.
  intros Hm. induction m as [| m IH]; [lia |].
  destruct (decide (S m = 2 * length s + 2)) as [-> | Hne]; [reflexivity |].
  rewrite <- IH by lia. apply (parse_stable m). lia.
Qed.

(** ** Brace matching *)

Lemma item_induction (P : item → Prop) :
  (∀ c, P (IPlain c)) →
  (∀ body, P (IString body)) →
  (∀ body, Forall P body → P (IObject body)) →
  ∀ it, P it.
Proof.
  intros HP HS HO.
  fix IH 1.
  intros [c | body | body].
  - apply HP.
  - apply HS.
  - apply HO. induction body as [| x body IHb]; constructor; [apply IH | exact IHb].
Qed.

Lemma scanLoop_cons st i c s :
  scanLoop st i (c :: s)
  = if (scanStep st c).2 then Some (i + 1) else scanLoop (scanStep st c).1 (i + 1) s.
Proof. simpl. destruct (scanStep st c) as [st' stop]. reflexivity. Qed.

Lemma scanStep_escaped d b c :
  scanStep (ScanState d b true) c = (ScanState d b false, false).
Proof. reflexivity. Qed.

Lemma scanStep_backslash d :
  scanStep (ScanState d true false) backslash = (ScanState d true true, false).
Proof. reflexivity. Qed.

Lemma scanStep_quote d b :
  scanStep (ScanState d b false) dquote = (ScanState d (negb b) false, false).
Proof. destruct b; reflexivity. Qed.

Lemma scanStep_in_string d c :
  N.eqb c dquote = false → N.eqb c backslash = false →
  scanStep (ScanState d true false) c = (ScanState d true false, false).
Proof. intros Hq Hb. unfold scanStep. simpl. rewrite Hb, Hq. reflexivity. Qed.

Lemma scanStep_plain d c :
  N.eqb c dquote = false → N.eqb c lbrace = false → N.eqb c rbrace = false →
  scanStep (ScanState d false false) c = (ScanState d false false, false).
Proof.
  intros Hq Hl Hr. unfold scanStep. simpl.
  rewrite andb_false_r, Hq, Hl, Hr. reflexivity.
Qed.

Lemma scanStep_open d :
  scanStep (ScanState d false false) lbrace = (ScanState (d + 1) false false, false).
Proof. reflexivity. Qed.

Lemma scanStep_close d :
  scanStep (ScanState d false false) rbrace
  = (ScanState (d - 1) false false, Z.eqb (d - 1) 0).
Proof. reflexivity. Qed.

Lemma scanLoop_string_body (body : list strItem) :
  forallb wfStrItem body = true →
  ∀ d i rest,
    scanLoop (ScanState d true false) i (flat_map renderStrItem body ++ rest)
    = scanLoop (ScanState d true false) (i + length (flat_map renderStrItem body)) rest.
Proof.
  induction body as [| x body IH]; intros Hwf d i rest.
  - simpl. f_equal. lia.
  - simpl in Hwf. apply andb_true_iff in Hwf as [Hx Hb].
    cbn [flat_map]. rewrite <- app_assoc, length_app.
    destruct x as [c | c]; cbn [renderStrItem app length].
    + simpl in Hx. apply andb_true_iff in Hx as [Hq Hs].
      apply negb_true_iff in Hq, Hs.
      rewrite scanLoop_cons, scanStep_in_string by assumption. cbn [fst snd].
      rewrite IH by exact Hb. f_equal. lia.
    + rewrite scanLoop_cons, scanStep_backslash. cbn [fst snd].
      rewrite scanLoop_cons, scanStep_escaped. cbn [fst snd].
      rewrite IH by exact Hb. f_equal. lia.
Qed.

Lemma scanLoop_item (it : item) :
  wfItem it = true →
  ∀ d i rest, (1 ≤ d)%Z →
    scanLoop (ScanState d false false) i (render it ++ rest)
    = scanLoop (ScanState d false false) (i + length (render it)) rest.
Proof.
  induction it as [c | body | body IH] using item_induction; intros Hwf d i rest Hd.
  - simpl in Hwf. apply andb_true_iff in Hwf as [Hwf Hr].
    apply andb_true_iff in Hwf as [Hq Hl].
    apply negb_true_iff in Hq, Hl, Hr.
    cbn [render app length]. rewrite scanLoop_cons, scanStep_plain by assumption.
    reflexivity.
  - cbn [render wfItem] in *. cbn [app length].
    rewrite scanLoop_cons, scanStep_quote. cbn [fst snd negb].
    rewrite <- app_assoc, scanLoop_string_body by exact Hwf.
    cbn [app]. rewrite scanLoop_cons, scanStep_quote. cbn [fst snd negb].
    f_equal. rewrite length_app. simpl. lia.
  - cbn [render wfItem] in *. cbn [app length].
    rewrite scanLoop_cons, scanStep_open. cbn [fst snd].
    rewrite <- app_assoc.
    assert (Hbody : ∀ j tail,
      scanLoop (ScanState (d + 1) false false) j (flat_map render body ++ tail)
      = scanLoop (ScanState (d + 1) false false) (j + length (flat_map render body)) tail).
    { clear i rest. induction body as [| x body IHb]; intros j tail.
      - simpl. f_equal. lia.
      - cbn [flat_map forallb] in *. apply andb_true_iff in Hwf as [Hx Hb].
        apply Forall_cons in IH as [IHx IHrest].
        rewrite <- app_assoc, IHx by (assumption || lia).
        rewrite IHb by assumption. f_equal. rewrite length_app. lia. }
    rewrite Hbody. cbn [app]. rewrite scanLoop_cons, scanStep_close. cbn [fst snd].
    replace (d + 1 - 1)%Z with d by lia.
    destruct (Z.eqb_spec d 0) as [Hz | _]; [lia |].
    f_equal. rewrite length_app. simpl. lia.
Qed.

Lemma scanLoop_object (body : list item) :
  forallb wfItem body = true →
  ∀ i rest,
    scanLoop scanInit i (render (IObject body) ++ rest)
    = Some (i + length (render (IObject body))).
Proof.
  intros Hwf i rest. unfold scanInit. cbn [render app length].
  rewrite scanLoop_cons, scanStep_open. cbn [fst snd].
  rewrite <- app_assoc.
  assert (Hbody : ∀ j tail,
    scanLoop (ScanState 1 false false) j (flat_map render body ++ tail)
    = scanLoop (ScanState 1 false false) (j + length (flat_map render body)) tail).
  { clear i rest. induction body as [| x body IHb]; intros j tail.
    - simpl. f_equal. lia.
    - cbn [flat_map forallb] in *. apply andb_true_iff in Hwf as [Hx Hb].
      rewrite <- app_assoc, scanLoop_item by (assumption || lia).
      rewrite IHb by assumption. f_equal. rewrite length_app. lia. }
  change (0 + 1)%Z with 1%Z. rewrite Hbody. cbn [app].
  rewrite scanLoop_cons, scanStep_close. cbn [fst snd].
  change (1 - 1 =? 0)%Z with true. cbn iota.
  f_equal. rewrite length_app. simpl. lia.
Qed.

Lemma scanStep_stop st c :
  (scanStep st c).2 = true →
  c = rbrace ∧ escapeNext st = false ∧ inString st = false ∧ braceCount st = 1%Z.
Proof.
  destruct st as [d b e]. unfold scanStep. cbn [escapeNext inString braceCount].
  destruct e; [discriminate |].
  destruct (N.eqb c backslash && b); [discriminate |].
  destruct (N.eqb c dquote); [discriminate |].
  destruct b; cbn [negb]; [discriminate |].
  destruct (N.eqb c lbrace); [discriminate |].
  destruct (N.eqb_spec c rbrace) as [-> | _]; [| discriminate].
  cbn [snd]. intros H. apply Z.eqb_eq in H. repeat split; lia.
Qed.

Lemma scanLoop_sound (s : jsstring) :
  ∀ st i e, scanLoop st i s = Some e →
    ∃ k, e = i + k + 1 ∧ s !! k = Some rbrace
         ∧ escapeNext (scanStateAfter st (take k s)) = false
         ∧ inString (scanStateAfter st (take k s)) = false
         ∧ braceCount (scanStateAfter st (take k s)) = 1%Z.
Proof.
  induction s as [| c s IH]; intros st i e H; [discriminate |].
  rewrite scanLoop_cons in H.
  destruct (scanStep st c).2 eqn:Hstop.
  - injection H as <-. apply scanStep_stop in Hstop as (-> & He & Hs & Hd).
    exists 0. repeat split; [lia | assumption ..].
  - apply IH in H as (k & -> & Hk & He & Hs & Hd).
    exists (S k). repeat split; [lia | assumption ..].
Qed.

Lemma startsWith_app (p s : jsstring) : startsWith p (p ++ s) = true.
Proof. induction p as [| a p IH]; [reflexivity |]. simpl. rewrite N.eqb_refl. exact IH. Qed.

Lemma startsWith_spec (p s : jsstring) :
  startsWith p s = true ↔ ∃ r, s = p ++ r.
Proof.
  split.
  - revert s. induction p as [| a p IH]; intros s H; [exists s; reflexivity |].
    destruct s as [| b s]; [discriminate |]. simpl in H.
    apply andb_true_iff in H as [Hab H]. apply N.eqb_eq in Hab as ->.
    apply IH in H as [r ->]. exists r. reflexivity.
  - intros [r ->]. apply startsWith_app.
Qed.

Lemma substring_spec (s : jsstring) (a b : nat) :
  a ≤ b → substring s a b = take (b - a) (drop a s).
Proof. intros H. unfold substring. rewrite Nat.max_r, Nat.min_l by lia. reflexivity. Qed.

Lemma substring_middle (pre mid post : jsstring) :
  substring (pre ++ mid ++ post) (length pre) (length pre + length mid) = mid.
Proof.
  rewrite substring_spec by lia. rewrite drop_app_length.
  replace (length pre + length mid - length pre) with (length mid) by lia.
  apply take_app_length.
Qed.


(** ** The lexical shape of what [JSON.parse] accepts *)


Lemma plain_items (cs : jsstring) :
  forallb plainUnit cs = true →
  forallb wfItem (map IPlain cs) = true ∧ flat_map render (map IPlain cs) = cs.
Proof.
  induction cs as [| c cs IH]; intros H; [split; reflexivity |].
  cbn [forallb] in H. apply andb_true_iff in H as [Hc Hcs].
  destruct (IH Hcs) as [Hwf Hr]. cbn [map forallb flat_map render wfItem app].
  unfold plainUnit in Hc. rewrite Hc, Hwf, Hr. split; reflexivity.
Qed.

Lemma skipWs_split (s : jsstring) :
  ∃ ws, s = ws ++ skipWs s ∧ forallb plainUnit ws = true.
Proof.
  induction s as [| c s (ws & Hs & Hws)]; [exists []; split; reflexivity |].
  cbn [skipWs]. destruct (isJsonWs c) eqn:Hc.
  - exists (c :: ws). cbn [app forallb]. rewrite Hws, andb_true_r. split; [congruence |].
    unfold isJsonWs in Hc. unfold plainUnit.
    repeat (apply orb_true_iff in Hc as [Hc | Hc]); apply N.eqb_eq in Hc as ->; reflexivity.
  - exists []. split; reflexivity.
Qed.

Lemma hexVal_plain (c : N) (v : N) :
  hexVal c = Some v → negb (N.eqb c dquote) && negb (N.eqb c backslash) = true.
Proof.
  unfold hexVal. intros H.
  destruct (N.eqb_spec c dquote) as [-> | _]; [discriminate |].
  destruct (N.eqb_spec c backslash) as [-> | _]; [discriminate |]. reflexivity.
Qed.

Lemma parseStringBody_shape (n : nat) :
  ∀ s acc t r, length s ≤ n → parseStringBody s acc = Some (t, r) →
    ∃ body, forallb wfStrItem body = true
            ∧ s = flat_map renderStrItem body ++ dquote :: r.
Proof.
  induction n as [| n IH]; intros s acc t r Hn H.
  - destruct s; [discriminate | cbn in Hn; lia].
  - destruct s as [| c s]; [discriminate |]. cbn [parseStringBody] in H. cbn [length] in *.
    destruct (N.eqb_spec c dquote) as [-> | Hq].
    { simplify_eq. exists []. split; reflexivity. }
    destruct (N.eqb_spec c backslash) as [-> | Hb].
    + destruct s as [| e s]; [discriminate |]. cbn [length] in *.
      destruct (N.eqb e 117) eqn:He.
      * destruct s as [| a [| b [| x [| d rest]]]]; try discriminate.
        destruct (hex4 a b x d) eqn:Hhex; [| discriminate].
        apply IH in H as (body & Hwf & ->); [| cbn [length] in *; lia].
        unfold hex4 in Hhex.
        destruct (hexVal a) eqn:Ha; [| discriminate].
        destruct (hexVal b) eqn:Hb'; [| discriminate].
        destruct (hexVal x) eqn:Hx; [| discriminate].
        destruct (hexVal d) eqn:Hd; [| discriminate].
        exists (SEscape e :: SChar a :: SChar b :: SChar x :: SChar d :: body).
        cbn [forallb wfStrItem flat_map renderStrItem app].
        rewrite (hexVal_plain _ _ Ha), (hexVal_plain _ _ Hb'), (hexVal_plain _ _ Hx),
          (hexVal_plain _ _ Hd), Hwf. split; reflexivity.
      * destruct (simpleEscape e); [| discriminate].
        apply IH in H as (body & Hwf & ->); [| lia].
        exists (SEscape e :: body). cbn [forallb wfStrItem flat_map renderStrItem app].
        rewrite Hwf. split; reflexivity.
    + destruct (N.ltb c 32); [discriminate |].
      apply IH in H as (body & Hwf & ->); [| lia].
      exists (SChar c :: body). cbn [forallb wfStrItem flat_map renderStrItem app].
      rewrite Hwf, andb_true_r.
      apply N.eqb_neq in Hq, Hb. rewrite Hq, Hb. split; reflexivity.
Qed.

Lemma spanDigits_shape (s : jsstring) :
  s = (spanDigits s).1 ++ (spanDigits s).2
  ∧ forallb plainUnit (spanDigits s).1 = true.
Proof.
  induction s as [| c s [Hs Hp]]; [split; reflexivity |]. cbn [spanDigits].
  destruct (isDigit c) eqn:Hc; [| split; reflexivity].
  destruct (spanDigits s) as [ds r]. cbn [fst snd app forallb] in *.
  rewrite Hp, andb_true_r. split; [congruence |].
  unfold isDigit in Hc. apply andb_true_iff in Hc as [Hlo Hhi].
  apply N.leb_le in Hlo, Hhi. unfold plainUnit, dquote, lbrace, rbrace.
  destruct (N.eqb_spec c 34); [lia |]. destruct (N.eqb_spec c 123); [lia |].
  destruct (N.eqb_spec c 125); [lia |]. reflexivity.
Qed.

Lemma parseNumber_shape (s : jsstring) (v : jsval) (r : jsstring) :
  parseNumber s = Some (v, r) →
  ∃ cs, s = cs ++ r ∧ forallb plainUnit cs = true.
Proof.
  unfold parseNumber. intros H.
  set (p1 := match s with
             | c :: s' => if N.eqb c 45 then (true, s') else (false, s)
             | [] => (false, s)
             end) in H.
  assert (H1 : ∃ cs, s = cs ++ p1.2 ∧ forallb plainUnit cs = true).
  { unfold p1. destruct s as [| c s']; [exists []; split; reflexivity |].
    destruct (N.eqb_spec c 45) as [-> | _]; [exists [45%N] | exists []]; split; reflexivity. }
  destruct p1 as [neg s1]. cbn [snd] in H1. destruct H1 as (cs1 & -> & Hcs1).
  set (p2 := match s1 with
             | c :: s' =>
                 if N.eqb c 48 then Some ([c], s')
                 else if isDigit c then Some (spanDigits s1) else None
             | [] => None
             end) in H.
  assert (H2 : ∀ ids s2, p2 = Some (ids, s2) →
                 ∃ cs, s1 = cs ++ s2 ∧ forallb plainUnit cs = true).
  { unfold p2. intros ids s2 Hp. destruct s1 as [| c s']; [discriminate |].
    destruct (N.eqb_spec c 48) as [-> | _].
    - simplify_eq. exists [48%N]. split; reflexivity.
    - destruct (isDigit c); [| discriminate].
      destruct (spanDigits_shape (c :: s')) as [Hs Hpl]. simplify_eq.
      rewrite Hp in Hs, Hpl. cbn [fst snd] in *. exists ids. split; assumption. }
  destruct p2 as [[ids s2] |]; [| discriminate].
  destruct (H2 _ _ eq_refl) as (cs2 & -> & Hcs2). clear H2.
  set (p3 := match s2 with
             | c :: s' =>
                 if N.eqb c 46 then
                   match spanDigits s' with
                   | ([], _) => None
                   | (fds, r) => Some (fds, r)
                   end
                 else Some ([], s2)
             | [] => Some ([], s2)
             end) in H.
  assert (H3 : ∀ fds s3, p3 = Some (fds, s3) →
                 ∃ cs, s2 = cs ++ s3 ∧ forallb plainUnit cs = true).
  { unfold p3. intros fds s3 Hp. destruct s2 as [| c s'].
    - simplify_eq. exists []. split; reflexivity.
    - destruct (N.eqb_spec c 46) as [-> | _].
      + destruct (spanDigits_shape s') as [Hs Hpl].
        destruct (spanDigits s') as [[| f fds'] r']; [discriminate |].
        simplify_eq. cbn [fst snd] in *. exists (46%N :: f :: fds').
        split; [reflexivity |]. cbn [forallb] in *. rewrite Hpl. reflexivity.
      + simplify_eq. exists []. split; reflexivity. }
  destruct p3 as [[fds s3] |]; [| discriminate].
  destruct (H3 _ _ eq_refl) as (cs3 & -> & Hcs3). clear H3.
  match type of H with
  | match ?p with _ => _ end = _ => set (p4 := p) in H
  end.
  assert (H4 : ∀ e s5, p4 = Some (e, s5) →
                 ∃ cs, s3 = cs ++ s5 ∧ forallb plainUnit cs = true).
  { unfold p4. intros e s5 Hp. destruct s3 as [| c s'].
    - simplify_eq. exists []. split; reflexivity.
    - destruct (N.eqb c 101 || N.eqb c 69) eqn:Hc.
      + match type of Hp with
        | (let '(_, _) := ?q in _) = _ => set (p5 := q) in Hp
        end.
        assert (H5 : ∃ cs, s' = cs ++ p5.2 ∧ forallb plainUnit cs = true).
        { unfold p5. destruct s' as [| d s'']; [exists []; split; reflexivity |].
          destruct (N.eqb_spec d 45) as [-> | _]; [exists [45%N]; split; reflexivity |].
          destruct (N.eqb_spec d 43) as [-> | _]; [exists [43%N] | exists []];
            split; reflexivity. }
        destruct p5 as [eneg s4]. cbn [snd] in H5. destruct H5 as (cs5 & -> & Hcs5).
        destruct (spanDigits_shape s4) as [Hs Hpl].
        destruct (spanDigits s4) as [[| f eds] r']; [discriminate |].
        simplify_eq. cbn [fst snd] in *. exists (c :: cs5 ++ f :: eds).
        split; [cbn [app]; rewrite <- app_assoc; reflexivity |].
        cbn [forallb]. rewrite forallb_app, Hcs5, Hpl, andb_true_r.
        apply orb_true_iff in Hc as [Hc | Hc]; apply N.eqb_eq in Hc as ->; reflexivity.
      + simplify_eq. exists []. split; reflexivity. }
  destruct p4 as [[e s5] |]; [| discriminate].
  destruct (H4 _ _ eq_refl) as (cs4 & -> & Hcs4). clear H4.
  simplify_eq. exists (cs1 ++ cs2 ++ cs3 ++ cs4).
  split; [rewrite <- !app_assoc; reflexivity |].
  rewrite !forallb_app, Hcs1, Hcs2, Hcs3, Hcs4. reflexivity.
Qed.

Lemma startsWith_split (p s : jsstring) :
  startsWith p s = true → s = p ++ drop (length p) s.
Proof. intros H. apply startsWith_spec in H as [r ->]. rewrite drop_app_length. reflexivity. Qed.

Lemma findFirst_split (p s : jsstring) :
  ∀ k, findFirst p s = Some k → s = take k s ++ p ++ drop (k + length p) s.
Proof.
  induction s as [| c s IH]; intros k H.
  - cbn [findFirst] in H. destruct (startsWith p []) eqn:Hp; [| discriminate].
    simplify_eq. apply startsWith_spec in Hp as [r Hr].
    cbn [take Nat.add app]. rewrite Hr, drop_app_length. reflexivity.
  - cbn [findFirst] in H. destruct (startsWith p (c :: s)) eqn:Hp.
    + simplify_eq. apply startsWith_spec in Hp as [r Hr].
      cbn [take Nat.add app]. rewrite Hr, drop_app_length. reflexivity.
    + destruct (findFirst p s) as [j |] eqn:Hj; [| discriminate].
      cbn [option_map] in H. simplify_eq.
      cbn [take Nat.add drop app]. f_equal. apply IH. reflexivity.
Qed.

Lemma includes_app (p a b : jsstring) : includes p (a ++ p ++ b) = true.
Proof.
  unfold includes. induction a as [| c a IH]; cbn [app].
  - destruct (p ++ b) as [| x l] eqn:Hpb.
    + destruct p; [reflexivity | discriminate].
    + cbn [findFirst]. rewrite <- Hpb, startsWith_app. reflexivity.
  - cbn [findFirst]. destruct (startsWith p (c :: a ++ p ++ b)); [reflexivity |].
    destruct (findFirst p (a ++ p ++ b)); [reflexivity | discriminate].
Qed.

Lemma includes_spec (p s : jsstring) :
  includes p s = true ↔ ∃ a b, s = a ++ p ++ b.
Proof.
  split.
  - unfold includes. destruct (findFirst p s) as [k |] eqn:Hk; [| discriminate].
    intros _. exists (take k s), (drop (k + length p) s). apply findFirst_split. exact Hk.
  - intros (a & b & ->). apply includes_app.
Qed.

Lemma includes_false (p s : jsstring) :
  includes p s = false ↔ ∀ a b, s ≠ a ++ p ++ b.
Proof.
  split.
  - intros H a b ->. rewrite includes_app in H. discriminate.
  - intros H. destruct (includes p s) eqn:Hi; [| reflexivity].
    apply includes_spec in Hi as (a & b & ->). exfalso. exact (H a b eq_refl).
Qed.

Lemma includes_longer (p q s : jsstring) :
  includes p s = false → includes (p ++ q) s = false.
Proof.
  intros H. apply includes_false. intros a b ->.
  rewrite <- (app_assoc p q b) in H. rewrite includes_app in H. discriminate.
Qed.

Lemma skipWs_split_eq (s r : jsstring) :
  skipWs s = r → ∃ ws, s = ws ++ r ∧ forallb plainUnit ws = true.
Proof. intros <-. apply skipWs_split. Qed.

Lemma parseElems_array (n : nat) :
  ∀ s acc v r, parseElems n s acc = Some (v, r) → ∃ l, v = JArr l.
Proof.
  induction n as [| n IH]; intros s acc v r H; [discriminate |].
  cbn [parseElems] in H.
  destruct (parseValue n s) as [[v' r'] |]; [| discriminate].
  destruct (skipWs r') as [| d r'']; [discriminate |].
  destruct (N.eqb d 44); [exact (IH _ _ _ _ H) |].
  destruct (N.eqb d rbracket); [| discriminate].
  injection H as <- _. eauto.
Qed.

Lemma parseNumber_number (s : jsstring) (v : jsval) (r : jsstring) :
  parseNumber s = Some (v, r) → ∃ neg mant e, v = JNum neg mant e.
Proof.
  unfold parseNumber. intros H.
  repeat match type of H with
         | (let '(_, _) := ?x in _) = _ => destruct x
         | match ?x with _ => _ end = _ => destruct x; try discriminate
         end.
  injection H as <- _. eauto.
Qed.

(** What the parser reads is made of well-formed items: the text of a
    value, of the elements of an array up to its closing bracket, and of
    the members of an object up to its closing brace.  The text of an
    object that starts with its brace is one object item. *)
Lemma parse_shape (n : nat) :
  (∀ s v r, parseValue n s = Some (v, r) →
     ∃ items, forallb wfItem items = true ∧ s = flat_map render items ++ r
              ∧ ∀ members, v = JObj members → skipWs s = s →
                  ∃ body, items = [IObject body])
  ∧ (∀ s acc v r, parseElems n s acc = Some (v, r) →
       ∃ items, forallb wfItem items = true ∧ s = flat_map render items ++ r)
  ∧ (∀ s acc v r, parseMembers n s acc = Some (v, r) →
       ∃ items, forallb wfItem items = true ∧ s = flat_map render items ++ rbrace :: r).
Proof.
  induction n as [| n (IHv & IHe & IHm)]; [repeat split; intros; discriminate |].
  repeat split.
  - intros s v r H. cbn [parseValue] in H.
    destruct (skipWs s) as [| c s'] eqn:Hskip; [discriminate |].
    destruct (skipWs_split_eq _ _ Hskip) as (ws & Hs & Hws).
    destruct (plain_items ws Hws) as [Hwsf Hwsr].
    assert (Hwrap : ∀ items,
              forallb wfItem items = true → c :: s' = flat_map render items ++ r →
              (∀ members, v = JObj members → ∃ body, items = [IObject body]) →
              ∃ items', forallb wfItem items' = true ∧ s = flat_map render items' ++ r
                        ∧ ∀ members, v = JObj members → c :: s' = s →
                            ∃ body, items' = [IObject body]).
    { intros items Hwf Heq Hobj. exists (map IPlain ws ++ items).
      split; [rewrite forallb_app, Hwsf, Hwf; reflexivity |].
      split; [rewrite flat_map_app, Hwsr, <- app_assoc, <- Heq; exact Hs |].
      intros members Hv Hfix.
      assert (ws = []) as ->.
      { destruct ws as [| w ws']; [reflexivity |].
        rewrite <- Hfix in Hs.
        apply (f_equal length) in Hs. rewrite length_app in Hs. cbn in Hs. lia. }
      exact (Hobj _ Hv). }
    clear Hs Hskip.
    destruct (N.eqb_spec c lbrace) as [-> | Hlb].
    { destruct (skipWs s') as [| d r'] eqn:Hskip'; [discriminate |].
      destruct (skipWs_split_eq _ _ Hskip') as (ws' & Hs' & Hws').
      destruct (plain_items ws' Hws') as [Hwsf' Hwsr'].
      destruct (N.eqb_spec d rbrace) as [-> | Hrb].
      - injection H as <- <-. apply (Hwrap [IObject (map IPlain ws')]).
        + cbn. rewrite Hwsf'. reflexivity.
        + cbn [flat_map render app]. rewrite Hwsr', app_nil_r, <- app_assoc.
          cbn [app]. rewrite <- Hs'. reflexivity.
        + intros; eauto.
      - apply IHm in H as (items & Hwf & Heq).
        apply (Hwrap [IObject (map IPlain ws' ++ items)]).
        + cbn. rewrite forallb_app, Hwsf', Hwf. reflexivity.
        + cbn [flat_map render app]. rewrite flat_map_app, Hwsr', app_nil_r.
          rewrite <- !app_assoc. cbn [app]. rewrite <- Heq, <- Hs'. reflexivity.
        + intros; eauto. }
    destruct (N.eqb_spec c 91) as [-> | Hlk].
    { destruct (skipWs s') as [| d r'] eqn:Hskip'; [discriminate |].
      destruct (skipWs_split_eq _ _ Hskip') as (ws' & Hs' & Hws').
      destruct (plain_items ws' Hws') as [Hwsf' Hwsr'].
      destruct (N.eqb_spec d rbracket) as [-> | Hrb].
      - injection H as <- <-.
        apply (Hwrap (IPlain 91 :: map IPlain ws' ++ [IPlain rbracket])).
        + cbn. rewrite forallb_app, Hwsf'. reflexivity.
        + cbn [flat_map render app]. rewrite flat_map_app, Hwsr'. cbn.
          rewrite <- app_assoc. cbn [app]. rewrite <- Hs'. reflexivity.
        + intros; discriminate.
      - destruct (parseElems_array _ _ _ _ _ H) as [l ->].
        apply IHe in H as (items & Hwf & Heq).
        apply (Hwrap (IPlain 91 :: map IPlain ws' ++ items)).
        + cbn. rewrite forallb_app, Hwsf', Hwf. reflexivity.
        + cbn [flat_map render app]. rewrite flat_map_app, Hwsr'.
          rewrite <- app_assoc, <- Heq, <- Hs'. reflexivity.
        + intros; discriminate. }
    destruct (N.eqb_spec c dquote) as [-> | Hdq].
    { destruct (parseStringBody s' []) as [[t r'] |] eqn:Hb; [| discriminate].
      apply (parseStringBody_shape (length s')) in Hb as (body & Hwf & Hs'); [| lia].
      injection H as <- <-. apply (Hwrap [IString body]).
      - cbn. rewrite Hwf. reflexivity.
      - cbn [flat_map render app]. rewrite app_nil_r, <- app_assoc, Hs'. reflexivity.
      - intros; discriminate. }
    destruct (N.eqb c 45 || isDigit c).
    { destruct (parseNumber_number _ _ _ H) as (neg & mant & e & ->).
      apply parseNumber_shape in H as (cs & Heq & Hcs).
      destruct (plain_items cs Hcs) as [Hwf Hr].
      apply (Hwrap (map IPlain cs)); [exact Hwf | rewrite Hr; exact Heq |].
      intros; discriminate. }
    assert (Hlit : ∀ p w, startsWith p (c :: s') = true → forallb plainUnit p = true →
              (∀ members, w ≠ JObj members) →
              Some (w, drop (length p) (c :: s')) = Some (v, r) →
              ∃ items', forallb wfItem items' = true ∧ s = flat_map render items' ++ r
                        ∧ ∀ members, v = JObj members → c :: s' = s →
                            ∃ body, items' = [IObject body]).
    { intros p w Hp Hpl Hw Heq. injection Heq as <- <-.
      destruct (plain_items p Hpl) as [Hwf Hr].
      apply (Hwrap (map IPlain p)); [exact Hwf | rewrite Hr; apply startsWith_split, Hp |].
      intros members Hv. destruct (Hw _ Hv). }
    destruct (startsWith (lit "true") (c :: s')) eqn:Ht;
      [apply (Hlit (lit "true") (JBool true)); auto; discriminate |].
    destruct (startsWith (lit "false") (c :: s')) eqn:Hf;
      [apply (Hlit (lit "false") (JBool false)); auto; discriminate |].
    destruct (startsWith (lit "null") (c :: s')) eqn:Hn;
      [apply (Hlit (lit "null") JNull); auto; discriminate |].
    discriminate.
  - intros s acc v r H. cbn [parseElems] in H.
    destruct (parseValue n s) as [[v' r'] |] eqn:Hv; [| discriminate].
    apply IHv in Hv as (items & Hwf & Hs & _).
    destruct (skipWs r') as [| d r''] eqn:Hskip; [discriminate |].
    destruct (skipWs_split_eq _ _ Hskip) as (ws & Hr' & Hws).
    destruct (plain_items ws Hws) as [Hwsf Hwsr].
    destruct (N.eqb_spec d 44) as [-> | Hc].
    + apply IHe in H as (items' & Hwf' & Hr'').
      exists (items ++ map IPlain ws ++ IPlain 44 :: items').
      split; [rewrite !forallb_app; cbn; rewrite Hwf, Hwsf, Hwf'; reflexivity |].
      rewrite !flat_map_app, Hwsr. cbn [flat_map render app].
      rewrite <- !app_assoc. cbn [app]. rewrite <- Hr'', <- Hr'. exact Hs.
    + destruct (N.eqb_spec d rbracket) as [-> | _]; [| discriminate].
      injection H as _ <-.
      exists (items ++ map IPlain ws ++ [IPlain rbracket]).
      split; [rewrite !forallb_app; cbn; rewrite Hwf, Hwsf; reflexivity |].
      rewrite !flat_map_app, Hwsr. cbn [flat_map render app].
      rewrite <- !app_assoc. cbn [app]. rewrite <- Hr'. exact Hs.
  - intros s acc v r H. cbn [parseMembers] in H.
    destruct (skipWs s) as [| q s'] eqn:Hskip; [discriminate |].
    destruct (skipWs_split_eq _ _ Hskip) as (ws & Hs & Hws).
    destruct (plain_items ws Hws) as [Hwsf Hwsr].
    destruct (N.eqb_spec q dquote) as [-> | _]; [| discriminate].
    destruct (parseStringBody s' []) as [[k r1] |] eqn:Hb; [| discriminate].
    apply (parseStringBody_shape (length s')) in Hb as (body & Hbwf & Hs'); [| lia].
    destruct (skipWs r1) as [| c r2] eqn:Hskip1; [discriminate |].
    destruct (skipWs_split_eq _ _ Hskip1) as (ws1 & Hr1 & Hws1).
    destruct (plain_items ws1 Hws1) as [Hwsf1 Hwsr1].
    destruct (N.eqb_spec c 58) as [-> | _]; [| discriminate].
    destruct (parseValue n r2) as [[v' r3] |] eqn:Hv; [| discriminate].
    apply IHv in Hv as (items & Hwf & Hr2 & _).
    destruct (skipWs r3) as [| d r4] eqn:Hskip3; [discriminate |].
    destruct (skipWs_split_eq _ _ Hskip3) as (ws3 & Hr3 & Hws3).
    destruct (plain_items ws3 Hws3) as [Hwsf3 Hwsr3].
    set (pre := map IPlain ws ++ IString body :: map IPlain ws1
                ++ IPlain 58 :: items ++ map IPlain ws3).
    assert (Hpre : s = flat_map render pre ++ d :: r4).
    { unfold pre. rewrite flat_map_app. cbn [flat_map]. rewrite flat_map_app.
      cbn [flat_map]. rewrite flat_map_app, Hwsr, Hwsr1, Hwsr3. cbn [render].
      rewrite Hs, Hs', Hr1, Hr2, Hr3. rewrite <- !app_assoc. cbn [app].
      rewrite <- !app_assoc. reflexivity. }
    assert (Hprewf : forallb wfItem pre = true).
    { unfold pre. rewrite forallb_app. cbn [forallb]. rewrite forallb_app. cbn [forallb].
      rewrite forallb_app, Hwsf, Hwsf1, Hwf, Hwsf3. cbn [wfItem]. rewrite Hbwf. reflexivity. }
    destruct (N.eqb_spec d 44) as [-> | Hc].
    + apply IHm in H as (items' & Hwf' & Hr4).
      exists (pre ++ IPlain 44 :: items').
      split; [rewrite forallb_app; cbn; rewrite Hprewf, Hwf'; reflexivity |].
      rewrite Hpre, flat_map_app. cbn [flat_map render app].
      rewrite <- !app_assoc. cbn [app]. rewrite <- Hr4. reflexivity.
    + destruct (N.eqb_spec d rbrace) as [-> | _]; [| discriminate].
      injection H as _ <-. exists pre. split; [exact Hprewf | exact Hpre].
Qed.

(** The text of an object that [JSON.parse] accepts, when it starts with
    its brace, has the lexical shape of an object. *)
Lemma parsed_object_shape (n : nat) (json post : jsstring) (members : list (jsstring * jsval)) :
  parseValue n (json ++ post) = Some (JObj members, post) →
  head json = Some lbrace →
  ∃ body, forallb wfItem body = true ∧ json = render (IObject body).
Proof.
  intros H Hhead. destruct (parse_shape n) as (Hv & _ & _).
  apply Hv in H as (items & Hwf & Heq & Hobj).
  destruct json as [| c json']; [discriminate |]. injection Hhead as ->.
  destruct (Hobj members eq_refl) as [body ->]; [reflexivity |].
  exists body. cbn [forallb] in Hwf. rewrite andb_true_r in Hwf.
  split; [exact Hwf |]. cbn [flat_map] in Heq. rewrite app_nil_r in Heq.
  apply app_inv_tail in Heq. exact Heq.
Qed.

Lemma skipWs_nil (r : jsstring) : skipWs r = [] → forallb isJsonWs r = true.
Proof.
  induction r as [| c r IH]; [reflexivity |]. cbn [skipWs forallb].
  destruct (isJsonWs c); [exact IH | discriminate].
Qed.

(** A text that [JSON.parse] decodes to an object and that starts and
    ends with the braces of that object has the lexical shape of an
    object. *)
Lemma JSON_object_shape (json : jsstring) (members : list (jsstring * jsval)) :
  JSON_parse json = Some (JObj members) →
  head json = Some lbrace → last json = Some rbrace →
  ∃ body, forallb wfItem body = true ∧ json = render (IObject body).
Proof.
  unfold JSON_parse. intros H Hhead Hlast.
  destruct (parseValue (2 * length json + 2) json) as [[v r] |] eqn:Hv; [| discriminate].
  destruct (skipWs r) eqn:Hr; [| discriminate]. injection H as ->.
  apply skipWs_nil in Hr.
  assert (r = []) as ->.
  { destruct (decide (r = [])) as [| Hne]; [assumption | exfalso].
    destruct (exists_last Hne) as (l' & a & ->).
    destruct (parse_shape (2 * length json + 2)) as (Hshape & _ & _).
    apply Hshape in Hv as (items & _ & Heq & _).
    rewrite Heq, app_assoc, last_snoc in Hlast. injection Hlast as ->.
    rewrite forallb_app in Hr. cbn in Hr. rewrite andb_false_r in Hr. discriminate. }
  apply (parsed_object_shape (2 * length json + 2) json [] members); [| exact Hhead].
  rewrite app_nil_r. exact Hv.
Qed.

Lemma legacyBody_object (pre post : jsstring) (body : list item) :
  forallb wfItem body = true →
  let obj := render (IObject body) in
  let text := pre ++ marker ++ obj ++ post in
  let jsonStart := length pre + length marker in
  let jsonEnd := jsonStart + length obj in
  findJsonEnd text jsonStart = Some jsonEnd
  ∧ substring text jsonStart jsonEnd = obj
  ∧ legacyBody text (length pre)
    = if startsWith (lit "]") post
      then (jsonEnd + 1,
            match JSON_parse (normalizeLegacy obj) with
            | Some data =>
                tagOfData data (marker ++ obj ++ lit "]") (length pre) false JUndefined
            | None => None
            end)
      else (jsonEnd, None).
Proof.
  intros Hwf obj text jsonStart jsonEnd.
  assert (Hdrop : drop jsonStart text = obj ++ post).
  { unfold jsonStart, text. rewrite app_assoc, <- length_app, drop_app_length.
    reflexivity. }
  assert (Hend : findJsonEnd text jsonStart = Some jsonEnd).
  { unfold findJsonEnd. rewrite Hdrop. apply scanLoop_object. exact Hwf. }
  assert (Hsub : substring text jsonStart jsonEnd = obj).
  { unfold text, jsonEnd, jsonStart. rewrite (app_assoc pre marker), <- length_app.
    apply substring_middle. }
  split; [exact Hend | split; [exact Hsub |]].
  unfold legacyBody. fold jsonStart. rewrite Hend, Hsub.
  assert (Hafter : substringFrom text jsonEnd = post).
  { unfold substringFrom, jsonEnd. rewrite <- drop_drop, Hdrop.
    apply drop_app_length. }
  rewrite Hafter.
  destruct (startsWith (lit "]") post) eqn:Hclose; cbn [negb]; [| reflexivity].
  apply startsWith_spec in Hclose as [post' ->].
  f_equal. f_equal.
  unfold text, jsonEnd, jsonStart.
  replace (length pre + length marker + length obj + 1)
    with (length pre + length (marker ++ obj ++ lit "]"))
    by (rewrite !length_app; simpl; lia).
  replace (pre ++ marker ++ obj ++ lit "]" ++ post')
    with (pre ++ (marker ++ obj ++ lit "]") ++ post')
    by (rewrite <- !app_assoc; reflexivity).
  rewrite substring_middle. reflexivity.
Qed.

(** C2.  The scan of the legacy grammar takes a JSON object whole, however
    its string literals hold braces, brackets, quotes behind a backslash
    or backslashes: this holds for every text of the lexical shape of an
    object, and so for every object text that [JSON.parse] accepts.  The
    scan ends only on a closing brace read outside a string and not
    behind a backslash, at depth one; and a tag is pushed only when the
    closing bracket follows the object at once. *)
Theorem legacy_scan_extracts_whole_object :
  (∀ (pre post : jsstring) (body : list item),
     forallb wfItem body = true →
     let obj := render (IObject body) in
     let text := pre ++ marker ++ obj ++ post in
     let jsonStart := length pre + length marker in
     let jsonEnd := jsonStart + length obj in
     findJsonEnd text jsonStart = Some jsonEnd
     ∧ substring text jsonStart jsonEnd = obj
     ∧ legacyBody text (length pre)
       = if startsWith (lit "]") post
         then (jsonEnd + 1,
               match JSON_parse (normalizeLegacy obj) with
               | Some data =>
                   tagOfData data (marker ++ obj ++ lit "]") (length pre) false JUndefined
               | None => None
               end)
         else (jsonEnd, None))
  ∧ (∀ (pre post json : jsstring) (members : list (jsstring * jsval)),
       JSON_parse json = Some (JObj members) →
       head json = Some lbrace → last json = Some rbrace →
       let text := pre ++ marker ++ json ++ post in
       let jsonStart := length pre + length marker in
       findJsonEnd text jsonStart = Some (jsonStart + length json)
       ∧ substring text jsonStart (jsonStart + length json) = json)
  ∧ (∀ (text : jsstring) (jsonStart jsonEnd : nat),
       findJsonEnd text jsonStart = Some jsonEnd →
       ∃ k, jsonEnd = jsonStart + k + 1
            ∧ text !! (jsonStart + k) = Some rbrace
            ∧ let st := scanStateAfter scanInit (substring text jsonStart (jsonStart + k)) in
              escapeNext st = false ∧ inString st = false ∧ braceCount st = 1%Z)
  ∧ (∀ (text : jsstring) (markerIndex next : nat) (t : tag),
       legacyBody text markerIndex = (next, Some t) →
       ∃ jsonEnd, findJsonEnd text (markerIndex + length marker) = Some jsonEnd
                  ∧ text !! jsonEnd = Some rbracket
                  ∧ next = jsonEnd + 1
                  ∧ fullMatch t = substring text markerIndex (jsonEnd + 1)).
Proof.
  split; [| split; [| split]].
  - exact legacyBody_object.
  - intros pre post json members Hjson Hhead Hlast text jsonStart.
    destruct (JSON_object_shape json members Hjson Hhead Hlast) as (body & Hwf & Hshape).
    destruct (legacyBody_object pre post body Hwf) as (Hend & Hsub & _).
    unfold text, jsonStart. rewrite Hshape. split; assumption.
  - intros text jsonStart jsonEnd H. unfold findJsonEnd in H.
    apply scanLoop_sound in H as (k & -> & Hk & He & Hs & Hd).
    exists k. rewrite lookup_drop in Hk.
    rewrite substring_spec by lia.
    replace (jsonStart + k - jsonStart) with k by lia.
    repeat split; assumption.
  - intros text markerIndex next t H. unfold legacyBody in H.
    destruct (findJsonEnd text (markerIndex + length marker)) as [jsonEnd |] eqn:Hend;
      [| discriminate].
    destruct (startsWith (lit "]") (substringFrom text jsonEnd)) eqn:Hclose;
      cbn [negb] in H; [| discriminate].
    injection H as <- Htag. exists jsonEnd.
    split; [reflexivity | split; [| split; [reflexivity |]]].
    + apply startsWith_spec in Hclose as [r Hr]. unfold substringFrom in Hr.
      assert (Hl : drop jsonEnd text !! 0 = Some rbracket) by (rewrite Hr; reflexivity).
      rewrite lookup_drop in Hl. rewrite Nat.add_0_r in Hl. exact Hl.
    + destruct (JSON_parse _) as [data |]; [| discriminate].
      unfold tagOfData in Htag.
      repeat match type of Htag with
             | match ?x with _ => _ end = _ => destruct x; try discriminate
             end.
      injection Htag as <-. reflexivity.
Qed.

Lemma legacy_scan_strange_brackets :
  let body := [plainString "prompt"; IPlain 58; plainString "a} strange [bracket] test"] in
  let text := lit "Look: [IMG:GEN:{`prompt`:`a} strange [bracket] test`}] done" in
  forallb wfItem body = true
  ∧ findJsonEnd text 15 = Some 53
  ∧ substring text 15 53 = lit "{`prompt`:`a} strange [bracket] test`}"
  ∧ map prompt (parseImageTags text noOptions (fun _ => true))
    = [JStr (lit "a} strange [bracket] test")].
Proof.
  intros body text.
  pose proof (proj1 legacy_scan_extracts_whole_object (lit "Look: ") (lit "] done") body) as H.
  split; [reflexivity |].
  destruct (H eq_refl) as (Hend & Hsub & _).
  split; [exact Hend | split; [exact Hsub | vm_compute; reflexivity]].
Defined.

(** Only double quotes delimit strings for the scan: a brace inside a
    value written with apostrophes closes the object early, and the tag
    is lost. *)
Lemma legacy_scan_apostrophes :
  let text := lit "[IMG:GEN:{'prompt':'a} strange test'}]" in
  findJsonEnd text 9 = Some 22
  ∧ substring text 9 22 = lit "{'prompt':'a}"
  ∧ parseImageTags text noOptions (fun _ => true) = [].
Proof. vm_compute. repeat split. Qed.

(** ** The parser and the tag occurrences *)

Section SweepFacts.
Context {A : Type} (f : nat → jsstring → option (nat * A)).
Hypothesis f_nil : ∀ i, f i [] = None.
Hypothesis f_adv : ∀ i s adv a, f i s = Some (adv, a) → 1 ≤ adv.

Lemma sweepFrom_skip (n : nat) :
  ∀ i s, sweepFrom f n i s = sweepFrom f 0 (i + n) (drop n s).
Proof using Type.
  induction n as [| n IH]; intros i s.
  - rewrite Nat.add_0_r, drop_0. reflexivity.
  - destruct s as [| c s]; [reflexivity |].
    cbn [sweepFrom drop]. rewrite IH. f_equal. lia.
Qed.

Lemma firstFrom_None (s : jsstring) :
  ∀ i, firstFrom f i s = None → sweepFrom f 0 i s = [].
Proof using Type.
  induction s as [| c s IH]; intros i H; [reflexivity |].
  cbn [firstFrom sweepFrom] in *.
  destruct (f i (c :: s)) as [[adv a] |]; [discriminate |].
  apply IH. exact H.
Qed.

Lemma firstFrom_Some (s : jsstring) :
  ∀ i k adv a, firstFrom f i s = Some (k, (adv, a)) →
    ∃ j, k = i + j ∧ f k (drop j s) = Some (adv, a)
         ∧ sweepFrom f 0 i s = a :: sweepFrom f 0 (k + adv) (drop (j + adv) s).
Proof using f_nil f_adv.
  induction s as [| c s IH]; intros i k adv a H.
  - cbn [firstFrom] in H. rewrite f_nil in H. discriminate.
  - cbn [firstFrom] in H. destruct (f i (c :: s)) as [[adv' a'] |] eqn:Hf.
    + injection H as <- <- <-. exists 0. rewrite Nat.add_0_r, drop_0.
      split; [reflexivity | split; [exact Hf |]].
      cbn [sweepFrom]. rewrite Hf. f_equal.
      pose proof (f_adv _ _ _ _ Hf) as Hadv.
      rewrite sweepFrom_skip. destruct adv' as [| n]; [lia |].
      replace (S n - 1) with n by lia. cbn [drop Nat.add]. f_equal. lia.
    + apply IH in H as (j & -> & Hk & Hsw). exists (S j).
      split; [lia | split].
      * cbn [drop]. replace (i + S j) with (S i + j) by lia. exact Hk.
      * cbn [sweepFrom]. rewrite Hf, Hsw. reflexivity.
Qed.

Context (pos : A → nat).
Hypothesis f_pos : ∀ i s adv a, f i s = Some (adv, a) → pos a = i.

Lemma sweepFrom_sorted (s : jsstring) :
  ∀ n i, Forall (fun a => i + n ≤ pos a) (sweepFrom f n i s)
         ∧ StronglySorted lt (map pos (sweepFrom f n i s)).
Proof using f_pos.
  induction s as [| c s IH]; intros n i; [split; constructor |].
  cbn [sweepFrom]. destruct n as [| n].
  - destruct (f i (c :: s)) as [[adv a] |] eqn:Hf.
    + destruct (IH (adv - 1) (S i)) as [Hge Hs].
      apply f_pos in Hf. split.
      * constructor; [lia |]. eapply Forall_impl; [exact Hge |]. simpl. lia.
      * cbn [map]. constructor; [exact Hs |].
        apply Forall_map. eapply Forall_impl; [exact Hge |]. simpl. lia.
    + destruct (IH 0 (S i)) as [Hge Hs]. split; [| exact Hs].
      eapply Forall_impl; [exact Hge |]. simpl. lia.
  - destruct (IH n (S i)) as [Hge Hs]. split; [| exact Hs].
    eapply Forall_impl; [exact Hge |]. simpl. lia.
Qed.

End SweepFacts.

Lemma increasing_cons (a : nat) (l : list nat) :
  Forall (lt a) l → increasing l = true → increasing (a :: l) = true.
Proof.
  destruct l as [| b l]; [reflexivity |]. intros Hall Hl.
  change (increasing (a :: b :: l)) with ((a <? b) && increasing (b :: l)).
  rewrite Hl, andb_true_r. apply Nat.ltb_lt.
  apply Forall_cons in Hall as [Hab _]. exact Hab.
Qed.

Lemma increasing_sorted (l : list nat) : StronglySorted lt l → increasing l = true.
Proof.
  induction 1 as [| a l Hs IH Hall]; [reflexivity |].
  apply increasing_cons; assumption.
Qed.

Lemma omap_sorted {A B : Type} (g : A → option B) (pa : A → nat) (pb : B → nat)
    (l : list A) :
  (∀ a b, a ∈ l → g a = Some b → pb b = pa a) →
  StronglySorted lt (map pa l) → StronglySorted lt (map pb (omap g l)).
Proof.
  induction l as [| a l IH]; intros Hg Hs; [constructor |].
  cbn [map] in Hs. apply StronglySorted_inv in Hs as [Hs Hall].
  assert (Hg' : ∀ a b, a ∈ l → g a = Some b → pb b = pa a).
  { intros a' b' Hin. apply Hg. right. exact Hin. }
  cbn [omap list_omap]. destruct (g a) as [b |] eqn:Hga; [| exact (IH Hg' Hs)].
  cbn [map]. constructor; [exact (IH Hg' Hs) |].
  rewrite (Hg a b) by (left || assumption). rewrite List.Forall_forall in Hall |- *.
  intros x Hx. apply in_map_iff in Hx as (b' & <- & Hb').
  apply list_elem_of_In, list_elem_of_omap in Hb' as (a' & Ha' & Hga').
  rewrite (Hg' _ _ Ha' Hga'). apply Hall, in_map, list_elem_of_In. exact Ha'.
Qed.

Lemma matchHere_lit_len ic c pat s g1 g2 m :
  matchHere ic (ALit c :: pat) s g1 g2 = Some m → 1 ≤ m_len m.
Proof.
  destruct s as [| x s]; [discriminate |]. cbn [matchHere].
  destruct (unitEq ic c x); [| discriminate].
  destruct (matchHere ic pat s g1 g2) as [r |]; [| discriminate].
  cbn [bump]. intros [= <-]. cbn [m_len]. lia.
Qed.

Lemma imgTagRegex_head : imgTagRegex = ALit 60 :: tail imgTagRegex.
Proof. reflexivity. Qed.

Lemma imgCandidate_nil i : imgCandidate i [] = None.
Proof. reflexivity. Qed.

Lemma imgCandidate_adv i s adv a : imgCandidate i s = Some (adv, a) → 1 ≤ adv.
Proof.
  unfold imgCandidate. rewrite imgTagRegex_head.
  destruct (matchHere _ _ s None None) as [m |] eqn:Hm; [| discriminate].
  intros [= <- _]. eapply matchHere_lit_len. exact Hm.
Qed.

Lemma imgCandidate_pos i s adv a : imgCandidate i s = Some (adv, a) → a.1 = i.
Proof.
  unfold imgCandidate. destruct (matchHere _ _ s None None); [| discriminate].
  intros [= _ <-]. reflexivity.
Qed.

Lemma firstFrom_imgCandidate (s : jsstring) :
  ∀ i, firstFrom imgCandidate i s
       = match searchFrom true imgTagRegex s i with
         | Some (k, m) => Some (k, (m_len m, (k, m)))
         | None => None
         end.
Proof.
  induction s as [| c s IH]; intros i.
  - reflexivity.
  - cbn [firstFrom searchFrom]. unfold imgCandidate at 1.
    destruct (matchHere true imgTagRegex (c :: s) None None) as [m |]; [reflexivity |].
    apply IH.
Qed.

Lemma pushTag_omap {A : Type} (g : A → option tag) (tags : list tag) (a : A) (l : list A) :
  pushTag tags (g a) ++ omap g l = tags ++ omap g (a :: l).
Proof.
  cbn [omap list_omap]. destruct (g a) as [t |]; cbn [pushTag].
  - rewrite <- app_assoc. reflexivity.
  - reflexivity.
Qed.

Lemma newFormatLoop_sweep (opts : parseOptions) (probe : jsstring → bool) (text : jsstring)
    (fuel : nat) :
  ∀ lastIndex tags, length text < fuel + lastIndex →
    newFormatLoop fuel opts probe text lastIndex tags
    = tags ++ omap (fun km => newFormatBody opts probe text km.1 km.2)
                (sweepFrom imgCandidate 0 lastIndex (drop lastIndex text)).
Proof.
  induction fuel as [| fuel IH]; intros lastIndex tags Hfuel.
  - rewrite drop_ge by lia. cbn. rewrite app_nil_r. reflexivity.
  - cbn [newFormatLoop]. unfold regexExec.
    destruct (Nat.leb_spec lastIndex (length text)) as [Hle | Hgt].
    + pose proof (firstFrom_imgCandidate (drop lastIndex text) lastIndex) as Hfirst.
      destruct (searchFrom true imgTagRegex (drop lastIndex text) lastIndex)
        as [[k m] |] eqn:Hsearch.
      * apply (firstFrom_Some _ imgCandidate_nil imgCandidate_adv) in Hfirst
          as (j & -> & Hk & Hsw).
        rewrite Hsw, drop_drop.
        pose proof (imgCandidate_adv _ _ _ _ Hk) as Hadv.
        rewrite IH by lia.
        replace (lastIndex + (j + m_len m)) with (lastIndex + j + m_len m) by lia.
        apply (pushTag_omap (fun km => newFormatBody opts probe text km.1 km.2) tags
                 (lastIndex + j, m)).
      * apply firstFrom_None in Hfirst. rewrite Hfirst. cbn. rewrite app_nil_r. reflexivity.
    + rewrite drop_ge by lia. cbn. rewrite app_nil_r. reflexivity.
Qed.

Lemma legacyBody_next (text : jsstring) (i : nat) :
  i < (legacyBody text i).1.
Proof.
  unfold legacyBody.
  destruct (findJsonEnd text (i + length marker)) as [jsonEnd |] eqn:Hend.
  - unfold findJsonEnd in Hend. apply scanLoop_sound in Hend as (k & -> & _).
    destruct (negb _); cbn [fst]; lia.
  - cbn [fst]. change (length marker) with 9. lia.
Qed.

Lemma legacyCandidate_nil text i : legacyCandidate text i [] = None.
Proof. reflexivity. Qed.

Lemma legacyCandidate_adv text i s adv a :
  legacyCandidate text i s = Some (adv, a) → 1 ≤ adv.
Proof.
  unfold legacyCandidate. destruct (startsWith marker s); [| discriminate].
  pose proof (legacyBody_next text i) as Hnext.
  destruct (legacyBody text i) as [next pushed]. cbn [fst] in Hnext.
  intros [= <- _]. lia.
Qed.

Lemma legacyCandidate_pos text i s adv a :
  legacyCandidate text i s = Some (adv, a) → a.1 = i.
Proof.
  unfold legacyCandidate. destruct (startsWith marker s); [| discriminate].
  destruct (legacyBody text i) as [next pushed]. intros [= _ <-]. reflexivity.
Qed.

Lemma firstFrom_legacyCandidate (text s : jsstring) :
  ∀ i, firstFrom (legacyCandidate text) i s
       = match findFirst marker s with
         | Some j =>
             Some (i + j, ((legacyBody text (i + j)).1 - (i + j),
                           (i + j, (legacyBody text (i + j)).2)))
         | None => None
         end.
Proof.
  induction s as [| c s IH]; intros i.
  - reflexivity.
  - cbn [firstFrom findFirst]. unfold legacyCandidate at 1.
    destruct (startsWith marker (c :: s)).
    + rewrite Nat.add_0_r. destruct (legacyBody text i). reflexivity.
    + rewrite IH. destruct (findFirst marker s) as [j |]; cbn [option_map]; [| reflexivity].
      replace (S i + j) with (i + S j) by lia. reflexivity.
Qed.

Lemma legacyLoop_sweep (text : jsstring) (fuel : nat) :
  ∀ searchStart tags, length text < fuel + searchStart →
    legacyLoop fuel text searchStart tags
    = tags ++ omap snd (sweepFrom (legacyCandidate text) 0 searchStart (drop searchStart text)).
Proof.
  induction fuel as [| fuel IH]; intros searchStart tags Hfuel.
  - rewrite drop_ge by lia. cbn. rewrite app_nil_r. reflexivity.
  - cbn [legacyLoop]. unfold indexOf.
    pose proof (firstFrom_legacyCandidate text (drop searchStart text) searchStart) as Hfirst.
    destruct (findFirst marker (drop searchStart text)) as [j |] eqn:Hfind; cbn [option_map].
    + apply (firstFrom_Some _ (legacyCandidate_nil text) (legacyCandidate_adv text)) in Hfirst
        as (j' & Hj & Hk & Hsw).
      assert (j' = j) as -> by lia.
      rewrite Hsw, drop_drop.
      pose proof (legacyBody_next text (searchStart + j)) as Hnext.
      destruct (legacyBody text (searchStart + j)) as [next pushed]. cbn [fst snd] in *.
      rewrite IH by lia.
      replace (searchStart + j + (next - (searchStart + j))) with next by lia.
      replace (searchStart + (j + (next - (searchStart + j)))) with next by lia.
      apply (pushTag_omap snd tags (searchStart + j, pushed)).
    + apply firstFrom_None in Hfirst. rewrite Hfirst. cbn. rewrite app_nil_r. reflexivity.
Qed.

(** The two loops return the instructions of the text: the fuel they are
    given is never used up. *)
Lemma parseImageTags_instructionsOf (text : jsstring) (opts : parseOptions)
    (probe : jsstring → bool) :
  parseImageTags text opts probe = instructionsOf text opts probe.
Proof.
  unfold parseImageTags, instructionsOf, newInstructions, legacyInstructions,
    imgMatches, legacyTurns.
  rewrite newFormatLoop_sweep by lia. rewrite legacyLoop_sweep by lia.
  rewrite drop_0. reflexivity.
Qed.

Lemma sweepFrom_elem {A : Type} (f : nat → jsstring → option (nat * A)) (s : jsstring) :
  ∀ n i a, a ∈ sweepFrom f n i s → ∃ j adv, f (i + j) (drop j s) = Some (adv, a).
Proof.
  induction s as [| c s IH]; intros n i a Ha; [inversion Ha |].
  cbn [sweepFrom] in Ha.
  assert (Hrest : ∀ n', a ∈ sweepFrom f n' (S i) s →
                        ∃ j adv, f (i + j) (drop j (c :: s)) = Some (adv, a)).
  { intros n' Hin. apply IH in Hin as (j & adv & Hf). exists (S j), adv.
    cbn [drop]. replace (i + S j) with (S i + j) by lia. exact Hf. }
  destruct n as [| n]; [| exact (Hrest _ Ha)].
  destruct (f i (c :: s)) as [[adv a'] |] eqn:Hf; [| exact (Hrest _ Ha)].
  apply elem_of_cons in Ha as [-> | Ha]; [| exact (Hrest _ Ha)].
  exists 0, adv. rewrite Nat.add_0_r, drop_0. exact Hf.
Qed.

Lemma tagOfData_Some data full idx new src t :
  tagOfData data full idx new src = Some t →
  fullMatch t = full ∧ index t = idx ∧ isNewFormat t = new ∧ existingSrc t = src.
Proof.
  unfold tagOfData. intros H.
  repeat match type of H with
         | match ?x with _ => _ end = _ => destruct x; try discriminate
         end.
  injection H as <-. repeat split.
Qed.

Lemma newFormatBody_Some opts probe text k m t :
  newFormatBody opts probe text k m = Some t →
  fullMatch t = take (m_len m) (drop k text) ∧ index t = k ∧ isNewFormat t = true.
Proof.
  unfold newFormatBody. destruct (needsGeneration _ _ _); [| discriminate].
  destruct (JSON_parse _) as [data |]; [| discriminate].
  intros H. apply tagOfData_Some in H as (? & ? & ? & ?). auto.
Qed.

Lemma legacyBody_Some text i t :
  (legacyBody text i).2 = Some t →
  fullMatch t = substring text i ((legacyBody text i).1) ∧ index t = i ∧ isNewFormat t = false.
Proof.
  unfold legacyBody. destruct (findJsonEnd _ _) as [jsonEnd |]; [| discriminate].
  destruct (negb _); [discriminate |]. cbn [fst snd].
  destruct (JSON_parse _) as [data |]; [| discriminate].
  intros H. apply tagOfData_Some in H as (? & ? & ? & ?). auto.
Qed.

Lemma take_length_take {A : Type} (n : nat) (l : list A) :
  take (length (take n l)) l = take n l.
Proof.
  rewrite length_take. destruct (Nat.le_ge_cases n (length l)).
  - rewrite Nat.min_l by lia. reflexivity.
  - rewrite Nat.min_r by lia. rewrite !take_ge by lia. reflexivity.
Qed.

Lemma spanOf_take text t n :
  fullMatch t = take n (drop (index t) text) → spanOf text t = fullMatch t.
Proof.
  intros H. unfold spanOf. rewrite substring_spec by lia.
  replace (index t + length (fullMatch t) - index t) with (length (fullMatch t)) by lia.
  rewrite H. apply take_length_take.
Qed.

(** *** The words of the specification and the tests of the parser *)

Lemma hasMarker_includes (src : jsstring) : hasMarker src = includes (lit "[IMG:") src.
Proof.
  unfold hasMarker. destruct (includes (lit "[IMG:") src) eqn:H; [apply orb_true_r |].
  change (lit "[IMG:GEN]") with (lit "[IMG:" ++ lit "GEN]").
  rewrite (includes_longer _ _ _ H). reflexivity.
Qed.

Lemma hasPath_isPath (src : jsstring) : hasPath src = isPath src.
Proof.
  unfold hasPath, isPath. destruct src as [| c r]; [reflexivity |].
  unfold jseq. rewrite bool_decide_eq_false_2 by discriminate. reflexivity.
Qed.

Lemma needsGeneration_pending (opts : parseOptions) (probe : jsstring → bool)
    (src : jsstring) :
  needsGeneration opts probe src = pending opts probe src.
Proof.
  unfold needsGeneration, pending, hasErrorImage.
  rewrite hasMarker_includes, hasPath_isPath.
  destruct (forceAll opts), (includes (lit "error.svg") src), (includes (lit "[IMG:") src),
    (jseq src []), (isPath src), (checkExistence opts), (probe src); reflexivity.
Qed.

Lemma replaceUnit_asDoubleQuotes (s : jsstring) :
  replaceUnit squote [dquote] s = asDoubleQuotes s.
Proof.
  unfold replaceUnit, asDoubleQuotes. induction s as [| c s IH]; [reflexivity |].
  cbn [flat_map map]. rewrite IH. destruct (N.eqb c squote); reflexivity.
Qed.

Lemma asDoubleQuotes_plain (s : jsstring) :
  holds squote s = false → asDoubleQuotes s = s.
Proof.
  unfold holds, asDoubleQuotes. induction s as [| c s IH]; [reflexivity |].
  cbn [existsb map]. intros [Hc Hs]%orb_false_iff.
  rewrite N.eqb_sym, Hc, IH by exact Hs. reflexivity.
Qed.

Lemma normalizeLegacy_read (payload q : jsstring) :
  readLegacy payload = Some q → normalizeLegacy payload = q.
Proof.
  unfold readLegacy, normalizeLegacy. rewrite replaceUnit_asDoubleQuotes.
  destruct (holds squote payload) eqn:Hs; cbn [negb].
  - destruct (negb (holds dquote payload)); [| discriminate]. intros [= <-]. reflexivity.
  - intros [= <-]. apply asDoubleQuotes_plain. exact Hs.
Qed.

Lemma normalizeNew_read (payload q : jsstring) :
  readAttribute payload = Some q → normalizeNew payload = q.
Proof.
  unfold readAttribute, normalizeNew, decodeEntities. rewrite replaceUnit_asDoubleQuotes.
  destruct (holds squote payload) eqn:Hs; cbn [negb].
  - destruct (negb (holds dquote payload) && negb (includes (lit "&quot;") payload));
      [| discriminate].
    intros [= <-]. reflexivity.
  - intros [= <-]. rewrite (asDoubleQuotes_plain _ Hs). reflexivity.
Qed.

Lemma tagOfData_decoded (q full : jsstring) (idx : nat) (new : bool) (src : jsval) :
  match JSON_parse q with
  | Some data => tagOfData data full idx new src
  | None => None
  end = decoded q full idx new src.
Proof.
  unfold decoded. destruct (JSON_parse q) as [data |]; [| reflexivity].
  destruct data; reflexivity.
Qed.

Lemma legacyBody_resume (text : jsstring) (i : nat) :
  (legacyBody text i).1 = resumeAfter text i.
Proof.
  unfold legacyBody, resumeAfter, substringFrom.
  destruct (findJsonEnd text (i + length marker)) as [jsonEnd |]; [| reflexivity].
  destruct (startsWith (lit "]") (drop jsonEnd text)); reflexivity.
Qed.

Lemma sweepFrom_map {A B : Type} (f : nat → jsstring → option (nat * A))
    (f' : nat → jsstring → option (nat * B)) (φ : A → B) :
  (∀ i s, f' i s = option_map (fun r => (r.1, φ r.2)) (f i s)) →
  ∀ s n i, sweepFrom f' n i s = map φ (sweepFrom f n i s).
Proof.
  intros Hf. induction s as [| c s IH]; intros n i; [reflexivity |].
  cbn [sweepFrom]. destruct n as [| n]; [| apply IH].
  rewrite Hf. destruct (f i (c :: s)) as [[adv a] |]; cbn [option_map fst snd map].
  - rewrite IH. reflexivity.
  - apply IH.
Qed.

Lemma examinedMarkers_turns (text : jsstring) :
  examinedMarkers text = map fst (legacyTurns text).
Proof.
  unfold examinedMarkers, legacyTurns. apply sweepFrom_map. intros i s.
  unfold markerAt, legacyCandidate. destruct (startsWith marker s); [| reflexivity].
  rewrite <- legacyBody_resume. destruct (legacyBody text i). reflexivity.
Qed.

Lemma omap_map_eq {A B C : Type} (φ : A → B) (g : A → option C) (g' : B → option C)
    (l : list A) :
  (∀ a, a ∈ l → g a = g' (φ a)) → omap g l = omap g' (map φ l).
Proof.
  induction l as [| a l IH]; intros Hg; [reflexivity |].
  cbn [omap list_omap map]. rewrite <- (Hg a) by left.
  rewrite IH by (intros a' Ha'; apply Hg; right; exact Ha'). reflexivity.
Qed.

Lemma legacyTurns_elem (text : jsstring) (i : nat) (pushed : option tag) :
  (i, pushed) ∈ legacyTurns text →
  startsWith marker (drop i text) = true ∧ pushed = (legacyBody text i).2.
Proof.
  intros Hin. apply sweepFrom_elem in Hin as (j & adv & Hf).
  pose proof (legacyCandidate_pos _ _ _ _ _ Hf) as Hpos. cbn in Hpos. subst i.
  unfold legacyCandidate in Hf. cbn [Nat.add] in Hf.
  destruct (startsWith marker (drop j text)); [| discriminate].
  destruct (legacyBody text j) as [next p]. simplify_eq. split; reflexivity.
Qed.

Lemma imgMatches_elem (text : jsstring) (k : nat) (m : rmatch) :
  (k, m) ∈ imgMatches text →
  matchHere true imgTagRegex (drop k text) None None = Some m.
Proof.
  intros Hin. apply sweepFrom_elem in Hin as (j & adv & Hf).
  pose proof (imgCandidate_pos _ _ _ _ Hf) as Hpos. cbn in Hpos. subst k.
  unfold imgCandidate in Hf. cbn [Nat.add] in Hf.
  destruct (matchHere true imgTagRegex (drop j text) None None) as [m' |];
    [| discriminate].
  simplify_eq. reflexivity.
Qed.

Lemma legacyInstructions_examined (text : jsstring) :
  legacyInstructions text = omap (fun i => (legacyBody text i).2) (examinedMarkers text).
Proof.
  unfold legacyInstructions. rewrite examinedMarkers_turns. apply omap_map_eq.
  intros [i pushed] Hin. apply legacyTurns_elem in Hin as [_ ->]. reflexivity.
Qed.

(** C1, as amended.  For every text, [parseImageTags] returns a list:
    first instructions of the attribute grammar, chosen among the matches
    of the tag pattern, in document order, then instructions of the
    legacy grammar, chosen among the markers that the scan examines, in
    document order.

    A match of the tag pattern gives an instruction only when the tag is
    pending; the instruction has the index and the text of the match and
    keeps a path of the resource attribute.  When the tag is pending and
    the quoting of its payload is read as [q], it gives the instruction
    decoded from [q]: none when [q] is not JSON or is [null], otherwise
    one with the fields of the value.

    An examined marker gives an instruction only when its object closes
    and a bracket follows; the instruction has the index of the marker
    and the text up to the bracket, and when the quoting of the object is
    read as [q] it is the instruction decoded from [q]. *)
Theorem parseImageTags_returns_instructions (text : jsstring) (opts : parseOptions)
    (probe : jsstring → bool) :
  ∃ (g : nat * rmatch → option tag) (h : nat → option tag),
    parseImageTags text opts probe = omap g (imgMatches text) ++ omap h (examinedMarkers text)
    ∧ inDocumentOrder (omap g (imgMatches text)) = true
    ∧ inDocumentOrder (omap h (examinedMarkers text)) = true
    ∧ (∀ k m, (k, m) ∈ imgMatches text →
         let full := take (m_len m) (drop k text) in
         let payload := default [] (m_g2 m) in
         let src := srcValueOf full in
         let kept := if isPath src then JStr src else JNull in
         matchHere true imgTagRegex (drop k text) None None = Some m
         ∧ (∀ t, g (k, m) = Some t →
              index t = k ∧ fullMatch t = full ∧ spanOf text t = full
              ∧ isNewFormat t = true ∧ existingSrc t = kept
              ∧ pending opts probe src = true)
         ∧ (pending opts probe src = false → g (k, m) = None)
         ∧ (∀ q, pending opts probe src = true → readAttribute payload = Some q →
              g (k, m) = decoded q full k true kept))
    ∧ (∀ i, i ∈ examinedMarkers text →
         startsWith marker (drop i text) = true
         ∧ match findJsonEnd text (i + length marker) with
           | Some jsonEnd =>
               if startsWith (lit "]") (drop jsonEnd text) then
                 let full := substring text i (jsonEnd + 1) in
                 let payload := substring text (i + length marker) jsonEnd in
                 (∀ t, h i = Some t →
                    index t = i ∧ fullMatch t = full ∧ spanOf text t = full
                    ∧ isNewFormat t = false)
                 ∧ (∀ q, readLegacy payload = Some q →
                      h i = decoded q full i false JUndefined)
               else h i = None
           | None => h i = None
           end).
Proof.
  exists (fun km => newFormatBody opts probe text km.1 km.2),
    (fun i => (legacyBody text i).2).
  change (omap (fun km => newFormatBody opts probe text km.1 km.2) (imgMatches text))
    with (newInstructions text opts probe).
  rewrite <- legacyInstructions_examined.
  split; [apply parseImageTags_instructionsOf |].
  split.
  { apply increasing_sorted. apply (omap_sorted _ fst index).
    - intros [k m] t _ Hb. apply newFormatBody_Some in Hb. cbn. tauto.
    - apply (sweepFrom_sorted imgCandidate fst imgCandidate_pos). }
  split.
  { apply increasing_sorted. apply (omap_sorted _ fst index).
    - intros [i p] t Hin Hb. cbn in Hb. subst p.
      destruct (legacyTurns_elem _ _ _ Hin) as [_ Hp]. symmetry in Hp.
      apply legacyBody_Some in Hp. cbn. tauto.
    - apply (sweepFrom_sorted (legacyCandidate text) fst (legacyCandidate_pos text)). }
  split.
  - intros k m Hin. cbv zeta. cbn [fst snd].
    split; [apply imgMatches_elem; exact Hin |].
    unfold newFormatBody. cbv zeta. rewrite needsGeneration_pending, hasPath_isPath.
    split; [| split].
    + intros t Ht.
      destruct (pending opts probe (srcValueOf (take (m_len m) (drop k text))));
        [| discriminate].
      destruct (JSON_parse _) as [data |]; [| discriminate].
      apply tagOfData_Some in Ht as (Hf & Hi & Hn & He).
      repeat split; try assumption.
      assert (Hspan : spanOf text t = fullMatch t)
        by (apply (spanOf_take text t (m_len m)); rewrite Hi; exact Hf).
      rewrite Hspan. exact Hf.
    + intros ->. reflexivity.
    + intros q -> Hq. rewrite (normalizeNew_read _ _ Hq). apply tagOfData_decoded.
  - intros i Hin.
    assert (Hm : startsWith marker (drop i text) = true).
    { rewrite examinedMarkers_turns in Hin.
      apply list_elem_of_fmap in Hin as ([i' p] & -> & Hin).
      apply legacyTurns_elem in Hin as [Hm _]. exact Hm. }
    split; [exact Hm |].
    pose proof (legacyBody_next text i) as Hnext. rewrite legacyBody_resume in Hnext.
    unfold resumeAfter in Hnext. unfold legacyBody, substringFrom. cbv zeta.
    destruct (findJsonEnd text (i + length marker)) as [jsonEnd |]; [| reflexivity].
    destruct (startsWith (lit "]") (drop jsonEnd text)); cbn [negb snd]; [| reflexivity].
    split.
    + intros t Ht. destruct (JSON_parse _) as [data |]; [| discriminate].
      apply tagOfData_Some in Ht as (Hf & Hi & Hn & _).
      repeat split; try assumption.
      assert (Hspan : spanOf text t = fullMatch t).
      { apply (spanOf_take text t (jsonEnd + 1 - i)).
        rewrite Hi, Hf. apply substring_spec. lia. }
      rewrite Hspan. exact Hf.
    + intros q Hq. rewrite (normalizeLegacy_read _ _ Hq). apply tagOfData_decoded.
Qed.

(** A legacy tag that stands before a tag of the attribute grammar comes
    after it in the result. *)
Lemma parse_order_example :
  let text :=
    lit "[IMG:GEN:{`prompt`:`a castle`}] and <img data-iig-instruction='{`prompt`:`a knight`}' src=`[IMG:GEN]`>" in
  map (fun t => (index t, prompt t)) (parseImageTags text noOptions (fun _ => true))
  = [(36, JStr (lit "a knight")); (0, JStr (lit "a castle"))]
  ∧ inDocumentOrder (parseImageTags text noOptions (fun _ => true)) = false.
Proof. vm_compute. split; reflexivity. Qed.

(** Quote normalisation turns every apostrophe into a double quote, also
    inside a string literal: a payload that is valid JSON before it may
    not decode after it, and its tag is then absent. *)
Lemma parse_apostrophe_example :
  JSON_parse (lit "{`prompt`:`a girl's hat`}")
  = Some (JObj [(lit "prompt", JStr (lit "a girl's hat"))])
  ∧ parseImageTags (lit "[IMG:GEN:{`prompt`:`a girl's hat`}]") noOptions (fun _ => true) = [].
Proof. vm_compute. split; reflexivity. Qed.

(** A marker inside the stretch that the scan examines for an earlier
    marker is passed over: here the object of the first marker closes at
    the end of the text, with no bracket behind it. *)
Lemma parse_marker_inside_object :
  let text := lit "[IMG:GEN:{ [IMG:GEN:{`prompt`:`x`}] }" in
  examinedMarkers text = [0] ∧ parseImageTags text noOptions (fun _ => true) = [].
Proof. vm_compute. split; reflexivity. Qed.

(** Three well-formed tags of both grammars among two malformed ones. *)
Lemma parse_mixed_example :
  let text :=
    lit "<img data-iig-instruction='{`style`:`anime`,`prompt`:`a knight`}' src=`[IMG:GEN]`> [IMG:GEN:{bad json}] <img data-iig-instruction='{oops' src=`[IMG:GEN]`> [IMG:GEN:{'prompt':'a castle'}] <IMG class=`x` data-iig-instruction=`{&quot;prompt&quot;:&quot;a dragon&quot;}` src=``>" in
  map (fun t => (index t, isNewFormat t, style t, prompt t))
    (parseImageTags text noOptions (fun _ => true))
  = [(0, true, JStr (lit "anime"), JStr (lit "a knight"));
     (187, true, JStr [], JStr (lit "a dragon"));
     (155, false, JStr [], JStr (lit "a castle"))].
Proof. vm_compute. reflexivity. Qed.

(** ** Hallucinated paths *)

Lemma needsGeneration_missing_path (probe : jsstring → bool) (srcValue : jsstring) :
  hasPath srcValue = true → hasMarker srcValue = false →
  hasErrorImage srcValue = false → probe srcValue = false →
  needsGeneration (ParseOptions true false) probe srcValue = true.
Proof.
  intros Hpath Hmarker Herr Hprobe. unfold needsGeneration. cbn [forallb forceAll checkExistence].
  rewrite Herr, Hmarker, Hpath, Hprobe. cbn.
  unfold hasPath in Hpath. destruct (jseq srcValue []); [discriminate | reflexivity].
Qed.

Lemma hasPath_absolute (srcValue : jsstring) :
  startsWith (lit "/") srcValue = true → 5 < length srcValue → hasPath srcValue = true.
Proof.
  intros Hslash Hlen. unfold hasPath. rewrite Hslash.
  destruct srcValue as [| c r]; [discriminate |].
  unfold jseq. rewrite bool_decide_eq_false_2 by discriminate.
  apply Nat.ltb_lt in Hlen. rewrite Hlen. reflexivity.
Qed.

Lemma hasMarker_prefix (srcValue : jsstring) :
  includes (lit "[IMG:") srcValue = false → hasMarker srcValue = false.
Proof.
  intros H. unfold hasMarker. rewrite H.
  change (lit "[IMG:GEN]") with (lit "[IMG:" ++ lit "GEN]").
  rewrite (includes_longer _ _ _ H). reflexivity.
Qed.

(** C8, as amended.  With existence checking on and [forceAll] off, a tag
    of the attribute grammar is returned by the parser, with the path
    kept in [existingSrc], when its instruction decodes to a JSON object
    and its resource slot holds an absolute path that the probe reports
    missing: a value that starts with a slash and is longer than five
    units, holds no marker [[IMG:] and not the text [error.svg]. *)
Theorem missing_path_is_queued (text : jsstring) (probe : jsstring → bool)
    (k : nat) (m : rmatch) (members : list (jsstring * jsval)) :
  let fullImgTag := take (m_len m) (drop k text) in
  let srcValue := srcValueOf fullImgTag in
  (k, m) ∈ imgMatches text →
  startsWith (lit "/") srcValue = true →
  5 < length srcValue →
  includes (lit "[IMG:") srcValue = false →
  includes (lit "error.svg") srcValue = false →
  probe srcValue = false →
  JSON_parse (normalizeNew (default [] (m_g2 m))) = Some (JObj members) →
  ∃ t, t ∈ parseImageTags text (ParseOptions true false) probe
       ∧ tagOfData (JObj members) fullImgTag k true (JStr srcValue) = Some t
       ∧ index t = k ∧ fullMatch t = fullImgTag
       ∧ isNewFormat t = true ∧ existingSrc t = JStr srcValue.
Proof.
  intros fullImgTag srcValue Hin Hslash Hlen Hmarker Herr Hprobe Hjson.
  pose proof (hasPath_absolute srcValue Hslash Hlen) as Hpath.
  assert (Hbody : newFormatBody (ParseOptions true false) probe text k m
                  = tagOfData (JObj members) fullImgTag k true (JStr srcValue)).
  { unfold newFormatBody. fold fullImgTag. fold srcValue.
    rewrite needsGeneration_missing_path
      by (try assumption; apply hasMarker_prefix; assumption).
    rewrite Hjson, Hpath. reflexivity. }
  destruct (tagOfData (JObj members) fullImgTag k true (JStr srcValue)) as [t |] eqn:Htag;
    [| discriminate].
  exists t. split.
  - rewrite parseImageTags_instructionsOf. unfold instructionsOf.
    apply elem_of_app. left. unfold newInstructions.
    apply list_elem_of_omap. exists (k, m). split; [exact Hin | exact Hbody].
  - split; [reflexivity |]. apply tagOfData_Some in Htag as (? & ? & ? & ?). auto.
Qed.

(** Scenario C: the message holds a tag whose [src] is
    [/images/missing.png], and the probe finds no file. *)
Lemma missing_path_scenario_C :
  let text :=
    lit "Here: <img data-iig-instruction='{`style`:`anime`,`prompt`:`red-haired girl`}' src=`/images/missing.png`>" in
  ∃ t, t ∈ parseImageTags text (ParseOptions true false) (fun _ => false)
       ∧ index t = 6
       ∧ prompt t = JStr (lit "red-haired girl")
       ∧ existingSrc t = JStr (lit "/images/missing.png").
Proof.
  intros text.
  pose (m := RMatch 99 (Some squote)
               (Some (lit "{`style`:`anime`,`prompt`:`red-haired girl`}"))).
  pose (members := [(lit "style", JStr (lit "anime"));
                    (lit "prompt", JStr (lit "red-haired girl"))]).
  destruct (missing_path_is_queued text (fun _ => false) 6 m members)
    as (t & Hin & Htag & _).
  - vm_compute. left.
  - vm_compute. reflexivity.
  - vm_compute. lia.
  - vm_compute. reflexivity.
  - vm_compute. reflexivity.
  - reflexivity.
  - vm_compute. reflexivity.
  - exists t. split; [exact Hin |]. vm_compute in Htag. injection Htag as <-.
    repeat split.
Defined.

(** The same tag with a path that is not absolute, [images/missing.png],
    or with a short one, [/a.p]: the server is not asked (the probe here
    would report every file missing) and no tag is returned. *)
Lemma missing_relative_path_not_queued :
  parseImageTags
    (lit "Here: <img data-iig-instruction='{`style`:`anime`,`prompt`:`red-haired girl`}' src=`images/missing.png`>")
    (ParseOptions true false) (fun _ => false) = []
  ∧ parseImageTags
      (lit "Here: <img data-iig-instruction='{`style`:`anime`,`prompt`:`red-haired girl`}' src=`/a.p`>")
      (ParseOptions true false) (fun _ => false) = [].
Proof. vm_compute. split; reflexivity. Qed.

(** ** Retry and backoff *)

Lemma attemptLoop_spec (s : settings) (provider : nat → attemptResult) (remaining : nat) :
  ∀ attempt lastError,
    1 ≤ remaining →
    (Z.of_nat attempt + Z.of_nat remaining = maxRetries s + 1)%Z →
    let r := attemptLoop remaining s provider attempt lastError in
    1 ≤ attempts r ≤ remaining
    ∧ delays r = map (backoff s) (seq attempt (attempts r - 1))
    ∧ (∀ k, attempt ≤ k < attempt + (attempts r - 1) →
            ∃ message, provider k = Threw message ∧ isRetryable message = true
                       ∧ (Z.of_nat k < maxRetries s)%Z)
    ∧ endsAt s provider (attempt + (attempts r - 1)) (outcome r).
Proof.
  induction remaining as [| remaining IH]; intros attempt lastError Hrem Hsum; [lia |].
  cbn [attemptLoop]. unfold endsAt.
  destruct (provider attempt) as [dataUrl | message] eqn:Hp.
  - cbn. rewrite Nat.add_0_r, Hp. repeat split; lia.
  - destruct (isRetryable message) eqn:Hretry; cbn [negb orb].
    + destruct (Z.eqb_spec (Z.of_nat attempt) (maxRetries s)) as [Heq | Hne].
      * cbn. rewrite Nat.add_0_r, Hp. repeat split; first [lia | auto].
      * specialize (IH (S attempt) (Error message)).
        destruct IH as (Hatt & Hdel & Hretried & Hend); [lia | lia |].
        cbn [attempts delays outcome].
        set (r := attemptLoop remaining s provider (S attempt) (Error message)) in *.
        replace (S (attempts r) - 1) with (S (attempts r - 1)) by lia.
        repeat split; try lia.
        -- cbn [seq map]. rewrite Hdel. reflexivity.
        -- intros k Hk. destruct (decide (k = attempt)) as [-> | Hk'].
           ++ exists message. repeat split; [assumption .. | lia].
           ++ apply Hretried. lia.
        -- replace (attempt + S (attempts r - 1)) with (S attempt + (attempts r - 1)) by lia.
           exact Hend.
    + cbn. rewrite Nat.add_0_r, Hp. repeat split; first [lia | auto].
Qed.

(** C4, as amended.  With valid settings and a ceiling that is not
    negative, [generateImageWithRetry] calls the provider at least once and
    at most [maxRetries + 1] times; it goes from attempt [k] to the next
    only when attempt [k] failed, the message of its error holds one of
    the tokens 429, 503, 502, 504, timeout, network, and [k] is below the
    ceiling, and it waits [retryDelay * 2 ^ k] in between; it ends with
    the result of its last attempt.  A first failure whose message holds
    none of the tokens ends the call at once. *)
Theorem retry_only_retryable_with_backoff (s : settings) (provider : nat → attemptResult) :
  validateSettings s = None →
  (0 ≤ maxRetries s)%Z →
  let r := generateImageWithRetry s provider in
  1 ≤ attempts r ≤ Z.to_nat (maxRetries s) + 1
  ∧ delays r = map (backoff s) (seq 0 (attempts r - 1))
  ∧ (∀ k, k < attempts r - 1 →
          ∃ message, provider k = Threw message ∧ isRetryable message = true
                     ∧ (Z.of_nat k < maxRetries s)%Z)
  ∧ endsAt s provider (attempts r - 1) (outcome r)
  ∧ (∀ message, provider 0 = Threw message → isRetryable message = false →
        attempts r = 1 ∧ delays r = [] ∧ outcome r = GenThrow (Error message)).
Proof.
  intros Hvalid Hmax. cbv zeta. unfold generateImageWithRetry. rewrite Hvalid.
  destruct (attemptLoop_spec s provider (Z.to_nat (maxRetries s + 1)) 0 ThrownUndefined)
    as (Hatt & Hdel & Hretried & Hend); [lia | lia |].
  set (r := attemptLoop (Z.to_nat (maxRetries s + 1)) s provider 0 ThrownUndefined) in *.
  cbn [Nat.add] in Hretried, Hend.
  split; [lia |]. split; [exact Hdel |].
  split; [intros k Hk; apply Hretried; lia |]. split; [exact Hend |].
  intros message Hp Hretry.
  assert (Hone : attempts r = 1).
  { destruct (decide (attempts r = 1)) as [| Hne]; [assumption |].
    destruct (Hretried 0) as (message' & Hp' & Hretry' & _); [lia |].
    congruence. }
  split; [exact Hone |]. rewrite Hone in Hdel, Hend. cbn in Hdel, Hend.
  split; [exact Hdel |]. unfold endsAt in Hend. rewrite Hp in Hend. tauto.
Qed.

(** Two 503 responses and then a 200, under a ceiling of 2 and a base
    delay of [d]: three attempts, the delays [d] and [2 d], and the data
    of the third. *)
Lemma retry_503_503_200 :
  let s := Settings (lit "https://api.example.com") (lit "key") (lit "dall-e-3") 2 1000 in
  let provider := fun k =>
    if k <? 2 then Threw (apiError 503 (lit "Service Unavailable"))
    else Returned (lit "data:image/png;base64,AAAA") in
  let r := generateImageWithRetry s provider in
  validateSettings s = None
  ∧ attempts r = 3
  ∧ delays r = [1000; 2000]%Z
  ∧ outcome r = GenOk (lit "data:image/png;base64,AAAA").
Proof.
  intros s provider r.
  destruct (retry_only_retryable_with_backoff s provider) as (Hatt & Hdel & Hretried & Hend & _);
    [reflexivity | cbn; lia |].
  fold r in Hatt, Hdel, Hretried, Hend.
  assert (H3 : attempts r = 3) by (vm_compute; reflexivity).
  split; [reflexivity |]. split; [exact H3 |].
  rewrite H3 in Hdel, Hend. split; [exact Hdel | exact Hend].
Defined.

(** A 400 whose body holds none of the tokens is not retried... *)
Lemma retry_400_plain :
  let s := Settings (lit "https://api.example.com") (lit "key") (lit "dall-e-3") 2 1000 in
  let r := generateImageWithRetry s (fun _ => Threw (apiError 400 (lit "Bad Request"))) in
  attempts r = 1 ∧ delays r = [].
Proof. vm_compute. split; reflexivity. Qed.

(** ... and a 400 whose body holds one of them is retried up to the
    ceiling. *)
Lemma retry_400_with_token :
  let s := Settings (lit "https://api.example.com") (lit "key") (lit "dall-e-3") 2 1000 in
  let r := generateImageWithRetry s (fun _ => Threw (apiError 400 (lit "upstream timeout"))) in
  isRetryable (apiError 400 (lit "upstream timeout")) = true
  ∧ attempts r = 3 ∧ delays r = [1000; 2000]%Z.
Proof. vm_compute. repeat split; reflexivity. Qed.

(** ** The rewrite of the log *)

Lemma replaceFirst_absent (p r s : jsstring) :
  includes p s = false → replaceFirst p r s = s.
Proof.
  unfold includes, replaceFirst. destruct (findFirst p s); [discriminate | reflexivity].
Qed.

(** Without dollar signs a replacement string is taken as it is. *)
Lemma getSubstitution_no_dollar (matched before after : jsstring)
    (caps : list (option jsstring)) (r : jsstring) :
  Forall (fun c => c ≠ dollar) r → getSubstitution matched before after caps r = r.
Proof.
  induction r as [| c r IH]; intros Hr; [reflexivity |].
  apply Forall_cons in Hr as [Hc Hr]. cbn [getSubstitution].
  destruct (N.eqb_spec c dollar) as [-> | _]; [contradiction |].
  cbn [negb]. rewrite IH by exact Hr. reflexivity.
Qed.

(** *** Where the text of a tag can stand after a rewrite *)

Lemma countOccurrences_app (p a b : jsstring) : 1 ≤ countOccurrences p (a ++ p ++ b).
Proof.
  induction a as [| c a IH].
  - cbn [app]. destruct (p ++ b) as [| x l] eqn:Hpb.
    + destruct p; [cbn; lia | discriminate].
    + cbn [countOccurrences]. rewrite <- Hpb, startsWith_app. lia.
  - cbn [app countOccurrences]. lia.
Qed.

Lemma countOccurrences_two (p : jsstring) :
  ∀ a a' b b', length a < length a' → a ++ p ++ b = a' ++ p ++ b' →
               2 ≤ countOccurrences p (a ++ p ++ b).
Proof.
  induction a as [| x a IH]; intros a' b b' Hlen H.
  - destruct a' as [| y a'']; [cbn in Hlen; lia |].
    cbn [app] in H |- *. pose proof (countOccurrences_app p a'' b') as H1.
    pose proof (startsWith_app p b) as Hs. rewrite H in Hs |- *.
    cbn [countOccurrences]. rewrite Hs. lia.
  - destruct a' as [| y a'']; [cbn in Hlen; lia |].
    cbn [app length] in H, Hlen. injection H as _ H.
    cbn [app countOccurrences]. specialize (IH a'' b b' ltac:(lia) H). lia.
Qed.

Lemma countOccurrences_unique (p s a b a' b' : jsstring) :
  countOccurrences p s ≤ 1 → s = a ++ p ++ b → s = a' ++ p ++ b' → length a = length a'.
Proof.
  intros Hcount Ha Ha'.
  destruct (Nat.lt_trichotomy (length a) (length a')) as [Hlt | [Heq | Hgt]];
    [exfalso | exact Heq | exfalso].
  - pose proof (countOccurrences_two p a a' b b' Hlt ltac:(congruence)) as H.
    rewrite <- Ha in H. lia.
  - pose proof (countOccurrences_two p a' a b' b Hgt ltac:(congruence)) as H.
    rewrite <- Ha' in H. lia.
Qed.

Lemma occurrence_left (X R a F b : jsstring) :
  X ++ R = a ++ F ++ b → length a + length F ≤ length X → ∃ r, X = a ++ F ++ r.
Proof.
  intros H Hlen. exists (drop (length a + length F) X).
  assert (Ht : take (length a + length F) X = a ++ F).
  { transitivity (take (length a + length F) (X ++ R)).
    - rewrite take_app_le by lia. reflexivity.
    - rewrite H, app_assoc, <- length_app, take_app_length. reflexivity. }
  rewrite app_assoc, <- Ht, take_drop. reflexivity.
Qed.

Lemma occurrence_right (R Y a F b : jsstring) :
  R ++ Y = a ++ F ++ b → length R ≤ length a → ∃ l, Y = l ++ F ++ b.
Proof.
  intros H Hlen. exists (drop (length R) a).
  transitivity (drop (length R) (R ++ Y)); [rewrite drop_app_length; reflexivity |].
  rewrite H, drop_app_le by lia. reflexivity.
Qed.

Lemma occurrence_covers (X Z Y a F b : jsstring) :
  X ++ Z ++ Y = a ++ F ++ b → length a ≤ length X →
  length X + length Z ≤ length a + length F → ∃ u v, F = u ++ Z ++ v.
Proof.
  intros H H1 H2.
  assert (Hd : drop (length a) X ++ Z ++ Y = F ++ b).
  { transitivity (drop (length a) (X ++ Z ++ Y)).
    - rewrite drop_app_le by lia. reflexivity.
    - rewrite H, drop_app_length. reflexivity. }
  assert (Hu : length (drop (length a) X ++ Z) ≤ length F).
  { rewrite length_app, length_drop. lia. }
  exists (drop (length a) X), (take (length F - length (drop (length a) X ++ Z)) Y).
  transitivity (take (length F) (F ++ b)); [rewrite take_app_length; reflexivity |].
  rewrite <- Hd, (app_assoc _ Z Y), take_app_ge by exact Hu.
  rewrite <- app_assoc. reflexivity.
Qed.

(** The text [F] stands in a log [X ++ Z ++ Y], and the stretch [Z] is
    such that [F] cannot hold it, start inside it or end inside it: then
    [F] stands before [Z] or after it. *)
Lemma occurrence_outside (X Z Y a F b Zt Zi : jsstring) (z0 zl c d : N) :
  head F = Some c → last F = Some d →
  Z = z0 :: Zt → Z = Zi ++ [zl] →
  c ∉ Zt → d ∉ Zi →
  includes Z F = false →
  X ++ Z ++ Y = a ++ F ++ b →
  length a + length F ≤ length X ∨ length X + length Z ≤ length a.
Proof.
  intros Hhead Hlast Hz0 Hzl Hc Hd Hinc H.
  destruct (decide (length a + length F ≤ length X)) as [| Hn1]; [left; assumption |].
  destruct (decide (length X + length Z ≤ length a)) as [| Hn2]; [right; assumption |].
  exfalso.
  assert (HF : 1 ≤ length F) by (destruct F; [discriminate | cbn; lia]).
  assert (HZi : length Z = S (length Zi)) by (rewrite Hzl, length_app; cbn; lia).
  destruct (decide (length X < length a)) as [Hin | Hout].
  - (* the text starts inside the stretch *)
    apply Hc.
    assert (Hl : (X ++ Z ++ Y) !! length a = Some c).
    { rewrite H, lookup_app_r by lia. rewrite Nat.sub_diag.
      destruct F as [| c' F1]; [discriminate |]. cbn in Hhead. injection Hhead as ->.
      reflexivity. }
    rewrite lookup_app_r in Hl by lia. rewrite lookup_app_l in Hl by lia.
    rewrite Hz0 in Hl. destruct (length a - length X) as [| n] eqn:Hn; [lia |].
    cbn in Hl. eapply list_elem_of_lookup_2. exact Hl.
  - destruct (decide (length X + length Z ≤ length a + length F)) as [Hcov | Hend].
    + destruct (occurrence_covers X Z Y a F b H ltac:(lia) Hcov) as (u & v & HF').
      rewrite HF', includes_app in Hinc. discriminate.
    + (* the text ends inside the stretch *)
      apply Hd.
      assert (Hl : (X ++ Z ++ Y) !! (length a + length F - 1) = Some d).
      { rewrite H, lookup_app_r by lia. rewrite lookup_app_l by lia.
        rewrite last_lookup in Hlast.
        replace (length a + length F - 1 - length a) with (pred (length F)) by lia.
        exact Hlast. }
      rewrite lookup_app_r in Hl by lia. rewrite lookup_app_l in Hl by lia.
      rewrite Hzl in Hl. rewrite lookup_app_l in Hl by lia.
      eapply list_elem_of_lookup_2. exact Hl.
Qed.

Lemma matchHere_len (ic : bool) :
  ∀ pat s g1 g2 m, matchHere ic pat s g1 g2 = Some m → m_len m ≤ length s.
Proof.
  induction pat as [| a pat IH]; intros s g1 g2 m H.
  - cbn in H. injection H as <-. cbn. lia.
  - destruct a as [c | p | p | p | |]; cbn [matchHere] in H.
    + destruct s as [| x s]; [discriminate |]. destruct (unitEq ic c x); [| discriminate].
      destruct (matchHere ic pat s g1 g2) as [r |] eqn:E; [| discriminate].
      cbn in H. injection H as <-. apply IH in E. cbn. lia.
    + destruct s as [| x s]; [discriminate |]. destruct (p x); [| discriminate].
      destruct (matchHere ic pat s g1 g2) as [r |] eqn:E; [| discriminate].
      cbn in H. injection H as <-. apply IH in E. cbn. lia.
    + revert m H. induction s as [| x s IHs]; intros m H.
      * apply IH in H. exact H.
      * destruct (p x).
        -- match type of H with
           | match ?g with _ => _ end = _ => destruct g as [r |] eqn:E
           end.
           ++ cbn in H. injection H as <-. specialize (IHs r eq_refl). cbn. lia.
           ++ apply IH in H. exact H.
        -- apply IH in H. exact H.
    + destruct s as [| x s]; [discriminate |]. destruct (p x); [| discriminate].
      destruct (matchHere ic pat s (Some x) g2) as [r |] eqn:E; [| discriminate].
      cbn in H. injection H as <-. apply IH in E. cbn. lia.
    + generalize dependent (@nil N). revert m.
      induction s as [| x s IHs]; intros m acc H.
      * destruct (matchHere ic pat [] g1 (Some (rev acc))) as [r |] eqn:E; [| discriminate].
        injection H as <-. apply IH in E. exact E.
      * destruct (matchHere ic pat (x :: s) g1 (Some (rev acc))) as [r |] eqn:E.
        -- injection H as <-. apply IH in E. exact E.
        -- match type of H with
           | bump ?g = _ => destruct g as [r |] eqn:E'; [| discriminate]
           end.
           cbn in H. injection H as <-. apply IHs in E'. cbn. lia.
    + destruct g1 as [q |].
      * destruct s as [| x s]; [discriminate |]. destruct (unitEq ic q x); [| discriminate].
        destruct (matchHere ic pat s (Some q) g2) as [r |] eqn:E; [| discriminate].
        cbn in H. injection H as <-. apply IH in E. cbn. lia.
      * apply IH in H. exact H.
Qed.

Lemma searchFrom_spec (ic : bool) (pat : list atom) :
  ∀ s i k m, searchFrom ic pat s i = Some (k, m) →
    ∃ d, k = i + d ∧ d ≤ length s ∧ matchHere ic pat (drop d s) None None = Some m.
Proof.
  induction s as [| c s IH]; intros i k m H; cbn [searchFrom] in H.
  - destruct (matchHere ic pat [] None None) as [r |] eqn:E; [| discriminate].
    injection H as <- <-. exists 0. split; [lia | split; [cbn; lia | exact E]].
  - destruct (matchHere ic pat (c :: s) None None) as [r |] eqn:E.
    + injection H as <- <-. exists 0. split; [lia | split; [cbn; lia | exact E]].
    + apply IH in H as (d & -> & Hd & Hm). exists (S d).
      split; [lia | split; [cbn; lia | exact Hm]].
Qed.

(** The resource attribute that the writer replaces is a stretch of the
    tag, and not an empty one. *)
Lemma srcSlot_parts (F : jsstring) (j : nat) (m : rmatch) :
  regexExec true srcSlotRegex F 0 = Some (j, m) →
  F = take j F ++ take (m_len m) (drop j F) ++ drop (j + m_len m) F
  ∧ 1 ≤ length (take (m_len m) (drop j F)).
Proof.
  intros H. split.
  - rewrite <- drop_drop, take_drop, take_drop. reflexivity.
  - unfold regexExec in H. cbn [Nat.leb drop] in H.
    apply searchFrom_spec in H as (d & -> & Hd & Hm). cbn [Nat.add].
    pose proof (matchHere_len _ _ _ _ _ _ Hm) as Hlen.
    change srcSlotRegex with (ALit 115 :: tail srcSlotRegex) in Hm.
    apply matchHere_lit_len in Hm. rewrite length_take. rewrite drop_0 in Hlen. lia.
Qed.

Lemma srcAttribute_no_dollar (imagePath : jsstring) :
  Forall (fun c => c ≠ dollar) imagePath → Forall (fun c => c ≠ dollar) (srcAttribute imagePath).
Proof.
  intros Hpath. unfold srcAttribute. apply Forall_app. split; [| apply Forall_app; split].
  - repeat constructor; discriminate.
  - exact Hpath.
  - repeat constructor; discriminate.
Qed.

(** The log after the writer has run for a tag of the attribute grammar
    without dollar signs: the log itself, when the tag is not found or
    has no resource attribute, or the log with the new attribute in the
    place of the old one. *)
Lemma rewriteDone_new (log : jsstring) (t : tag) (imagePath : jsstring) :
  isNewFormat t = true →
  Forall (fun c => c ≠ dollar) (fullMatch t) →
  Forall (fun c => c ≠ dollar) imagePath →
  rewriteDone log t imagePath = log
  ∨ ∃ A B P S Q,
      log = A ++ fullMatch t ++ B ∧ fullMatch t = P ++ S ++ Q ∧ 1 ≤ length S
      ∧ rewriteDone log t imagePath = A ++ P ++ srcAttribute imagePath ++ Q ++ B.
Proof.
  intros Hnew Htag Hpath. unfold rewriteDone. rewrite Hnew. unfold regexReplace, replaceFirst.
  destruct (findFirst (fullMatch t) log) as [k |] eqn:Hk; [| left; reflexivity].
  pose proof (findFirst_split _ _ _ Hk) as Hlog.
  destruct (regexExec true srcSlotRegex (fullMatch t) 0) as [[j m] |] eqn:Hexec.
  - right. destruct (srcSlot_parts _ _ _ Hexec) as [Hparts Hlen].
    exists (take k log), (drop (k + length (fullMatch t)) log), (take j (fullMatch t)),
      (take (m_len m) (drop j (fullMatch t))), (drop (j + m_len m) (fullMatch t)).
    split; [exact Hlog |]. split; [exact Hparts |]. split; [exact Hlen |].
    cbv zeta.
    rewrite (getSubstitution_no_dollar _ _ _ _ (srcAttribute imagePath))
      by (apply srcAttribute_no_dollar; exact Hpath).
    rewrite getSubstitution_no_dollar.
    + rewrite <- !app_assoc. reflexivity.
    + apply Forall_app. split; [apply Forall_take; exact Htag |].
      apply Forall_app. split; [apply srcAttribute_no_dollar; exact Hpath |].
      apply Forall_drop; exact Htag.
  - left. cbv zeta. rewrite getSubstitution_no_dollar by exact Htag.
    symmetry. exact Hlog.
Qed.

Lemma rewriteDone_legacy (log : jsstring) (t : tag) (imagePath : jsstring) :
  isNewFormat t = false →
  Forall (fun c => c ≠ dollar) imagePath →
  rewriteDone log t imagePath = log
  ∨ ∃ A B, log = A ++ fullMatch t ++ B
           ∧ rewriteDone log t imagePath = A ++ completionMarker imagePath ++ B.
Proof.
  intros Hold Hpath. unfold rewriteDone. rewrite Hold. unfold replaceFirst.
  destruct (findFirst (fullMatch t) log) as [k |] eqn:Hk; [| left; reflexivity].
  right. exists (take k log), (drop (k + length (fullMatch t)) log).
  split; [apply findFirst_split; exact Hk |].
  rewrite getSubstitution_no_dollar; [reflexivity |].
  unfold completionMarker. repeat (apply Forall_app; split);
    first [exact Hpath | repeat constructor; discriminate].
Qed.

(** *** The brackets of a tag

    The text of every tag that the parser returns starts and ends with
    the brackets of its grammar. *)

Lemma unitEq_bracket (c x : N) :
  c = 60%N ∨ c = 62%N → unitEq true c x = true → x = c.
Proof.
  unfold unitEq, canon. intros Hc H. apply N.eqb_eq in H.
  destruct (N.leb 97 x && N.leb x 122)%N eqn:Hx.
  - apply andb_true_iff in Hx as [H1 H2]. apply N.leb_le in H1. apply N.leb_le in H2.
    destruct Hc as [-> | ->]; cbn in H; lia.
  - destruct Hc as [-> | ->]; cbn in H; lia.
Qed.

Lemma matchHere_last (ic : bool) (c : N) :
  ∀ pat s g1 g2 m, matchHere ic (pat ++ [ALit c]) s g1 g2 = Some m →
    1 ≤ m_len m ∧ ∃ x, s !! (m_len m - 1) = Some x ∧ unitEq ic c x = true.
Proof.
  assert (Hbump : ∀ (x : N) (s : jsstring) (r m : rmatch),
            (1 ≤ m_len r ∧ ∃ y, s !! (m_len r - 1) = Some y ∧ unitEq ic c y = true) →
            bump (Some r) = Some m →
            1 ≤ m_len m ∧ ∃ y, (x :: s) !! (m_len m - 1) = Some y ∧ unitEq ic c y = true).
  { intros x s r m (Hr & y & Hy & Hc) [= <-]. cbn [m_len]. split; [lia |].
    exists y. split; [| exact Hc].
    replace (S (m_len r) - 1) with (S (m_len r - 1)) by lia. exact Hy. }
  induction pat as [| a pat IH]; intros s g1 g2 m H.
  - cbn [app matchHere] in H. destruct s as [| x s]; [discriminate |].
    destruct (unitEq ic c x) eqn:Hc; [| discriminate].
    cbn in H. injection H as <-. cbn [m_len]. split; [lia |].
    exists x. split; [reflexivity | exact Hc].
  - rewrite <- app_comm_cons in H.
    destruct a as [c' | p | p | p | |]; cbn [matchHere] in H.
    + destruct s as [| x s]; [discriminate |]. destruct (unitEq ic c' x); [| discriminate].
      destruct (matchHere ic (pat ++ [ALit c]) s g1 g2) as [r |] eqn:E; [| discriminate].
      exact (Hbump x s r m (IH _ _ _ _ E) H).
    + destruct s as [| x s]; [discriminate |]. destruct (p x); [| discriminate].
      destruct (matchHere ic (pat ++ [ALit c]) s g1 g2) as [r |] eqn:E; [| discriminate].
      exact (Hbump x s r m (IH _ _ _ _ E) H).
    + revert m H. induction s as [| x s IHs]; intros m H.
      * exact (IH _ _ _ _ H).
      * destruct (p x).
        -- match type of H with
           | match ?g with _ => _ end = _ => destruct g as [r |] eqn:E
           end.
           ++ exact (Hbump x s r m (IHs r eq_refl) H).
           ++ exact (IH _ _ _ _ H).
        -- exact (IH _ _ _ _ H).
    + destruct s as [| x s]; [discriminate |]. destruct (p x); [| discriminate].
      destruct (matchHere ic (pat ++ [ALit c]) s (Some x) g2) as [r |] eqn:E; [| discriminate].
      exact (Hbump x s r m (IH _ _ _ _ E) H).
    + generalize dependent (@nil N). revert m.
      induction s as [| x s IHs]; intros m acc H.
      * destruct (matchHere ic (pat ++ [ALit c]) [] g1 (Some (rev acc))) as [r |] eqn:E;
          [| discriminate].
        injection H as <-. exact (IH _ _ _ _ E).
      * destruct (matchHere ic (pat ++ [ALit c]) (x :: s) g1 (Some (rev acc)))
          as [r |] eqn:E.
        -- injection H as <-. exact (IH _ _ _ _ E).
        -- match type of H with
           | bump ?g = _ => destruct g as [r |] eqn:E'; [| discriminate]
           end.
           exact (Hbump x s r m (IHs _ _ E') H).
    + destruct g1 as [q |].
      * destruct s as [| x s]; [discriminate |]. destruct (unitEq ic q x); [| discriminate].
        destruct (matchHere ic (pat ++ [ALit c]) s (Some q) g2) as [r |] eqn:E;
          [| discriminate].
        exact (Hbump x s r m (IH _ _ _ _ E) H).
      * exact (IH _ _ _ _ H).
Qed.

Lemma parsed_tag_brackets (text : jsstring) (opts : parseOptions) (probe : jsstring → bool)
    (t : tag) :
  t ∈ parseImageTags text opts probe →
  head (fullMatch t) = Some (opener t) ∧ last (fullMatch t) = Some (closer t).
Proof.
  rewrite parseImageTags_instructionsOf. unfold instructionsOf, opener, closer.
  intros [Hin | Hin]%elem_of_app.
  - unfold newInstructions in Hin.
    apply list_elem_of_omap in Hin as ([k m] & Hin & Hbody). cbn [fst snd] in Hbody.
    apply newFormatBody_Some in Hbody as (-> & _ & ->).
    apply imgMatches_elem in Hin.
    pose proof (matchHere_len _ _ _ _ _ _ Hin) as Hlen.
    pose proof Hin as Hlast.
    change imgTagRegex with (removelast imgTagRegex ++ [ALit 62]) in Hlast.
    apply matchHere_last in Hlast as (Hpos & x & Hx & Hc).
    apply unitEq_bracket in Hc; [| right; reflexivity]. subst x.
    split.
    + rewrite imgTagRegex_head in Hin.
      destruct (drop k text) as [| y r]; [discriminate |]. cbn [matchHere] in Hin.
      destruct (unitEq true 60 y) eqn:Hy; [| discriminate].
      apply unitEq_bracket in Hy; [| left; reflexivity]. subst y.
      destruct (m_len m); [lia | reflexivity].
    + rewrite last_lookup, length_take, Nat.min_l by exact Hlen.
      rewrite lookup_take_lt by lia.
      replace (pred (m_len m)) with (m_len m - 1) by lia. exact Hx.
  - unfold legacyInstructions in Hin.
    apply list_elem_of_omap in Hin as ([i pushed] & Hin & Hp). cbn [snd] in Hp. subst pushed.
    apply legacyTurns_elem in Hin as [Hm Hp]. symmetry in Hp.
    pose proof (legacyBody_next text i) as Hnext.
    unfold legacyBody, substringFrom in Hp, Hnext. cbv zeta in Hp, Hnext.
    destruct (findJsonEnd text (i + length marker)) as [jsonEnd |]; [| discriminate].
    destruct (startsWith (lit "]") (drop jsonEnd text)) eqn:Hb; cbn [negb fst snd] in Hp, Hnext;
      [| discriminate].
    destruct (JSON_parse _) as [data |]; [| discriminate].
    apply tagOfData_Some in Hp as (-> & _ & -> & _).
    rewrite substring_spec by lia.
    apply startsWith_spec in Hm as [r Hr]. apply startsWith_spec in Hb as [r' Hr'].
    assert (He : text !! jsonEnd = Some rbracket).
    { rewrite <- (Nat.add_0_r jsonEnd), <- lookup_drop, Hr'. reflexivity. }
    pose proof (lookup_lt_Some _ _ _ He) as Hlt.
    split.
    + rewrite Hr. destruct (jsonEnd + 1 - i) eqn:Hn; [lia | reflexivity].
    + rewrite last_lookup, length_take, length_drop, Nat.min_l by lia.
      rewrite lookup_take_lt by lia. rewrite lookup_drop.
      replace (i + pred (jsonEnd + 1 - i)) with jsonEnd by lia. exact He.
Qed.

(** C5, as amended.  The writer finds the tag by its text.  When that
    text stands at most once in the log, a second application with the
    same outcome changes nothing, for a tag and a path without
    surprises: the text of the tag starts and ends with the brackets of
    its grammar and does not hold what the writer puts in (the attribute
    [src] with the path, or the completion marker), the path holds none
    of these brackets, and neither the path nor, in the attribute
    grammar, the tag holds a dollar sign. *)
Theorem rewriteDone_twice (log : jsstring) (t : tag) (imagePath : jsstring) :
  countOccurrences (fullMatch t) log ≤ 1 →
  head (fullMatch t) = Some (opener t) →
  last (fullMatch t) = Some (closer t) →
  (isNewFormat t = true → Forall (fun c => c ≠ dollar) (fullMatch t)) →
  Forall (fun c => c ≠ dollar ∧ c ≠ opener t ∧ c ≠ closer t) imagePath →
  includes (written t imagePath) (fullMatch t) = false →
  rewriteDone (rewriteDone log t imagePath) t imagePath = rewriteDone log t imagePath.
Proof.
  intros Hcount Hhead Hlast Htag Hpath Hinc.
  assert (Hdollar : Forall (fun c => c ≠ dollar) imagePath).
  { eapply Forall_impl; [exact Hpath |]. simpl. tauto. }
  assert (Hopen : opener t ∉ imagePath).
  { intros Hin. rewrite Forall_forall in Hpath. apply Hpath in Hin. tauto. }
  assert (Hclose : closer t ∉ imagePath).
  { intros Hin. rewrite Forall_forall in Hpath. apply Hpath in Hin. tauto. }
  assert (HF : 1 ≤ length (fullMatch t)).
  { destruct (fullMatch t); [discriminate | cbn; lia]. }
  assert (Habsent : ∀ log', (∀ a b, log' ≠ a ++ fullMatch t ++ b) →
                            rewriteDone log' t imagePath = log').
  { intros log' Hno. unfold rewriteDone.
    destruct (isNewFormat t); apply replaceFirst_absent, includes_false, Hno. }
  unfold opener, closer, written in *.
  destruct (isNewFormat t) eqn:Hnew.
  - destruct (rewriteDone_new log t imagePath Hnew (Htag eq_refl) Hdollar)
      as [Hsame | (A & B & P & S & Q & Hlog & HFp & HS & Hre)];
      [rewrite !Hsame; reflexivity |].
    rewrite Hre. apply Habsent. intros a b Hocc.
    assert (Hocc' : (A ++ P) ++ srcAttribute imagePath ++ (Q ++ B)
                    = a ++ fullMatch t ++ b).
    { rewrite <- Hocc, <- !app_assoc. reflexivity. }
    assert (Hlen : length (fullMatch t) = length P + length S + length Q).
    { rewrite HFp at 1. rewrite !length_app. lia. }
    destruct (occurrence_outside (A ++ P) (srcAttribute imagePath) (Q ++ B) a
                (fullMatch t) b (lit "rc=`" ++ imagePath ++ lit "`")
                (lit "src=`" ++ imagePath) 115%N dquote 60%N 62%N
                Hhead Hlast eq_refl) as [Hl | Hr].
    + unfold srcAttribute. rewrite <- !app_assoc. reflexivity.
    + rewrite !elem_of_app. intros [Hin | [Hin | Hin]];
        [| exact (Hopen Hin) |]; apply list_elem_of_In in Hin; vm_compute in Hin; intuition discriminate.
    + rewrite !elem_of_app. intros [Hin | Hin]; [| exact (Hclose Hin)].
      apply list_elem_of_In in Hin. vm_compute in Hin. intuition discriminate.
    + exact Hinc.
    + exact Hocc'.
    + destruct (occurrence_left (A ++ P) _ a (fullMatch t) b Hocc' Hl) as [r Hr].
      assert (Hlog' : log = a ++ fullMatch t ++ (r ++ S ++ Q ++ B)).
      { rewrite Hlog, HFp at 1. rewrite <- !app_assoc.
        rewrite (app_assoc A P), Hr, <- !app_assoc. reflexivity. }
      pose proof (countOccurrences_unique _ _ _ _ _ _ Hcount Hlog Hlog') as Heq.
      rewrite length_app in Hl. lia.
    + assert (Hocc'' : ((A ++ P) ++ srcAttribute imagePath) ++ (Q ++ B)
                       = a ++ fullMatch t ++ b).
      { rewrite <- Hocc', <- !app_assoc. reflexivity. }
      destruct (occurrence_right _ (Q ++ B) a (fullMatch t) b Hocc'') as [l Hl];
        [rewrite !length_app in *; lia |].
      assert (Hlog' : log = (A ++ P ++ S ++ l) ++ fullMatch t ++ b).
      { rewrite Hlog, HFp at 1. rewrite <- !app_assoc.
        do 3 f_equal. rewrite <- Hl. reflexivity. }
      pose proof (countOccurrences_unique _ _ _ _ _ _ Hcount Hlog Hlog') as Heq.
      rewrite !length_app in Heq. lia.
  - destruct (rewriteDone_legacy log t imagePath Hnew Hdollar)
      as [Hsame | (A & B & Hlog & Hre)]; [rewrite !Hsame; reflexivity |].
    rewrite Hre. apply Habsent. intros a b Hocc.
    destruct (occurrence_outside A (completionMarker imagePath) B a (fullMatch t) b
                (lit "IMG:" ++ [10003%N] ++ lit ":" ++ imagePath ++ lit "]")
                (lit "[IMG:" ++ [10003%N] ++ lit ":" ++ imagePath) 91%N rbracket 91%N rbracket
                Hhead Hlast eq_refl) as [Hl | Hr].
    + unfold completionMarker. rewrite <- !app_assoc. reflexivity.
    + rewrite !elem_of_app. intros [Hin | [Hin | [Hin | [Hin | Hin]]]];
        [| | | exact (Hopen Hin) |]; apply list_elem_of_In in Hin; vm_compute in Hin; intuition discriminate.
    + rewrite !elem_of_app. intros [Hin | [Hin | [Hin | Hin]]];
        [| | | exact (Hclose Hin)]; apply list_elem_of_In in Hin; vm_compute in Hin; intuition discriminate.
    + exact Hinc.
    + exact Hocc.
    + destruct (occurrence_left A _ a (fullMatch t) b Hocc Hl) as [r Hr].
      assert (Hlog' : log = a ++ fullMatch t ++ (r ++ fullMatch t ++ B)).
      { rewrite Hlog at 1. rewrite Hr at 1. rewrite <- !app_assoc. reflexivity. }
      pose proof (countOccurrences_unique _ _ _ _ _ _ Hcount Hlog Hlog') as Heq. lia.
    + assert (Hocc'' : (A ++ completionMarker imagePath) ++ B = a ++ fullMatch t ++ b).
      { rewrite <- Hocc, <- !app_assoc. reflexivity. }
      destruct (occurrence_right _ B a (fullMatch t) b Hocc'') as [l Hl];
        [rewrite length_app; lia |].
      assert (Hlog' : log = (A ++ fullMatch t ++ l) ++ fullMatch t ++ b).
      { rewrite Hlog at 1. rewrite Hl at 1. rewrite <- !app_assoc. reflexivity. }
      pose proof (countOccurrences_unique _ _ _ _ _ _ Hcount Hlog Hlog') as Heq.
      rewrite !length_app in Heq. lia.
Qed.

(** A log with one tag of each grammar: for both tags the second
    application of the writer changes nothing. *)
Lemma rewriteDone_twice_single_tag :
  let log := lit "A castle: [IMG:GEN:{`prompt`:`a castle`}] and a <img data-iig-instruction='{`prompt`:`knight`}' src=`[IMG:GEN]`>." in
  let path := lit "/user/images/hero/iig_1.png" in
  Forall (fun t =>
    countOccurrences (fullMatch t) log = 1
    ∧ rewriteDone (rewriteDone log t path) t path = rewriteDone log t path)
    (parseImageTags log noOptions (fun _ => true))
  ∧ length (parseImageTags log noOptions (fun _ => true)) = 2.
Proof.
  intros log path. split; [| vm_compute; reflexivity].
  apply Forall_forall. intros t Ht. vm_compute in Ht.
  apply elem_of_cons in Ht as [-> | Ht];
    [| apply elem_of_cons in Ht as [-> | Ht]; [| inversion Ht]].
  all: split; [vm_compute; reflexivity |].
  all: apply (rewriteDone_twice log _ path);
    [vm_compute; lia | reflexivity | reflexivity
    | intros _; vm_compute; repeat (constructor; [discriminate |]); constructor
    | vm_compute; repeat (constructor; [repeat split; discriminate |]); constructor
    | vm_compute; reflexivity].
Defined.

(** Two copies of one legacy tag: the first application rewrites the
    first copy, the second application the second one. *)
Lemma rewriteDone_twice_duplicate_tag :
  let log := lit "[IMG:GEN:{`prompt`:`a cat`}] and again [IMG:GEN:{`prompt`:`a cat`}]" in
  let path := lit "/a.png" in
  ∃ t, head (parseImageTags log noOptions (fun _ => true)) = Some t
       ∧ rewriteDone log t path
         = lit "[IMG:" ++ [10003%N] ++ lit ":/a.png] and again [IMG:GEN:{`prompt`:`a cat`}]"
       ∧ rewriteDone (rewriteDone log t path) t path
         = lit "[IMG:" ++ [10003%N] ++ lit ":/a.png] and again [IMG:"
           ++ [10003%N] ++ lit ":/a.png]"
       ∧ jseq (rewriteDone (rewriteDone log t path) t path) (rewriteDone log t path) = false.
Proof.
  intros log path.
  destruct (head (parseImageTags log noOptions (fun _ => true))) as [t |] eqn:Ht;
    [| vm_compute in Ht; discriminate].
  exists t. split; [reflexivity |].
  vm_compute in Ht. injection Ht as <-. vm_compute. repeat split.
Qed.

(** The other conditions are needed as well, each on a log that holds
    the tag once.  A tag whose instruction holds the pattern [$&]: the
    rewrite puts the text of the tag back into the log, and the second
    application rewrites it there.  A path with the brackets of the
    grammar, and a tag of either grammar that holds what the writer puts
    in (the completion marker, or the attribute with the path): the first
    application makes the text of the tag anew. *)
Lemma rewriteDone_twice_other_cases :
  let differs := fun log t path =>
    (countOccurrences (fullMatch t) log =? 1)
    && negb (jseq (rewriteDone (rewriteDone log t path) t path) (rewriteDone log t path)) in
  let t1 := Tag (lit "<img data-iig-instruction='{`prompt`:`$&`}' src=`[IMG:GEN]`>") 0
              (JStr []) (JStr (lit "$&")) JNull JNull JNull true JNull in
  let t2 := Tag (lit "[IMG:GEN:{}]") 0 (JStr []) (JStr []) JNull JNull JNull false JUndefined in
  let t3 := Tag (lit "[IMG:GEN:{`a`:`[IMG:" ++ [10003%N] ++ lit ":/p]`}]") 15
              (JStr []) (JStr []) JNull JNull JNull false JUndefined in
  let t4 := Tag (lit "<x'>src='<x'>src=`/p`>") 9
              (JStr []) (JStr []) JNull JNull JNull true JNull in
  differs (fullMatch t1) t1 (lit "/a.png") = true
  ∧ differs (fullMatch t2 ++ lit "]") t2 (lit "x[IMG:GEN:{}") = true
  ∧ differs (lit "[IMG:GEN:{`a`:`" ++ fullMatch t3 ++ lit "`}]") t3 (lit "/p") = true
  ∧ differs (lit "<x'>src='" ++ fullMatch t4) t4 (lit "/p") = true.
Proof. vm_compute. repeat split. Qed.

(** C6.  A tag whose instruction holds [$$]: the string handed to
    [replace] as replacement is the updated tag, and its dollar patterns
    are expanded, so the instruction attribute of the log changes. *)
Lemma rewriteDone_expands_dollars :
  let log := lit "<img data-iig-instruction='{`prompt`:`win $$ now`}' src=`[IMG:GEN]`>" in
  ∃ t, parseImageTags log noOptions (fun _ => true) = [t]
       ∧ prompt t = JStr (lit "win $$ now")
       ∧ rewriteDone log t (lit "/user/images/a.png")
         = lit "<img data-iig-instruction='{`prompt`:`win $ now`}' src=`/user/images/a.png`>".
Proof.
  intros log.
  destruct (parseImageTags log noOptions (fun _ => true)) as [| t [| ? ?]] eqn:Ht;
    try (vm_compute in Ht; discriminate).
  exists t. split; [reflexivity |].
  vm_compute in Ht. injection Ht as <-. vm_compute. split; reflexivity.
Qed.

(** C7.  A tag without a [src] attribute is pending; the rewrite after an
    error finds no attribute to replace, the log stays as it was, and the
    next parse in normal mode returns the instruction again. *)
Lemma rewriteError_without_src :
  let log := lit "<img data-iig-instruction='{`prompt`:`a cat`}'>" in
  let normal := ParseOptions true false in
  ∃ t, parseImageTags log normal (fun _ => true) = [t]
       ∧ rewriteError log t (apiError 500 (lit "boom")) = log
       ∧ parseImageTags (rewriteError log t (apiError 500 (lit "boom"))) normal (fun _ => true)
         = [t].
Proof.
  intros log normal.
  destruct (parseImageTags log normal (fun _ => true)) as [| t [| ? ?]] eqn:Ht;
    try (vm_compute in Ht; discriminate).
  exists t. split; [reflexivity |].
  vm_compute in Ht. injection Ht as <-. vm_compute. split; reflexivity.
Qed.

(** With a [src] attribute the sentinel is written: the tag is skipped in
    normal mode and returned under [forceAll]; a legacy tag becomes an
    error marker that no mode returns. *)
Lemma rewriteError_with_src :
  let log := lit "<img data-iig-instruction='{`prompt`:`a cat`}' src=`[IMG:GEN]`> [IMG:GEN:{`prompt`:`a dog`}]" in
  let msg := apiError 500 (lit "boom") in
  ∃ t1 t2, parseImageTags log (ParseOptions true false) (fun _ => true) = [t1; t2]
    ∧ rewriteError (rewriteError log t1 msg) t2 msg
      = lit "<img data-iig-instruction='{`prompt`:`a cat`}' src=`/scripts/extensions/third-party/sillyimages/error.svg`> [IMG:ERROR:API Error (500): boom]"
    ∧ parseImageTags (rewriteError (rewriteError log t1 msg) t2 msg)
        (ParseOptions true false) (fun _ => true) = []
    ∧ map prompt (parseImageTags (rewriteError (rewriteError log t1 msg) t2 msg)
                    (ParseOptions false true) (fun _ => true))
      = [JStr (lit "a cat")].
Proof.
  intros log msg.
  destruct (parseImageTags log (ParseOptions true false) (fun _ => true))
    as [| t1 [| t2 [| ? ?]]] eqn:Ht; try (vm_compute in Ht; discriminate).
  exists t1, t2. split; [reflexivity |].
  vm_compute in Ht. injection Ht as <- <-. vm_compute. repeat split.
Qed.

(** X22.  Where the writer finds the tag and its resource attribute, and
    neither the tag nor the path holds a dollar sign, the rewrite puts
    the new attribute in the place of the old one and leaves every other
    unit of the log as it was. *)
Lemma rewriteDone_frame (log : jsstring) (t : tag) (imagePath : jsstring)
    (k j : nat) (m : rmatch) :
  isNewFormat t = true →
  Forall (fun c => c ≠ dollar) (fullMatch t) →
  Forall (fun c => c ≠ dollar) imagePath →
  findFirst (fullMatch t) log = Some k →
  regexExec true srcSlotRegex (fullMatch t) 0 = Some (j, m) →
  let before := take k log ++ take j (fullMatch t) in
  let after := drop (j + m_len m) (fullMatch t) ++ drop (k + length (fullMatch t)) log in
  log = before ++ take (m_len m) (drop j (fullMatch t)) ++ after
  ∧ rewriteDone log t imagePath = before ++ srcAttribute imagePath ++ after.
Proof.
  intros Hnew Htag Hpath Hfind Hexec before after.
  assert (Hparts : fullMatch t
                   = take j (fullMatch t) ++ take (m_len m) (drop j (fullMatch t))
                     ++ drop (j + m_len m) (fullMatch t)).
  { rewrite <- drop_drop, take_drop, take_drop. reflexivity. }
  split.
  - unfold before, after. rewrite <- !app_assoc.
    transitivity (take k log ++ fullMatch t ++ drop (k + length (fullMatch t)) log).
    + apply findFirst_split. exact Hfind.
    + rewrite Hparts at 1. rewrite <- !app_assoc. reflexivity.
  - unfold rewriteDone. rewrite Hnew. unfold regexReplace. rewrite Hexec.
    assert (Hattr : Forall (fun c => c ≠ dollar) (srcAttribute imagePath)).
    { unfold srcAttribute. apply Forall_app. split; [| apply Forall_app; split].
      - repeat constructor; discriminate.
      - exact Hpath.
      - repeat constructor; discriminate. }
    rewrite (getSubstitution_no_dollar _ _ _ _ (srcAttribute imagePath)) by exact Hattr.
    unfold replaceFirst. rewrite Hfind.
    rewrite getSubstitution_no_dollar.
    + unfold before, after. rewrite <- !app_assoc. reflexivity.
    + apply Forall_app. split; [apply Forall_take; exact Htag |].
      apply Forall_app. split; [exact Hattr | apply Forall_drop; exact Htag].
Qed.

(** The error image is not a pending marker, and a slot that holds it is
    skipped unless [forceAll]. *)
Lemma error_sentinel_is_skipped (probe : jsstring → bool) (check : bool) :
  hasMarker ERROR_IMAGE_PATH = false
  ∧ hasErrorImage ERROR_IMAGE_PATH = true
  ∧ needsGeneration (ParseOptions check false) probe ERROR_IMAGE_PATH = false
  ∧ needsGeneration (ParseOptions check true) probe ERROR_IMAGE_PATH = true.
Proof. repeat split; destruct check; vm_compute; reflexivity. Qed.


(** ** The guard and the join *)

(** A trigger that finds the mark of its message does nothing: no parse,
    no job, no change of the log, of the marks or of the saves. *)
Lemma trigger_marked_is_rejected (w : world) (messageId : nat) :
  enabled w = true →
  messageId ∈ processingMessages w →
  trigger w messageId = setCalls w (calls w ++ [Call messageId [] [] TReturned]).
Proof.
  intros Hen Hin. unfold trigger. rewrite Hen. cbn [negb].
  rewrite bool_decide_eq_true_2 by exact Hin. reflexivity.
Qed.

(** C3.  The mark is set only after [await parseImageTags(...)], which
    here waits for the probe of a path: a second trigger that arrives
    before the first call goes on passes the guard too, and both calls
    start a job for the tag. *)
Lemma guard_race_two_runs :
  let log := lit "A castle: <img data-iig-instruction='{`prompt`:`a castle`}' src=`/images/missing.png`>" in
  let w0 := World true [Message log false] (fun _ => Rendered) (fun _ => false) ∅ [] [] in
  let w := run w0 [Trigger 0; Trigger 0; ResumeParse 0; ResumeParse 1] in
  activeRuns w 0 = 2
  ∧ map c_jobs (calls w) = [[JRunning]; [JRunning]]
  ∧ map (fun c => map prompt (c_tags c)) (calls w)
    = [[JStr (lit "a castle")]; [JStr (lit "a castle")]]
  ∧ elements (processingMessages w) = [0].
Proof. vm_compute. repeat split. Qed.

(** When the second trigger arrives after the first call has set its
    mark, it is rejected. *)
Lemma guard_after_mark :
  let log := lit "A castle: [IMG:GEN:{`prompt`:`a castle`}]" in
  let w0 := World true [Message log false] (fun _ => Rendered) (fun _ => true) ∅ [] [] in
  let w := run w0 [Trigger 0; ResumeParse 0; Trigger 0; ResumeParse 1] in
  activeRuns w 0 = 1
  ∧ map c_jobs (calls w) = [[JRunning]; []]
  ∧ map c_state (calls w) = [TJoin; TReturned].
Proof. vm_compute. repeat split. Qed.

(** C10.  The message has a pending tag and no rendered element: the call
    sets the mark and returns without removing it; when the element is
    there later, the next trigger is rejected and the tag stays pending. *)
Lemma mark_left_when_element_missing :
  let log := lit "A castle: [IMG:GEN:{`prompt`:`a castle`}]" in
  let w0 := World true [Message log false] (fun _ => NoElement) (fun _ => true) ∅ [] [] in
  let w1 := run w0 [Trigger 0; ResumeParse 0] in
  let w1' := World (enabled w1) (chat w1) (fun _ => Rendered) (fileExists w1)
               (processingMessages w1) (saves w1) (calls w1) in
  let w2 := run w1' [Trigger 0; ResumeParse 1] in
  map c_state (calls w1) = [TReturned]
  ∧ elements (processingMessages w1) = [0]
  ∧ map c_state (calls w2) = [TReturned; TReturned]
  ∧ map c_tags (calls w2) !! 1 = Some []
  ∧ activeRuns w2 0 = 0
  ∧ elements (processingMessages w2) = [0]
  ∧ map mes (chat w2) = [log].
Proof. vm_compute. repeat split. Qed.

(** C9.  The prompt of the first tag is an array: its job is rejected
    before its [try], the join rejects at once, the call ends without
    [saveChat], and the rewrite that the second job makes later is never
    saved by this call. *)
Lemma join_rejected_no_save :
  let log := lit "<img data-iig-instruction='{`prompt`:[`a knight`,`at dawn`]}' src=`[IMG:GEN]`> [IMG:GEN:{`prompt`:`a castle`}]" in
  let w0 := World true [Message log false] (fun _ => Rendered) (fun _ => true) ∅ [] [] in
  let w1 := run w0 [Trigger 0; ResumeParse 0] in
  let w2 := run w1 [ResumeJoin 0] in
  let w3 := run w2 [Settle 0 1 (OutDone (lit "/user/images/a.png")); ResumeJoin 0; ResumeSave 0] in
  map (fun t => map prompt (c_tags t)) (calls w1)
  = [[JArr [JStr (lit "a knight"); JStr (lit "at dawn")]; JStr (lit "a castle")]]
  ∧ map c_jobs (calls w1) = [[JRejected; JRunning]]
  ∧ map c_state (calls w2) = [TThrew]
  ∧ map c_jobs (calls w2) = [[JRejected; JRunning]]
  ∧ saves w2 = []
  ∧ map c_jobs (calls w3) = [[JRejected; JFulfilled]]
  ∧ map mes (chat w3)
    = [lit "<img data-iig-instruction='{`prompt`:[`a knight`,`at dawn`]}' src=`[IMG:GEN]`> [IMG:"
       ++ [10003%N] ++ lit ":/user/images/a.png]"]
  ∧ saves w3 = [].
Proof. vm_compute. repeat split. Qed.

(** When every job starts, the join waits for all of them, whatever their
    outcomes, and [saveChat] is called once, after the last one. *)
Lemma join_waits_for_all_jobs :
  let log := lit "<img data-iig-instruction='{`prompt`:`a knight`}' src=`[IMG:GEN]`> [IMG:GEN:{`prompt`:`a castle`}]" in
  let w0 := World true [Message log false] (fun _ => Rendered) (fun _ => true) ∅ [] [] in
  let w1 := run w0 [Trigger 0; ResumeParse 0;
                    Settle 0 1 (OutError (Error (apiError 500 (lit "boom")))); ResumeJoin 0] in
  let w2 := run w1 [Settle 0 0 (OutDone (lit "/user/images/a.png")); ResumeJoin 0;
                    ResumeJoin 0; ResumeSave 0] in
  map c_state (calls w1) = [TJoin]
  ∧ saves w1 = []
  ∧ map c_state (calls w2) = [TReturned]
  ∧ map (fun s => map mes s.2) (saves w2)
    = [[lit "<img data-iig-instruction='{`prompt`:`a knight`}' src=`/user/images/a.png`> [IMG:ERROR:API Error (500): boom]"]]
  ∧ elements (processingMessages w2) = [].
Proof. vm_compute. repeat split. Qed.

(** The [finally] of the join removes the mark. *)
Lemma resumeJoin_removes_mark (w : world) (i messageId : nat) (tags : list tag)
    (jobs : list jobState) :
  calls w !! i = Some (Call messageId tags jobs TJoin) →
  existsb isRejected jobs = true ∨ forallb isFulfilled jobs = true →
  messageId ∉ processingMessages (resumeJoin w i).
Proof.
  intros Ht Hjobs. unfold resumeJoin. rewrite Ht.
  assert (Hgone : messageId ∉ processingMessages w ∖ {[messageId]}).
  { intros [_ Hn]%elem_of_difference. apply Hn, elem_of_singleton. reflexivity. }
  destruct (existsb isRejected jobs); [exact Hgone |].
  destruct Hjobs as [| Hall]; [discriminate |]. rewrite Hall. exact Hgone.
Qed.

(** ** One save for each run, after the join *)

Lemma savesOf_app (w : world) (i j : nat) (c : list message) :
  length (List.filter (fun s => Nat.eqb s.1 i) (saves w ++ [(j, c)]))
  = savesOf w i + (if Nat.eqb j i then 1 else 0).
Proof.
  unfold savesOf. rewrite List.filter_app, length_app. cbn.
  destruct (Nat.eqb j i); reflexivity.
Qed.

Lemma savesOf_fresh (w : world) (i : nat) :
  (∀ s, s ∈ saves w → s.1 < i) → savesOf w i = 0.
Proof.
  unfold savesOf. induction (saves w) as [| s l IH]; intros Hb; [reflexivity |].
  cbn [List.filter]. destruct (Nat.eqb_spec s.1 i) as [He | _].
  - specialize (Hb s (list_elem_of_here _ _)). lia.
  - apply IH. intros s' Hs'. apply Hb. right. exact Hs'.
Qed.

Lemma forallb_fulfilled_lookup (jobs : list jobState) (j : nat) :
  forallb isFulfilled jobs = true → jobs !! j = Some JRunning → False.
Proof.
  intros Hall Hj. rewrite forallb_forall in Hall.
  apply list_elem_of_lookup_2, list_elem_of_In, Hall in Hj. discriminate.
Qed.

Lemma callOk_ext (w w' : world) (i : nat) (t : call) :
  saves w' = saves w → callOk w i t → callOk w' i t.
Proof. unfold callOk, savesOf. intros ->. auto. Qed.

Lemma saveInv_update (w w' : world) (i : nat) (t' : call) :
  saveInv w →
  saves w' = saves w →
  calls w' = <[i := t']> (calls w) →
  (i < length (calls w) → callOk w i t') →
  saveInv w'.
Proof.
  intros [Hcalls Hbound] Hsaves Hts Hnew. split.
  - intros k t Hk. rewrite Hts in Hk.
    destruct (decide (k = i)) as [-> | Hne].
    + pose proof (lookup_lt_Some _ _ _ Hk) as Hlt. rewrite length_insert in Hlt.
      rewrite list_lookup_insert_eq in Hk by exact Hlt. simplify_eq.
      apply (callOk_ext w); auto.
    + rewrite list_lookup_insert_ne in Hk by auto.
      apply (callOk_ext w); auto.
  - intros s Hs. rewrite Hsaves in Hs. rewrite Hts, length_insert. auto.
Qed.

Lemma saveInv_exec (w : world) (a : action) : saveInv w → saveInv (exec w a).
Proof.
  intros Hinv. destruct a as [messageId | i | i j o | i | i]; cbn [exec].
  - (* Trigger *)
    assert (Happend : ∀ t', c_state t' = TReturned ∨ c_state t' = TParsing →
                            saveInv (setCalls w (calls w ++ [t']))).
    { intros t' Hst. destruct Hinv as [Hcalls Hbound]. split.
      - intros k t Hk. cbn [calls setCalls] in Hk.
        apply lookup_app_Some in Hk as [Hk | [Hlen Hk]].
        + apply (callOk_ext w); auto.
        + destruct (k - length (calls w)) eqn:Hd; [| destruct n; discriminate].
          cbn in Hk. simplify_eq. assert (k = length (calls w)) as -> by lia.
          assert (H0 : savesOf w (length (calls w)) = 0) by (apply savesOf_fresh; exact Hbound).
          unfold callOk. destruct Hst as [-> | ->];
            [left |]; unfold savesOf in *; cbn [saves setCalls]; exact H0.
      - intros s Hs. cbn [saves setCalls calls] in *. rewrite length_app. cbn.
        specialize (Hbound s Hs). lia. }
    unfold trigger.
    destruct (negb (enabled w)); [apply Happend; left; reflexivity |].
    destruct (bool_decide _); [apply Happend; left; reflexivity |].
    destruct (chat w !! messageId) as [m |]; [| apply Happend; left; reflexivity].
    destruct (is_user m); apply Happend; [left | right]; reflexivity.
  - (* ResumeParse *)
    unfold resumeParse.
    destruct (calls w !! i) as [[messageId tags jobs st] |] eqn:Ht; [| exact Hinv].
    destruct st; try exact Hinv.
    assert (H0 : savesOf w i = 0).
    { destruct Hinv as [Hcalls _]. exact (Hcalls _ _ Ht). }
    destruct (bool_decide (tags = [])).
    + eapply (saveInv_update w); [exact Hinv | reflexivity | reflexivity |].
      intros _. left. exact H0.
    + destruct (dom w messageId);
        (eapply (saveInv_update w); [exact Hinv | reflexivity | reflexivity |]);
        intros _; first [left; exact H0 | exact H0].
  - (* Settle *)
    unfold settle.
    destruct (calls w !! i) as [[messageId tags jobs st] |] eqn:Ht; [| exact Hinv].
    destruct (jobs !! j) as [[| |] |] eqn:Hj; try exact Hinv.
    destruct (tags !! j) as [t |]; [| exact Hinv].
    assert (Hok : ∀ jobs', callOk w i (Call messageId tags jobs' st)).
    { intros jobs'. destruct Hinv as [Hcalls _]. specialize (Hcalls _ _ Ht).
      unfold callOk in *. cbn [c_state c_jobs] in *.
      destruct st; auto.
      - destruct Hcalls as [_ Hall]. destruct (forallb_fulfilled_lookup _ _ Hall Hj).
      - destruct Hcalls as [H0 | [_ Hall]]; [left; exact H0 |].
        destruct (forallb_fulfilled_lookup _ _ Hall Hj). }
    destruct o as [imagePath | [msg |]];
      (eapply (saveInv_update w); [exact Hinv | reflexivity | reflexivity |]);
      intros _; apply Hok.
  - (* ResumeJoin *)
    unfold resumeJoin.
    destruct (calls w !! i) as [[messageId tags jobs st] |] eqn:Ht; [| exact Hinv].
    destruct st; try exact Hinv.
    assert (H0 : savesOf w i = 0).
    { destruct Hinv as [Hcalls _]. exact (Hcalls _ _ Ht). }
    destruct (existsb isRejected jobs).
    + eapply (saveInv_update w); [exact Hinv | reflexivity | reflexivity |].
      intros _. exact H0.
    + destruct (forallb isFulfilled jobs) eqn:Hall; [| exact Hinv].
      destruct Hinv as [Hcalls Hbound]. split.
      * intros k t Hk. cbn [calls setCalls] in Hk.
        unfold callOk, savesOf. cbn [saves setCalls addSave setProcessing].
        rewrite savesOf_app.
        destruct (decide (k = i)) as [-> | Hne].
        -- pose proof (lookup_lt_Some _ _ _ Hk) as Hlt. rewrite length_insert in Hlt.
           rewrite list_lookup_insert_eq in Hk by exact Hlt. simplify_eq.
           cbn [c_state c_jobs]. rewrite Nat.eqb_refl, H0. split; [reflexivity | exact Hall].
        -- rewrite list_lookup_insert_ne in Hk by auto.
           destruct (Nat.eqb_spec i k) as [-> | _]; [contradiction |].
           rewrite Nat.add_0_r. exact (Hcalls _ _ Hk).
      * intros s Hs. cbn [saves setCalls addSave setProcessing calls] in *.
        rewrite length_insert. apply elem_of_app in Hs as [Hs | Hs]; [auto |].
        apply list_elem_of_singleton in Hs as ->. cbn.
        apply lookup_lt_Some in Ht. exact Ht.
  - (* ResumeSave *)
    unfold resumeSave.
    destruct (calls w !! i) as [[messageId tags jobs st] |] eqn:Ht; [| exact Hinv].
    destruct st; try exact Hinv.
    eapply (saveInv_update w); [exact Hinv | reflexivity | reflexivity |].
    intros _. right. destruct Hinv as [Hcalls _]. exact (Hcalls _ _ Ht).
Qed.

Lemma saveInv_run (schedule : list action) :
  ∀ w, saveInv w → saveInv (run w schedule).
Proof.
  induction schedule as [| a schedule IH]; intros w Hinv; [exact Hinv |].
  cbn [run fold_left]. apply IH, saveInv_exec, Hinv.
Qed.

(** X23.  Whatever the triggers, the outcomes of the jobs and the order of
    the steps: a call of [processMessageTags] calls [saveChat] at most once,
    and when it has called it, every one of its jobs is fulfilled. *)
Lemma saveChat_once_after_all_jobs (en : bool) (c : list message) (d : nat → domState)
    (probe : jsstring → bool) (schedule : list action) (i : nat) (t : call) :
  let w := run (World en c d probe ∅ [] []) schedule in
  calls w !! i = Some t →
  savesOf w i ≤ 1
  ∧ (savesOf w i = 1 → forallb isFulfilled (c_jobs t) = true)
  ∧ (c_state t = TSaving → savesOf w i = 1).
Proof.
  intros w Ht.
  assert (Hinv : saveInv w).
  { apply saveInv_run. split; [intros k t' Hk; discriminate | intros s Hs; inversion Hs]. }
  destruct Hinv as [Hcalls _]. specialize (Hcalls _ _ Ht). unfold callOk in Hcalls.
  destruct (c_state t).
  - rewrite Hcalls. repeat split; first [lia | discriminate].
  - rewrite Hcalls. repeat split; first [lia | discriminate].
  - destruct Hcalls as [-> Hall]. repeat split; auto.
  - destruct Hcalls as [-> | [-> Hall]]; repeat split; first [lia | discriminate | auto].
  - rewrite Hcalls. repeat split; first [lia | discriminate].
Qed.

(** A job that was started is fulfilled by its outcome, be it an image or
    an error with a message; the join then goes on to [saveChat]. *)
Lemma settle_fulfils (w : world) (i j : nat) (messageId : nat) (tags : list tag)
    (jobs : list jobState) (st : callState) (t : tag) (o : jobOutcome) :
  calls w !! i = Some (Call messageId tags jobs st) →
  jobs !! j = Some JRunning → tags !! j = Some t →
  o ≠ OutError ThrownUndefined →
  calls (settle w i j o) !! i = Some (Call messageId tags (<[j := JFulfilled]> jobs) st).
Proof.
  intros Ht Hj Htag Ho. unfold settle. rewrite Ht, Hj, Htag.
  pose proof (lookup_lt_Some _ _ _ Ht) as Hlt.
  destruct o as [imagePath | [msg |]]; [| | contradiction];
    cbn [calls setCalls]; apply list_lookup_insert_eq; exact Hlt.
Qed.

Lemma resumeJoin_saves (w : world) (i messageId : nat) (tags : list tag)
    (jobs : list jobState) :
  calls w !! i = Some (Call messageId tags jobs TJoin) →
  forallb isFulfilled jobs = true →
  saves (resumeJoin w i) = saves w ++ [(i, chat w)]
  ∧ calls (resumeJoin w i) !! i = Some (Call messageId tags jobs TSaving).
Proof.
  intros Ht Hall. unfold resumeJoin. rewrite Ht.
  assert (Hrej : existsb isRejected jobs = false).
  { apply not_true_is_false. intros Hex. apply existsb_exists in Hex as (x & Hx & Hr).
    rewrite forallb_forall in Hall. apply Hall in Hx. destruct x; discriminate. }
  rewrite Hrej, Hall. split; [reflexivity |].
  cbn [calls setCalls]. apply list_lookup_insert_eq. apply lookup_lt_Some in Ht. exact Ht.
Qed.

(** * Further properties of the code *)

(** ** The log buffer *)

Lemma iigLog_step (b : list jsstring) (timestamp level message : jsstring) :
  length b ≤ MAX_LOG_ENTRIES →
  iigLog b timestamp level message
  = drop (length b + 1 - MAX_LOG_ENTRIES) (b ++ [logEntry timestamp level message]).
Proof.
  intros Hb. unfold iigLog. cbv zeta. rewrite length_app. cbn [length].
  unfold MAX_LOG_ENTRIES in *.
  destruct (Nat.ltb_spec 200 (length b + 1)) as [Hlt | Hge].
  - replace (length b + 1 - 200) with 1 by lia. reflexivity.
  - replace (length b + 1 - 200) with 0 by lia. reflexivity.
Qed.

Lemma iigLogAll_from (logged : list (jsstring * jsstring * jsstring)) :
  ∀ b, length b ≤ MAX_LOG_ENTRIES →
    iigLogAll b logged
    = drop (length b + length logged - MAX_LOG_ENTRIES) (b ++ map entryOf logged).
Proof.
  induction logged as [| [[timestamp level] message] logged IH]; intros b Hb.
  - cbn. rewrite app_nil_r, Nat.add_0_r.
    replace (length b - MAX_LOG_ENTRIES) with 0 by lia. reflexivity.
  - unfold iigLogAll. cbn [fold_left]. fold (iigLogAll (iigLog b timestamp level message) logged).
    rewrite iigLog_step by exact Hb.
    set (e := logEntry timestamp level message).
    set (k := length b + 1 - MAX_LOG_ENTRIES).
    assert (Hk : k ≤ length (b ++ [e])) by (rewrite length_app; cbn [length]; lia).
    assert (Hlen : length (drop k (b ++ [e])) = length b + 1 - k).
    { rewrite length_drop, length_app. reflexivity. }
    rewrite IH by (rewrite Hlen; unfold k, MAX_LOG_ENTRIES in *; lia).
    rewrite Hlen. rewrite <- drop_app_le by exact Hk. rewrite drop_drop.
    cbn [map length]. rewrite <- app_assoc. cbn [app]. unfold entryOf at 2. cbn [fst snd].
    fold e. f_equal. unfold k, MAX_LOG_ENTRIES in *. lia.
Qed.

(** X1.  Starting from the empty buffer of a fresh page, after any
    sequence of calls of [iigLog] the buffer holds the entries of the last
    200 calls, oldest first, and nothing else; it never holds more than
    200 entries. *)
Theorem logBuffer_keeps_last_entries (logged : list (jsstring * jsstring * jsstring)) :
  iigLogAll [] logged = drop (length logged - MAX_LOG_ENTRIES) (map entryOf logged)
  ∧ length (iigLogAll [] logged) ≤ MAX_LOG_ENTRIES.
Proof.
  assert (H : iigLogAll [] logged
              = drop (length logged - MAX_LOG_ENTRIES) (map entryOf logged)).
  { rewrite iigLogAll_from by (cbn; lia). reflexivity. }
  split; [exact H |]. rewrite H, length_drop, length_map. lia.
Qed.

(** ** Settings *)

Lemma ensureKey_lookup (l : list (jsstring * jsval)) :
  ∀ (o : gmap jsstring jsval) (k : jsstring),
    fold_left ensureKey l o !! k
    = match o !! k with
      | Some v => Some v
      | None => (list_to_map l : gmap jsstring jsval) !! k
      end.
Proof.
  induction l as [| [k0 v0] l IH]; intros o k.
  - cbn. rewrite lookup_empty. destruct (o !! k); reflexivity.
  - cbn [fold_left]. rewrite IH, list_to_map_cons. unfold ensureKey. cbn [fst snd].
    destruct (o !! k0) as [w |] eqn:H0.
    + destruct (o !! k) as [v |] eqn:Hk; [reflexivity |].
      rewrite lookup_insert_ne by congruence. reflexivity.
    + destruct (decide (k0 = k)) as [-> | Hne].
      * rewrite lookup_insert_eq, H0, lookup_insert_eq. reflexivity.
      * rewrite !lookup_insert_ne by exact Hne. reflexivity.
Qed.

(** X2.  [getSettings] never overwrites a stored value, whatever the
    property: a property that is stored keeps its value, also when it is
    none of the defaults; one that is not stored gets its default value,
    if it has one.  Calling the function again on its result changes
    nothing. *)
Theorem getSettings_keeps_stored_fills_defaults (stored : option (gmap jsstring jsval))
    (k : jsstring) :
  getSettings stored !! k
  = match stored ≫= (fun o => o !! k) with
    | Some v => Some v
    | None => defaultOf k
    end
  ∧ getSettings (Some (getSettings stored)) = getSettings stored.
Proof.
  assert (Hlookup : ∀ st k', getSettings st !! k'
                    = match st ≫= (fun o => o !! k') with
                      | Some v => Some v
                      | None => defaultOf k'
                      end).
  { intros st k'. unfold getSettings. cbv zeta. rewrite ensureKey_lookup.
    destruct st as [o |]; cbn [mbind option_bind]; [reflexivity |].
    unfold defaultOf. destruct (_ !! k'); reflexivity. }
  split; [apply Hlookup |].
  apply map_eq. intros k'. rewrite (Hlookup (Some _)). cbn [mbind option_bind].
  destruct (getSettings stored !! k') as [v |] eqn:Hv; [reflexivity |].
  rewrite Hlookup in Hv. destruct (stored ≫= _); [discriminate | exact Hv].
Qed.

(** ** The requests *)

Lemma listIncludes_strictEq (l : list jsstring) (v : jsval) :
  listIncludes l v = true → truthy v = true ∨ In [] l.
Proof.
  unfold listIncludes. intros H. apply existsb_exists in H as (x & Hx & Heq).
  destruct v; try discriminate. cbn in Heq. apply bool_decide_eq_true in Heq as ->.
  destruct x as [| c x]; [right; exact Hx | left; reflexivity].
Qed.

(** X3.  [generateImageGemini] either throws before it sends a request
    or sends one of the ten valid aspect ratios, and likewise one of the
    three valid image sizes.  A valid value of the tag is the one sent;
    when the tag has none or an invalid one, a valid value of the
    settings is sent, and [1:1] and [1K] otherwise.  The function throws
    exactly when the value it first picks is invalid and cannot be
    converted to a string for the warning (a decoded object with a
    property [toString], or an array that holds one). *)
Theorem gemini_request_options_valid (ps : providerSettings) (options : genOptions) :
  let ratio := jsOr (jsOr (o_aspectRatio options) (p_aspectRatio ps)) (JStr (lit "1:1")) in
  let size := jsOr (jsOr (o_imageSize options) (p_imageSize ps)) (JStr (lit "1K")) in
  (geminiAspectRatio ps options = None
   ↔ listIncludes VALID_ASPECT_RATIOS ratio = false ∧ canConvert ratio = false)
  ∧ (∀ r, geminiAspectRatio ps options = Some r →
       listIncludes VALID_ASPECT_RATIOS r = true
       ∧ (if listIncludes VALID_ASPECT_RATIOS (o_aspectRatio options)
          then r = o_aspectRatio options
          else if listIncludes VALID_ASPECT_RATIOS (p_aspectRatio ps)
               then r = p_aspectRatio ps
               else r = JStr (lit "1:1")))
  ∧ (geminiImageSize ps options = None
     ↔ listIncludes VALID_IMAGE_SIZES size = false ∧ canConvert size = false)
  ∧ (∀ r, geminiImageSize ps options = Some r →
       listIncludes VALID_IMAGE_SIZES r = true
       ∧ (if listIncludes VALID_IMAGE_SIZES (o_imageSize options)
          then r = o_imageSize options
          else if listIncludes VALID_IMAGE_SIZES (p_imageSize ps)
               then r = p_imageSize ps
               else r = JStr (lit "1K"))).
Proof.
  assert (Hgen : ∀ (valid : list jsstring) (fallback : jsstring) (o p : jsval),
            ¬ In [] valid →
            listIncludes valid (JStr fallback) = true →
            let chosen := jsOr (jsOr o p) (JStr fallback) in
            let result :=
              if negb (listIncludes valid chosen)
              then if canConvert chosen
                   then Some (if listIncludes valid p then p else JStr fallback)
                   else None
              else Some chosen in
            (result = None ↔ listIncludes valid chosen = false ∧ canConvert chosen = false)
            ∧ (∀ r, result = Some r →
                 listIncludes valid r = true
                 ∧ (if listIncludes valid o then r = o
                    else if listIncludes valid p then r = p else r = JStr fallback))).
  { intros valid fallback o p Hne Hfb. cbv zeta.
    assert (Htruthy : ∀ v, listIncludes valid v = true → truthy v = true).
    { intros v Hv. apply listIncludes_strictEq in Hv as [| Hin]; [assumption | contradiction]. }
    assert (Hchosen : jsOr (jsOr o p) (JStr fallback)
                      = if truthy o then o else if truthy p then p else JStr fallback).
    { unfold jsOr. destruct (truthy o) eqn:Hto; cbv beta iota; [rewrite Hto; reflexivity |].
      destruct (truthy p); reflexivity. }
    rewrite Hchosen. clear Hchosen.
    assert (Hcase : ∀ chosen expected,
              (listIncludes valid chosen = true → expected = chosen) →
              listIncludes valid expected = true →
              let result :=
                if negb (listIncludes valid chosen)
                then if canConvert chosen then Some expected else None
                else Some chosen in
              (result = None ↔ listIncludes valid chosen = false ∧ canConvert chosen = false)
              ∧ (∀ r, result = Some r → listIncludes valid r = true ∧ r = expected)).
    { intros chosen expected Hsame Hexp. cbv zeta.
      destruct (listIncludes valid chosen) eqn:Hc; cbn [negb].
      - split; [split; [discriminate | intros [? _]; discriminate] |].
        intros r [= <-]. split; [exact Hc | symmetry; apply Hsame; reflexivity].
      - destruct (canConvert chosen).
        + split; [split; [discriminate | intros [_ ?]; discriminate] |].
          intros r [= <-]. split; [exact Hexp | reflexivity].
        + split; [split; [intros _; split; reflexivity | reflexivity] |].
          intros r H. discriminate H. }
    destruct (listIncludes valid o) eqn:Ho.
    - rewrite (Htruthy _ Ho).
      destruct (Hcase o o (fun _ => eq_refl) Ho) as [Hnone Hsome]. cbv zeta in Hnone, Hsome.
      rewrite Ho in Hnone, Hsome |- *. cbn [negb] in Hnone, Hsome |- *.
      split; [exact Hnone |]. intros r Hr. exact (Hsome r Hr).
    - destruct (listIncludes valid p) eqn:Hp.
      + rewrite (Htruthy _ Hp). destruct (truthy o).
        * destruct (Hcase o p) as [Hnone Hsome]; [rewrite Ho; discriminate | exact Hp |].
          cbv zeta in Hnone, Hsome. split; [exact Hnone | exact Hsome].
        * destruct (Hcase p p (fun _ => eq_refl) Hp) as [Hnone Hsome].
          cbv zeta in Hnone, Hsome. rewrite Hp in Hnone, Hsome |- *.
          cbn [negb] in Hnone, Hsome |- *. split; [exact Hnone | exact Hsome].
      + destruct (truthy o).
        * destruct (Hcase o (JStr fallback)) as [Hnone Hsome];
            [rewrite Ho; discriminate | exact Hfb |].
          cbv zeta in Hnone, Hsome. split; [exact Hnone | exact Hsome].
        * destruct (truthy p).
          -- destruct (Hcase p (JStr fallback)) as [Hnone Hsome];
               [rewrite Hp; discriminate | exact Hfb |].
             cbv zeta in Hnone, Hsome. rewrite Hp in Hnone, Hsome |- *.
             split; [exact Hnone | exact Hsome].
          -- destruct (Hcase (JStr fallback) (JStr fallback) (fun _ => eq_refl) Hfb)
               as [Hnone Hsome].
             cbv zeta in Hnone, Hsome. rewrite Hfb in Hnone, Hsome |- *.
             cbn [negb] in Hnone, Hsome |- *. split; [exact Hnone | exact Hsome]. }
  cbv zeta.
  destruct (Hgen VALID_ASPECT_RATIOS (lit "1:1") (o_aspectRatio options) (p_aspectRatio ps))
    as [Ha1 Ha2]; [vm_compute; intuition discriminate | vm_compute; reflexivity |].
  destruct (Hgen VALID_IMAGE_SIZES (lit "1K") (o_imageSize options) (p_imageSize ps))
    as [Hs1 Hs2]; [vm_compute; intuition discriminate | vm_compute; reflexivity |].
  cbv zeta in Ha1, Ha2, Hs1, Hs2.
  split; [exact Ha1 |]. split; [exact Ha2 |]. split; [exact Hs1 | exact Hs2].
Qed.

(** ** The list of models *)

Lemma filterModels_ids (toLowerCase : jsstring → jsstring) (models : list jsval)
    (ids : list jsstring) :
  Forall2 (fun m id => getProp m (lit "id") = Some (JStr id)) models ids →
  ∃ kept, filterModels toLowerCase models = Some kept
          ∧ map (fun m => default JUndefined (getProp m (lit "id"))) kept
            = map JStr (List.filter (isImageModel toLowerCase) ids).
Proof.
  induction 1 as [| m id models ids Hm _ IH]; [exists []; split; reflexivity |].
  destruct IH as (kept & Hkept & Hmap).
  cbn [filterModels List.filter]. unfold keepsModel. rewrite Hm, Hkept.
  destruct (isImageModel toLowerCase id).
  - exists (m :: kept). split; [reflexivity |]. cbn [map]. rewrite Hm, Hmap. reflexivity.
  - exists kept. split; [reflexivity | exact Hmap].
Qed.

(** X4.  When the response of [/v1/models] lists entries that all have a
    string [id], [fetchModels] returns the ids that [isImageModel]
    accepts, in the order of the response, and no other value; none of
    the ids returned names a video keyword, whatever image keyword it
    names besides. *)
Theorem fetchModels_lists_image_models (toLowerCase : jsstring → jsstring) (s : settings)
    (data : jsval) (models : list jsval) (ids : list jsstring) :
  endpoint s ≠ [] → apiKey s ≠ [] →
  getProp data (lit "data") = Some (JArr models) →
  Forall2 (fun m id => getProp m (lit "id") = Some (JStr id)) models ids →
  fetchModels toLowerCase s (OkBody (Some data))
  = map JStr (List.filter (isImageModel toLowerCase) ids)
  ∧ ∀ id kw, JStr id ∈ fetchModels toLowerCase s (OkBody (Some data)) →
             kw ∈ VIDEO_MODEL_KEYWORDS → includes kw (toLowerCase id) = false.
Proof.
  intros He Hk Hdata Hids.
  assert (Heq : fetchModels toLowerCase s (OkBody (Some data))
                = map JStr (List.filter (isImageModel toLowerCase) ids)).
  { unfold fetchModels, jseq. rewrite !bool_decide_eq_false_2 by assumption. cbn [orb].
    rewrite Hdata. cbn [jsOr truthy].
    destruct (filterModels_ids toLowerCase models ids Hids) as (kept & -> & Hmap).
    exact Hmap. }
  split; [exact Heq |]. intros id kw Hin Hkw. rewrite Heq in Hin.
  apply list_elem_of_fmap in Hin as (id' & [= <-] & Hin).
  apply list_elem_of_In, filter_In in Hin as [_ Hacc].
  unfold isImageModel in Hacc. cbv zeta in Hacc.
  destruct (existsb _ VIDEO_MODEL_KEYWORDS) eqn:Hvideo; [discriminate |].
  destruct (includes kw (toLowerCase id)) eqn:Hinc; [| reflexivity].
  assert (Hex : existsb (fun kw => includes kw (toLowerCase id)) VIDEO_MODEL_KEYWORDS = true).
  { apply existsb_exists. exists kw. split; [apply list_elem_of_In; exact Hkw | exact Hinc]. }
  congruence.
Qed.

(** Three models, of which one is no image model and one names both an
    image and a video keyword. *)
Lemma fetchModels_three_models :
  let s := Settings (lit "https://api.example.com/") (lit "key") [] 0 1000 in
  let entry := fun id => JObj [(lit "id", JStr id); (lit "object", JStr (lit "model"))] in
  let data := JObj [(lit "object", JStr (lit "list"));
                    (lit "data", JArr [entry (lit "DALL-E-3"); entry (lit "gpt-4o");
                                       entry (lit "sora-image")])] in
  fetchModels asciiLower s (OkBody (Some data)) = [JStr (lit "DALL-E-3")].
Proof.
  intros s entry data.
  destruct (fetchModels_lists_image_models asciiLower s data
              [entry (lit "DALL-E-3"); entry (lit "gpt-4o"); entry (lit "sora-image")]
              [lit "DALL-E-3"; lit "gpt-4o"; lit "sora-image"]) as [Heq _].
  - discriminate.
  - discriminate.
  - vm_compute. reflexivity.
  - repeat constructor.
  - rewrite Heq. vm_compute. reflexivity.
Defined.

Lemma filterModels_bad_entry (toLowerCase : jsstring → jsstring) (m : jsval)
    (models : list jsval) :
  m ∈ models → (∀ id, getProp m (lit "id") ≠ Some (JStr id)) →
  filterModels toLowerCase models = None.
Proof.
  intros Hin Hbad. induction models as [| m' models IH]; [inversion Hin |].
  cbn [filterModels]. apply elem_of_cons in Hin as [<- | Hin].
  - unfold keepsModel. destruct (getProp m (lit "id")) as [[] |] eqn:Hm; try reflexivity.
    exfalso. eapply Hbad. reflexivity.
  - rewrite (IH Hin). destruct (keepsModel toLowerCase m'); reflexivity.
Qed.

(** X5.  One entry without a string [id] anywhere in the response makes
    [fetchModels] return the empty list, whatever the other entries are:
    the callback of [filter] throws on it and the [catch] gives up the
    whole list. *)
Theorem fetchModels_one_bad_entry_empties_list (toLowerCase : jsstring → jsstring)
    (s : settings) (data : jsval) (models : list jsval) (m : jsval) :
  getProp data (lit "data") = Some (JArr models) →
  m ∈ models →
  (∀ id, getProp m (lit "id") ≠ Some (JStr id)) →
  fetchModels toLowerCase s (OkBody (Some data)) = [].
Proof.
  intros Hdata Hin Hbad. unfold fetchModels.
  destruct (jseq (endpoint s) [] || jseq (apiKey s) []); [reflexivity |].
  rewrite Hdata. cbn [jsOr truthy].
  rewrite (filterModels_bad_entry toLowerCase m models Hin Hbad). reflexivity.
Qed.

(** Two image models and an entry whose [id] is a number. *)
Lemma fetchModels_numeric_id :
  let s := Settings (lit "https://api.example.com") (lit "key") [] 0 1000 in
  let data := JObj [(lit "data", JArr [JObj [(lit "id", JStr (lit "dall-e-3"))];
                                       JObj [(lit "id", JNum false 7 0)];
                                       JObj [(lit "id", JStr (lit "flux-pro"))]])] in
  fetchModels asciiLower s (OkBody (Some data)) = [].
Proof.
  intros s data.
  apply (fetchModels_one_bad_entry_empties_list asciiLower s data
           [JObj [(lit "id", JStr (lit "dall-e-3"))];
            JObj [(lit "id", JNum false 7 0)];
            JObj [(lit "id", JStr (lit "flux-pro"))]]
           (JObj [(lit "id", JNum false 7 0)])).
  - vm_compute. reflexivity.
  - apply elem_of_cons. right. apply elem_of_cons. left. reflexivity.
  - intros id. vm_compute. discriminate.
Defined.

(** ** The choice of the provider *)



(** ** Settings and retries *)

(** X7.  [validateSettings] lets a call through exactly when the
    endpoint, the key and the model are all set; otherwise its message
    names each missing setting and no setting that is there. *)
Theorem validateSettings_names_what_is_missing (s : settings) :
  (validateSettings s = None ↔ endpoint s ≠ [] ∧ apiKey s ≠ [] ∧ model s ≠ [])
  ∧ ∀ message, validateSettings s = Some (Error message) →
      startsWith msgSettingsPrefix message = true
      ∧ (includes msgNoEndpoint message = true ↔ endpoint s = [])
      ∧ (includes msgNoApiKey message = true ↔ apiKey s = [])
      ∧ (includes msgNoModel message = true ↔ model s = []).
Proof.
  unfold validateSettings, jseq. cbv zeta.
  destruct (decide (endpoint s = [])) as [He | He];
    destruct (decide (apiKey s = [])) as [Hk | Hk];
    destruct (decide (model s = [])) as [Hm | Hm];
    rewrite ?(bool_decide_eq_true_2 _ He), ?(bool_decide_eq_false_2 _ He),
      ?(bool_decide_eq_true_2 _ Hk), ?(bool_decide_eq_false_2 _ Hk),
      ?(bool_decide_eq_true_2 _ Hm), ?(bool_decide_eq_false_2 _ Hm);
    cbn [app]; (split; [split; [try discriminate; tauto | tauto] |]);
    intros message [= <-]; try discriminate;
    (split; [vm_compute; reflexivity |]);
    repeat split; intros H; first [assumption | vm_compute in H; discriminate
                                  | vm_compute; reflexivity | contradiction].
Qed.

Lemma backoff_sum (s : settings) (n : nat) :
  ∀ a, fold_right Z.add 0%Z (map (backoff s) (seq a n))
       = (retryDelay s * 2 ^ Z.of_nat a * (2 ^ Z.of_nat n - 1))%Z.
Proof.
  induction n as [| n IH]; intros a.
  - cbn [seq map fold_right]. change (Z.of_nat 0) with 0%Z. rewrite Z.pow_0_r. lia.
  - cbn [seq map fold_right]. rewrite IH. unfold backoff.
    rewrite !Nat2Z.inj_succ, !Z.pow_succ_r by lia. ring.
Qed.

(** X8.  Whatever the settings and the provider, [generateImageWithRetry]
    calls the provider at most [maxRetries + 1] times, and the time it
    waits between its [n] attempts adds up to
    [retryDelay * (2 ^ (n - 1) - 1)].  With a setting missing it calls
    the provider not at all and throws the error of [validateSettings];
    under a negative ceiling it calls the provider not at all and throws
    [undefined]. *)
Theorem retry_attempts_and_total_delay (s : settings) (provider : nat → attemptResult) :
  let r := generateImageWithRetry s provider in
  attempts r ≤ Z.to_nat (maxRetries s + 1)
  ∧ length (delays r) = attempts r - 1
  ∧ totalDelay r = (retryDelay s * (2 ^ Z.of_nat (attempts r - 1) - 1))%Z
  ∧ (∀ e, validateSettings s = Some e →
       attempts r = 0 ∧ delays r = [] ∧ outcome r = GenThrow e)
  ∧ (validateSettings s = None → (maxRetries s < 0)%Z →
       attempts r = 0 ∧ delays r = [] ∧ outcome r = GenThrow ThrownUndefined).
Proof.
  cbv zeta. unfold generateImageWithRetry, totalDelay.
  destruct (validateSettings s) as [e |].
  { cbn. split; [lia |]. split; [reflexivity |]. split; [lia |].
    split; [| discriminate]. intros e' [= <-]. repeat split. }
  destruct (Z.to_nat (maxRetries s + 1)) as [| n] eqn:Hn.
  { cbn. split; [lia |]. split; [reflexivity |]. split; [lia |].
    split; [discriminate |]. intros _ _. repeat split. }
  destruct (attemptLoop_spec s provider (S n) 0 ThrownUndefined) as (Hatt & Hdel & _);
    [lia | lia |].
  set (r := attemptLoop (S n) s provider 0 ThrownUndefined) in *.
  split; [lia |]. rewrite Hdel. split; [| split; [| split]].
  - rewrite length_map, length_seq. reflexivity.
  - rewrite backoff_sum. change (Z.of_nat 0) with 0%Z. rewrite Z.pow_0_r. ring.
  - discriminate.
  - intros _ Hneg. lia.
Qed.

Lemma attemptLoop_always_retryable (s : settings) (provider : nat → attemptResult) :
  (∀ k, ∃ message, provider k = Threw message ∧ isRetryable message = true) →
  ∀ remaining attempt lastError,
    1 ≤ remaining →
    (Z.of_nat attempt + Z.of_nat remaining = maxRetries s + 1)%Z →
    attempts (attemptLoop remaining s provider attempt lastError) = remaining.
Proof.
  intros Hp remaining attempt lastError Hrem Hsum.
  destruct (attemptLoop_spec s provider remaining attempt lastError Hrem Hsum)
    as (Hatt & _ & _ & Hend).
  set (r := attemptLoop remaining s provider attempt lastError) in *.
  unfold endsAt in Hend.
  destruct (Hp (attempt + (attempts r - 1))) as (message & Hm & Hretry).
  rewrite Hm in Hend. destruct Hend as [_ [Hno | Hlast]]; [congruence | lia].
Qed.

(** X9.  Once the field of the retry ceiling has been edited, automatic
    retry cannot be off: the handler never stores 0 (a text that reads as
    zero, or as no number, stores 3), so with valid settings a provider
    that keeps failing with retryable errors is called [maxRetries + 1]
    times, which is never once: four times after the text [0], not at all
    after a negative number.  The one case left out is a text whose
    digits read as an infinity, which the handler stores as it is. *)
Theorem maxRetries_field_never_stores_zero (s : settings) (value : jsstring)
    (provider : nat → attemptResult) :
  validateSettings s = None →
  (∀ k, ∃ message, provider k = Threw message ∧ isRetryable message = true) →
  match onMaxRetriesInput s value with
  | Some s' =>
      let r := generateImageWithRetry s' provider in
      maxRetries s' ≠ 0%Z
      ∧ attempts r = Z.to_nat (maxRetries s' + 1)
      ∧ attempts r ≠ 1
      ∧ (parseInt value = PNaN ∨ parseInt value = PInt 0 → attempts r = 4)
      ∧ ((maxRetries s' < 0)%Z → attempts r = 0)
  | None => ∃ negative, parseInt value = PInfinity negative
  end.
Proof.
  intros Hvalid Hp. unfold onMaxRetriesInput, parseIntOr.
  assert (Hatt : ∀ n,
            attempts (generateImageWithRetry
                        (Settings (endpoint s) (apiKey s) (model s) n (retryDelay s)) provider)
            = Z.to_nat (n + 1)).
  { intros n. unfold generateImageWithRetry.
    change (validateSettings (Settings (endpoint s) (apiKey s) (model s) n (retryDelay s)))
      with (validateSettings s).
    rewrite Hvalid. cbn [maxRetries].
    destruct (Z.to_nat (n + 1)) as [| k] eqn:Hk; [reflexivity |].
    apply attemptLoop_always_retryable; [exact Hp | lia | cbn [maxRetries]; lia]. }
  destruct (parseInt value) as [| n | negative] eqn:Hparse.
  - cbv zeta. rewrite Hatt. cbn [maxRetries]. repeat split; lia.
  - destruct (Z.eqb_spec n 0) as [-> | Hn].
    + cbv zeta. rewrite Hatt. cbn [maxRetries]. repeat split; lia.
    + cbv zeta. rewrite Hatt. cbn [maxRetries].
      split; [exact Hn |]. split; [reflexivity |]. split; [lia |]. split; [| lia].
      intros [H | H]; [discriminate | injection H as ->; contradiction].
  - exists negative. reflexivity.
Qed.

(** The text [0] in the field, and a provider that answers 503 every
    time: four calls, and seven times the base delay spent waiting. *)
Lemma maxRetries_field_zero :
  let s := Settings (lit "https://api.example.com") (lit "key") (lit "dall-e-3") 0 1000 in
  let provider := fun _ : nat => Threw (apiError 503 (lit "Service Unavailable")) in
  ∃ s', onMaxRetriesInput s (lit "0") = Some s'
        ∧ maxRetries s' = 3%Z
        ∧ attempts (generateImageWithRetry s' provider) = 4
        ∧ delays (generateImageWithRetry s' provider) = [1000; 2000; 4000]%Z.
Proof.
  intros s provider.
  pose proof (maxRetries_field_never_stores_zero s (lit "0") provider eq_refl
                (fun k => ex_intro _ (apiError 503 (lit "Service Unavailable"))
                            (conj eq_refl eq_refl))) as H.
  change (onMaxRetriesInput s (lit "0"))
    with (Some (Settings (endpoint s) (apiKey s) (model s) 3 (retryDelay s))) in H.
  cbv zeta in H. destruct H as (_ & _ & _ & H4 & _).
  eexists. split; [reflexivity |]. split; [reflexivity |].
  split; [apply H4; right; reflexivity | vm_compute; reflexivity].
Defined.

(** ** The modes of the parser *)

Lemma omap_sublist {A B : Type} (g g' : A → option B) (l : list A) :
  (∀ a b, g a = Some b → g' a = Some b) → sublist (omap g l) (omap g' l).
Proof.
  intros Hg. induction l as [| a l IH]; [constructor |].
  cbn [omap list_omap]. destruct (g a) as [b |] eqn:Ha.
  - rewrite (Hg a b Ha). constructor. exact IH.
  - destruct (g' a); [constructor |]; exact IH.
Qed.

Lemma parse_sublist (text : jsstring) (opts opts' : parseOptions)
    (probe probe' : jsstring → bool) :
  (∀ src, needsGeneration opts probe src = true → needsGeneration opts' probe' src = true) →
  sublist (parseImageTags text opts probe) (parseImageTags text opts' probe').
Proof.
  intros Hneeds. rewrite !parseImageTags_instructionsOf. unfold instructionsOf.
  apply sublist_app; [| reflexivity]. unfold newInstructions.
  apply omap_sublist. intros [k m] t. cbn [fst snd]. unfold newFormatBody. cbv zeta.
  destruct (needsGeneration opts probe _) eqn:Hn; [| discriminate].
  rewrite (Hneeds _ Hn). tauto.
Qed.

(** X10.  The three modes of [parseImageTags] are nested.  On the same
    text, every tag returned without options is returned, in the same
    order, when the existence of the files is checked, whatever the
    server answers; and every tag returned in either of these modes is
    returned under [forceAll].  So [regenerateMessageImages] sees every
    tag that [processMessageTags] sees, and checking existence only ever
    adds tags. *)
Theorem parse_modes_nested (text : jsstring) (probe probe' : jsstring → bool)
    (check check' : bool) :
  sublist (parseImageTags text (ParseOptions false false) probe)
          (parseImageTags text (ParseOptions true false) probe')
  ∧ sublist (parseImageTags text (ParseOptions check false) probe)
            (parseImageTags text (ParseOptions check' true) probe').
Proof.
  split; apply parse_sublist; intros src; unfold needsGeneration; cbn [forceAll checkExistence].
  - destruct (hasErrorImage src); cbn [andb negb]; [tauto |].
    destruct (hasMarker src || jseq src []); [tauto |].
    rewrite andb_false_r. discriminate.
  - intros _. rewrite andb_false_r. reflexivity.
Qed.

(** ** The spans of the tags *)

Section SweepApart.
Context {A : Type} (f : nat → jsstring → option (nat * A)).
Context (pos fin : A → nat).
Hypothesis f_adv : ∀ i s adv a, f i s = Some (adv, a) → 1 ≤ adv.
Hypothesis f_pos : ∀ i s adv a, f i s = Some (adv, a) → pos a = i.
Hypothesis f_fin : ∀ i s adv a, f i s = Some (adv, a) → fin a ≤ i + adv.

Lemma sweepFrom_apart (s : jsstring) :
  ∀ n i, Forall (fun a => i + n ≤ pos a) (sweepFrom f n i s)
         ∧ StronglySorted (fun a b => fin a ≤ pos b) (sweepFrom f n i s).
Proof using f_adv f_pos f_fin.
  induction s as [| c s IH]; intros n i; [split; constructor |].
  cbn [sweepFrom]. destruct n as [| n].
  - destruct (f i (c :: s)) as [[adv a] |] eqn:Hf.
    + destruct (IH (adv - 1) (S i)) as [Hge Hs].
      pose proof (f_adv _ _ _ _ Hf). pose proof (f_pos _ _ _ _ Hf).
      pose proof (f_fin _ _ _ _ Hf). split.
      * constructor; [lia |]. eapply Forall_impl; [exact Hge |]. simpl. lia.
      * constructor; [exact Hs |]. eapply Forall_impl; [exact Hge |]. simpl. lia.
    + destruct (IH 0 (S i)) as [Hge Hs]. split; [| exact Hs].
      eapply Forall_impl; [exact Hge |]. simpl. lia.
  - destruct (IH n (S i)) as [Hge Hs]. split; [| exact Hs].
    eapply Forall_impl; [exact Hge |]. simpl. lia.
Qed.

End SweepApart.

Lemma sweepFrom_within {A : Type} (f : nat → jsstring → option (nat * A)) (s : jsstring) :
  (∀ i, f i [] = None) →
  ∀ n i a, a ∈ sweepFrom f n i s →
    ∃ j adv, j < length s ∧ f (i + j) (drop j s) = Some (adv, a).
Proof.
  intros Hnil n i a Ha. apply sweepFrom_elem in Ha as (j & adv & Hf).
  exists j, adv. split; [| exact Hf].
  destruct (decide (j < length s)) as [| Hge]; [assumption |].
  rewrite drop_ge, Hnil in Hf by lia. discriminate.
Qed.

Lemma omap_StronglySorted {A B : Type} (g : A → option B) (R : A → A → Prop)
    (R' : B → B → Prop) (l : list A) :
  (∀ a b ta tb, a ∈ l → b ∈ l → g a = Some ta → g b = Some tb → R a b → R' ta tb) →
  StronglySorted R l → StronglySorted R' (omap g l).
Proof.
  induction l as [| a l IH]; intros Hg Hs; [constructor |].
  apply StronglySorted_inv in Hs as [Hs Hall].
  assert (Hg' : ∀ a b ta tb, a ∈ l → b ∈ l → g a = Some ta → g b = Some tb →
                             R a b → R' ta tb).
  { intros a' b' ta tb Ha' Hb'. apply Hg; right; assumption. }
  cbn [omap list_omap]. destruct (g a) as [ta |] eqn:Hga; [| exact (IH Hg' Hs)].
  constructor; [exact (IH Hg' Hs) |].
  apply List.Forall_forall. intros tb Htb.
  apply list_elem_of_In, list_elem_of_omap in Htb as (b & Hb & Hgb).
  apply (Hg a b); [left | right; exact Hb | exact Hga | exact Hgb |].
  rewrite List.Forall_forall in Hall. apply Hall, list_elem_of_In. exact Hb.
Qed.

Lemma filter_all {A : Type} (p : A → bool) (l : list A) :
  Forall (fun a => p a = true) l → List.filter p l = l.
Proof.
  induction 1 as [| a l Ha _ IH]; [reflexivity |]. cbn [List.filter]. rewrite Ha, IH.
  reflexivity.
Qed.

Lemma filter_none {A : Type} (p : A → bool) (l : list A) :
  Forall (fun a => p a = false) l → List.filter p l = [].
Proof.
  induction 1 as [| a l Ha _ IH]; [reflexivity |]. cbn [List.filter]. rewrite Ha, IH.
  reflexivity.
Qed.

Lemma substring_length (s : jsstring) (a b : nat) :
  a ≤ b → length (substring s a b) ≤ b - a ∧ a + length (substring s a b) ≤ Nat.max a (length s).
Proof.
  intros Hab. rewrite substring_spec by exact Hab. rewrite length_take, length_drop. lia.
Qed.

Lemma newInstructions_spans (text : jsstring) (opts : parseOptions)
    (probe : jsstring → bool) :
  apart (newInstructions text opts probe)
  ∧ Forall (fun t => isNewFormat t = true ∧ endOf t ≤ length text)
      (newInstructions text opts probe).
Proof.
  unfold newInstructions, imgMatches. split.
  - unfold apart.
    apply (omap_StronglySorted _ (fun a b => a.1 + m_len a.2 ≤ b.1)).
    + intros [k m] [k' m'] ta tb _ _ Ha Hb Hab. cbn [fst snd] in *.
      apply newFormatBody_Some in Ha as (Hfull & Hidx & _).
      apply newFormatBody_Some in Hb as (_ & Hidx' & _).
      unfold endOf. rewrite Hfull, Hidx, Hidx', length_take. lia.
    + apply (sweepFrom_apart imgCandidate fst (fun a => a.1 + m_len a.2)).
      * exact imgCandidate_adv.
      * exact imgCandidate_pos.
      * intros i s adv a. unfold imgCandidate.
        destruct (matchHere _ _ s None None); [| discriminate].
        intros [= <- <-]. cbn [fst snd]. lia.
  - apply List.Forall_forall. intros t Ht.
    apply list_elem_of_In, list_elem_of_omap in Ht as ([k m] & Hin & Hbody).
    cbn [fst snd] in Hbody.
    apply (sweepFrom_within _ _ imgCandidate_nil) in Hin as (j & adv & Hj & Hf).
    apply imgCandidate_pos in Hf. cbn [fst Nat.add] in Hf. subst k.
    apply newFormatBody_Some in Hbody as (Hfull & Hidx & Hnew).
    split; [exact Hnew |]. unfold endOf. rewrite Hfull, Hidx, length_take, length_drop. lia.
Qed.

Lemma legacyInstructions_spans (text : jsstring) :
  apart (legacyInstructions text)
  ∧ Forall (fun t => isNewFormat t = false ∧ endOf t ≤ length text)
      (legacyInstructions text).
Proof.
  assert (Hshape : ∀ a, a ∈ legacyTurns text →
                        a.1 < length text ∧ a.2 = (legacyBody text a.1).2).
  { intros a Ha. unfold legacyTurns in Ha.
    apply (sweepFrom_within _ _ (legacyCandidate_nil text)) in Ha as (j & adv & Hj & Hf).
    cbn [Nat.add] in Hf. unfold legacyCandidate in Hf.
    destruct (startsWith marker (drop j text)); [| discriminate].
    destruct (legacyBody text j) as [next pushed] eqn:Hbody.
    injection Hf as _ <-. cbn [fst snd]. rewrite Hbody. split; [exact Hj | reflexivity]. }
  assert (Hend : ∀ a t, a ∈ legacyTurns text → a.2 = Some t →
                        index t = a.1 ∧ isNewFormat t = false
                        ∧ endOf t ≤ (legacyBody text a.1).1 ∧ endOf t ≤ length text).
  { intros a t Ha Ht. destruct (Hshape a Ha) as [Hlt Hsnd]. rewrite Hsnd in Ht.
    pose proof (legacyBody_next text a.1) as Hnext.
    apply legacyBody_Some in Ht as (Hfull & Hidx & Hnew).
    destruct (substring_length text a.1 (legacyBody text a.1).1) as [H1 H2]; [lia |].
    unfold endOf. rewrite Hfull, Hidx. repeat split; try assumption; lia. }
  unfold legacyInstructions. split.
  - unfold apart.
    apply (omap_StronglySorted _ (fun a b => (legacyBody text a.1).1 ≤ b.1)).
    + intros a b ta tb Ha Hb Hta Htb Hab.
      destruct (Hend a ta Ha Hta) as (_ & _ & Hle & _).
      destruct (Hend b tb Hb Htb) as (Hidx & _). lia.
    + apply (sweepFrom_apart (legacyCandidate text) fst
               (fun a => (legacyBody text a.1).1)).
      * exact (legacyCandidate_adv text).
      * exact (legacyCandidate_pos text).
      * intros i s adv a. unfold legacyCandidate.
        destruct (startsWith marker s); [| discriminate].
        pose proof (legacyBody_next text i) as Hnext.
        destruct (legacyBody text i) as [next pushed] eqn:Hbody.
        intros [= <- <-]. cbn [fst snd] in *. rewrite Hbody. cbn [fst]. lia.
  - apply List.Forall_forall. intros t Ht.
    apply list_elem_of_In, list_elem_of_omap in Ht as (a & Ha & Hta).
    destruct (Hend a t Ha Hta) as (_ & Hnew & _ & Hlen). split; assumption.
Qed.

(** X11.  In the list that [parseImageTags] returns, the tags of one
    grammar do not overlap and stand in the order of the text: each
    attribute-embedded tag ends before the next one starts, and so does
    each legacy tag; and every tag ends within the text. *)
Theorem parse_spans_apart (text : jsstring) (opts : parseOptions)
    (probe : jsstring → bool) :
  let tags := parseImageTags text opts probe in
  apart (List.filter isNewFormat tags)
  ∧ apart (List.filter (fun t => negb (isNewFormat t)) tags)
  ∧ Forall (fun t => endOf t ≤ length text) tags.
Proof.
  cbv zeta. rewrite parseImageTags_instructionsOf. unfold instructionsOf.
  destruct (newInstructions_spans text opts probe) as [Hn1 Hn2].
  destruct (legacyInstructions_spans text) as [Hl1 Hl2].
  rewrite !List.filter_app.
  rewrite (filter_all isNewFormat (newInstructions text opts probe))
    by (eapply Forall_impl; [exact Hn2 | simpl; tauto]).
  rewrite (filter_none isNewFormat (legacyInstructions text))
    by (eapply Forall_impl; [exact Hl2 | simpl; tauto]).
  rewrite (filter_none _ (newInstructions text opts probe))
    by (eapply Forall_impl; [exact Hn2 | simpl; intros t [-> _]; reflexivity]).
  rewrite (filter_all _ (legacyInstructions text))
    by (eapply Forall_impl; [exact Hl2 | simpl; intros t [-> _]; reflexivity]).
  rewrite app_nil_r. cbn [app]. split; [exact Hn1 |]. split; [exact Hl1 |].
  apply Forall_app. split; (eapply Forall_impl; [eassumption | simpl; tauto]).
Qed.

(** X24.  The options and the answers of the server have no bearing on
    the legacy grammar: whatever the mode, the same legacy tags are
    returned, so a legacy tag that stands in the log is returned by every
    parse of it. *)
Theorem legacy_tags_ignore_options (text : jsstring) (opts opts' : parseOptions)
    (probe probe' : jsstring → bool) :
  List.filter (fun t => negb (isNewFormat t)) (parseImageTags text opts probe)
  = List.filter (fun t => negb (isNewFormat t)) (parseImageTags text opts' probe').
Proof.
  assert (H : ∀ o p, List.filter (fun t => negb (isNewFormat t)) (parseImageTags text o p)
                     = legacyInstructions text).
  { intros o p. rewrite parseImageTags_instructionsOf. unfold instructionsOf.
    destruct (newInstructions_spans text o p) as [_ Hn].
    destruct (legacyInstructions_spans text) as [_ Hl].
    rewrite List.filter_app.
    rewrite (filter_none _ (newInstructions text o p))
      by (eapply Forall_impl; [exact Hn | simpl; intros t [-> _]; reflexivity]).
    rewrite (filter_all _ (legacyInstructions text))
      by (eapply Forall_impl; [exact Hl | simpl; intros t [-> _]; reflexivity]).
    reflexivity. }
  rewrite !H. reflexivity.
Qed.

(** X25.  Without [forceAll], an attribute-embedded tag is returned only
    when its [src] calls for an image: it does not hold the text
    [error.svg], and it is empty or absent, or holds a marker, or, when
    the existence of files is checked, it is a path for which the probe
    answers that the file is missing. *)
Theorem normal_mode_returns_pending_tags (text : jsstring) (check : bool)
    (probe : jsstring → bool) (t : tag) :
  t ∈ parseImageTags text (ParseOptions check false) probe →
  isNewFormat t = true →
  let src := srcValueOf (fullMatch t) in
  hasErrorImage src = false
  ∧ (hasMarker src = true ∨ src = []
     ∨ (check = true ∧ hasPath src = true ∧ probe src = false)).
Proof.
  intros Hin Hnew. cbv zeta. rewrite parseImageTags_instructionsOf in Hin.
  unfold instructionsOf in Hin. apply elem_of_app in Hin as [Hin | Hin].
  - unfold newInstructions in Hin.
    apply list_elem_of_omap in Hin as ([k m] & _ & Hbody). cbn [fst snd] in Hbody.
    pose proof (newFormatBody_Some _ _ _ _ _ _ Hbody) as (Hfull & _).
    unfold newFormatBody in Hbody. cbv zeta in Hbody. rewrite <- Hfull in Hbody.
    destruct (needsGeneration _ probe (srcValueOf (fullMatch t))) eqn:Hneeds;
      [| discriminate].
    clear Hbody. unfold needsGeneration in Hneeds. cbn [forceAll checkExistence] in Hneeds.
    destruct (hasErrorImage (srcValueOf (fullMatch t))); [discriminate |].
    split; [reflexivity |]. cbn [andb negb] in Hneeds.
    destruct (hasMarker (srcValueOf (fullMatch t))); [left; reflexivity |].
    cbn [orb] in Hneeds. unfold jseq in Hneeds.
    destruct (decide (srcValueOf (fullMatch t) = [])) as [-> | Hne];
      [right; left; reflexivity |].
    rewrite (bool_decide_eq_false_2 _ Hne) in Hneeds.
    destruct (hasPath (srcValueOf (fullMatch t))); [| discriminate].
    destruct check; [| discriminate]. cbn [andb] in Hneeds.
    right. right. repeat split. apply negb_true_iff. exact Hneeds.
  - destruct (legacyInstructions_spans text) as [_ Hl].
    rewrite List.Forall_forall in Hl. apply list_elem_of_In, Hl in Hin as [Hold _].
    congruence.
Qed.

(** Three tags: one done, whose file the server has, one failed, one
    pending; only the last is returned. *)
Lemma normal_mode_example :
  let text := lit "<img data-iig-instruction='{`prompt`:`a`}' src=`/user/images/a.png`> <img data-iig-instruction='{`prompt`:`b`}' src=`/scripts/extensions/third-party/sillyimages/error.svg`> <img data-iig-instruction='{`prompt`:`c`}' src=`[IMG:GEN]`>" in
  ∃ t, parseImageTags text (ParseOptions true false) (fun _ => true) = [t]
       ∧ prompt t = JStr (lit "c")
       ∧ hasErrorImage (srcValueOf (fullMatch t)) = false
       ∧ hasMarker (srcValueOf (fullMatch t)) = true.
Proof.
  intros text.
  destruct (parseImageTags text (ParseOptions true false) (fun _ => true))
    as [| t [| ? ?]] eqn:Ht; try (vm_compute in Ht; discriminate).
  exists t.
  destruct (normal_mode_returns_pending_tags text true (fun _ => true) t) as [Herr _].
  - rewrite Ht. apply elem_of_cons. left. reflexivity.
  - vm_compute in Ht. injection Ht as <-. reflexivity.
  - split; [reflexivity |]. split; [vm_compute in Ht; injection Ht as <-; reflexivity |].
    split; [exact Herr |]. vm_compute in Ht. injection Ht as <-. vm_compute. reflexivity.
Defined.

(** ** Regeneration *)

Lemma regenLoop_requested (outcomeOf : nat → jobOutcome) (tags : list tag) :
  (∀ k, outcomeOf k ≠ OutError ThrownUndefined) →
  ∀ index imgs log,
    ∃ log', regenLoop tags index imgs outcomeOf log
            = (log', seq index (Nat.min (length tags) imgs), false).
Proof.
  intros Hout. induction tags as [| t tags IH]; intros index imgs log.
  - exists log. reflexivity.
  - cbn [regenLoop length]. destruct imgs as [| imgs].
    + destruct (IH (S index) 0 log) as (log' & ->). exists log'.
      rewrite Nat.min_0_r. reflexivity.
    + cbn [Nat.min seq]. destruct (outcomeOf index) as [imagePath | [message |]] eqn:Ho.
      * destruct (IH (S index) imgs
                    (if canConvert (prompt t) then regenRewrite log t imagePath else log))
          as (log' & ->).
        exists log'. reflexivity.
      * destruct (IH (S index) imgs log) as (log' & ->). exists log'. reflexivity.
      * exfalso. exact (Hout index Ho).
Qed.

Lemma regenLoop_errors (outcomeOf : nat → jobOutcome) (tags : list tag) :
  (∀ k, ∃ message, outcomeOf k = OutError (Error message)) →
  ∀ index imgs log, (regenLoop tags index imgs outcomeOf log).1 .1 = log
                    ∧ (regenLoop tags index imgs outcomeOf log).2 = false.
Proof.
  intros Hout. induction tags as [| t tags IH]; intros index imgs log; [split; reflexivity |].
  cbn [regenLoop]. destruct imgs as [| imgs]; [apply IH |].
  destruct (Hout index) as (message & ->).
  specialize (IH (S index) imgs log).
  destruct (regenLoop tags (S index) imgs outcomeOf log) as [[log' requested] threw].
  exact IH.
Qed.

Lemma insert_same_message (c : list message) (messageId : nat) (m : message) :
  c !! messageId = Some m → <[messageId := Message (mes m) (is_user m)]> c = c.
Proof. intros H. destruct m. apply list_insert_id. exact H. Qed.

(** X12.  When every image of a regeneration fails with an error that
    has a message, [regenerateMessageImages] leaves the log of the
    message as it was: unlike [processMessageTags] it writes no error
    sentinel.  It does not throw, and what it saves, if it saves, is the
    chat it found. *)
Theorem regenerate_failure_leaves_log (w : world) (imgs : nat)
    (outcomeOf : nat → jobOutcome) (messageId : nat) :
  (∀ k, ∃ message, outcomeOf k = OutError (Error message)) →
  let r := regenerateMessageImages w imgs outcomeOf messageId in
  rr_chat r = chat w ∧ rr_threw r = false ∧ Forall (fun c => c = chat w) (rr_saved r).
Proof.
  intros Hout. cbv zeta. unfold regenerateMessageImages.
  destruct (chat w !! messageId) as [m |] eqn:Hm; [| repeat split; constructor].
  cbv zeta. destruct (bool_decide _); [repeat split; constructor |].
  destruct (dom w messageId); try (repeat split; constructor).
  destruct (regenLoop_errors outcomeOf
              (parseImageTags (mes m) (ParseOptions false true) (fileExists w))
              Hout 0 imgs (mes m)) as [Hlog Hthrew].
  destruct (regenLoop _ 0 imgs outcomeOf (mes m)) as [[log requested] threw].
  cbn [fst snd] in Hlog, Hthrew. subst log threw.
  cbn [rr_chat rr_threw rr_saved]. rewrite (insert_same_message _ _ _ Hm).
  repeat split. constructor; [reflexivity | constructor].
Qed.

(** A message with one tag whose image is there; the provider answers
    500.  The button leaves the chat as it was and saves it. *)
Lemma regenerate_failure_example :
  let text := lit "<img data-iig-instruction='{`prompt`:`a knight`}' src=`/user/images/a.png`>" in
  let w := World true [Message text false] (fun _ => Rendered) (fun _ => true) ∅ [] [] in
  let r := regenerateMessageImages w 1
             (fun _ => OutError (Error (apiError 500 (lit "boom")))) 0 in
  rr_chat r = chat w ∧ rr_requested r = [0] ∧ rr_saved r = [chat w].
Proof.
  intros text w r.
  destruct (regenerate_failure_leaves_log w 1
              (fun _ => OutError (Error (apiError 500 (lit "boom")))) 0) as (Hchat & _ & _).
  - intros k. eexists. reflexivity.
  - fold r in Hchat. split; [exact Hchat |]. split; vm_compute; reflexivity.
Defined.

(** X13.  [regenerateMessageImages] does not look at the marks: it runs
    for a message that is marked, too.  When it has found tags it ends
    in one of two ways.  If it returns, the message is not marked any
    more, whoever had marked it, also when the element of the message is
    missing; and when the element is there the chat has been saved once.
    If the [catch] of the loop throws, on an error that is [undefined],
    the mark stays and nothing is saved. *)
Theorem regenerate_mark (w : world) (imgs : nat) (outcomeOf : nat → jobOutcome)
    (messageId : nat) (m : message) :
  chat w !! messageId = Some m →
  parseImageTags (mes m) (ParseOptions false true) (fileExists w) ≠ [] →
  let r := regenerateMessageImages w imgs outcomeOf messageId in
  if rr_threw r then messageId ∈ rr_processing r ∧ rr_saved r = []
  else rr_processing r = processingMessages w ∖ {[messageId]}
       ∧ (dom w messageId = Rendered → rr_saved r = [rr_chat r]).
Proof.
  intros Hm Htags. cbv zeta. unfold regenerateMessageImages. rewrite Hm. cbv zeta.
  rewrite bool_decide_eq_false_2 by exact Htags.
  assert (Hdrop : ({[messageId]} ∪ processingMessages w) ∖ {[messageId]}
                  = processingMessages w ∖ {[messageId]}).
  { apply set_eq. intros x.
    rewrite !elem_of_difference, elem_of_union, elem_of_singleton. tauto. }
  destruct (dom w messageId) eqn:Hdom;
    try (cbn [rr_threw rr_processing rr_saved]; split; [exact Hdrop | discriminate]).
  destruct (regenLoop _ 0 imgs outcomeOf (mes m)) as [[log requested] [|]];
    cbn [rr_threw rr_processing rr_saved rr_chat].
  - split; [| reflexivity]. apply elem_of_union. left. apply elem_of_singleton. reflexivity.
  - split; [exact Hdrop | reflexivity].
Qed.

(** The button is used on a message that a run of [processMessageTags]
    has marked: the regeneration goes ahead and takes the mark away. *)
Lemma regenerate_mark_example :
  let text := lit "<img data-iig-instruction='{`prompt`:`a knight`}' src=`/user/images/a.png`>" in
  let w := World true [Message text false] (fun _ => Rendered) (fun _ => true) {[0]} [] [] in
  let r := regenerateMessageImages w 1 (fun _ => OutDone (lit "/user/images/b.png")) 0 in
  rr_threw r = false
  ∧ rr_requested r = [0]
  ∧ rr_processing r = processingMessages w ∖ {[0]}
  ∧ map mes (rr_chat r)
    = [lit "<img data-iig-instruction='{`prompt`:`a knight`}' src=`/user/images/b.png`>"].
Proof.
  intros text w r.
  pose proof (regenerate_mark w 1 (fun _ => OutDone (lit "/user/images/b.png")) 0
                (Message text false) eq_refl) as H.
  cbv zeta in H. fold r in H.
  assert (Hthrew : rr_threw r = false) by (vm_compute; reflexivity).
  rewrite Hthrew in H. destruct H as [Hmark _].
  - vm_compute. discriminate.
  - split; [exact Hthrew |]. split; [vm_compute; reflexivity |].
    split; [exact Hmark | vm_compute; reflexivity].
Defined.

(** X14.  With the element of the message there and no error that is
    [undefined], a regeneration asks for one image for each of the first
    tags, in order, as many as there are elements
    [img[data-iig-instruction]] in the text of the message: tags beyond
    that number are passed over without a request. *)
Theorem regenerate_requests (w : world) (imgs : nat) (outcomeOf : nat → jobOutcome)
    (messageId : nat) (m : message) :
  chat w !! messageId = Some m →
  dom w messageId = Rendered →
  (∀ k, outcomeOf k ≠ OutError ThrownUndefined) →
  let tags := parseImageTags (mes m) (ParseOptions false true) (fileExists w) in
  rr_requested (regenerateMessageImages w imgs outcomeOf messageId)
  = seq 0 (Nat.min (length tags) imgs).
Proof.
  intros Hm Hdom Hout. cbv zeta. unfold regenerateMessageImages. rewrite Hm, Hdom. cbv zeta.
  destruct (bool_decide_reflect
              (parseImageTags (mes m) (ParseOptions false true) (fileExists w) = []))
    as [-> | _]; [reflexivity |].
  destruct (regenLoop_requested outcomeOf
              (parseImageTags (mes m) (ParseOptions false true) (fileExists w))
              Hout 0 imgs (mes m)) as (log' & ->).
  reflexivity.
Qed.

(** Two tags in the log, one element left in the text of the message. *)
Lemma regenerate_requests_example :
  let text := lit "<img data-iig-instruction='{`prompt`:`a`}' src=`/a.png`> <img data-iig-instruction='{`prompt`:`b`}' src=`/b.png`>" in
  let w := World true [Message text false] (fun _ => Rendered) (fun _ => true) ∅ [] [] in
  rr_requested (regenerateMessageImages w 1 (fun _ => OutDone (lit "/user/images/c.png")) 0)
  = [0].
Proof.
  intros text w.
  rewrite (regenerate_requests w 1 (fun _ => OutDone (lit "/user/images/c.png")) 0
             (Message text false)).
  - vm_compute. reflexivity.
  - reflexivity.
  - reflexivity.
  - intros k. discriminate.
Defined.

Lemma regenRewrite_same (log : jsstring) (t : tag) (imagePath : jsstring) :
  regexExec true srcSlotRegex (fullMatch t) 0 = None →
  Forall (fun c => c ≠ dollar) (fullMatch t) →
  regenRewrite log t imagePath = log.
Proof.
  intros Hslot Hdollar. unfold regenRewrite, regexReplace. rewrite Hslot. cbv zeta.
  unfold replaceFirst. destruct (findFirst (fullMatch t) log) as [k |] eqn:Hk; [| reflexivity].
  rewrite getSubstitution_no_dollar by exact Hdollar.
  symmetry. apply findFirst_split. exact Hk.
Qed.

Lemma regenLoop_same (outcomeOf : nat → jobOutcome) (tags : list tag) :
  Forall (fun t => regexExec true srcSlotRegex (fullMatch t) 0 = None
                   ∧ Forall (fun c => c ≠ dollar) (fullMatch t)) tags →
  ∀ index imgs log, (regenLoop tags index imgs outcomeOf log).1 .1 = log.
Proof.
  induction 1 as [| t tags [Hslot Hdollar] _ IH]; intros index imgs log; [reflexivity |].
  cbn [regenLoop]. destruct imgs as [| imgs]; [apply IH |].
  destruct (outcomeOf index) as [imagePath | [message |]]; [| | reflexivity].
  - rewrite (regenRewrite_same log t imagePath Hslot Hdollar).
    destruct (canConvert (prompt t)).
    all: specialize (IH (S index) imgs log).
    all: destruct (regenLoop tags (S index) imgs outcomeOf log) as [[log' requested] threw].
    all: exact IH.
  - specialize (IH (S index) imgs log).
    destruct (regenLoop tags (S index) imgs outcomeOf log) as [[log' requested] threw].
    exact IH.
Qed.

(** X15.  The regeneration records an image only by replacing a [src]
    attribute inside the text of the tag.  For a message whose tags hold
    no such attribute and no dollar sign (an attribute-embedded tag
    written without [src], a legacy tag [[IMG:GEN:{...}]]) the log is left
    as it was whatever the outcomes: the images are requested and
    uploaded, and the log does not get their paths. *)
Theorem regenerate_without_src_records_nothing (w : world) (imgs : nat)
    (outcomeOf : nat → jobOutcome) (messageId : nat) (m : message) :
  chat w !! messageId = Some m →
  Forall (fun t => regexExec true srcSlotRegex (fullMatch t) 0 = None
                   ∧ Forall (fun c => c ≠ dollar) (fullMatch t))
    (parseImageTags (mes m) (ParseOptions false true) (fileExists w)) →
  rr_chat (regenerateMessageImages w imgs outcomeOf messageId) = chat w.
Proof.
  intros Hm Htags. unfold regenerateMessageImages. rewrite Hm. cbv zeta.
  destruct (bool_decide _); [reflexivity |].
  destruct (dom w messageId); try reflexivity.
  pose proof (regenLoop_same outcomeOf _ Htags 0 imgs (mes m)) as Hlog.
  destruct (regenLoop _ 0 imgs outcomeOf (mes m)) as [[log requested] threw].
  cbn [fst] in Hlog. subst log.
  destruct threw; cbn [rr_chat]; apply insert_same_message; exact Hm.
Qed.

(** A tag without a [src] attribute, and an image that is generated and
    uploaded for it. *)
Lemma regenerate_without_src_example :
  let text := lit "Look: <img data-iig-instruction='{`style`:`anime`,`prompt`:`a cat`}'>" in
  let w := World true [Message text false] (fun _ => Rendered) (fun _ => true) ∅ [] [] in
  let r := regenerateMessageImages w 1 (fun _ => OutDone (lit "/user/images/cat.png")) 0 in
  rr_requested r = [0] ∧ rr_chat r = chat w ∧ rr_saved r = [chat w].
Proof.
  intros text w r.
  assert (Hchat : rr_chat r = chat w).
  { apply (regenerate_without_src_records_nothing w 1 _ 0 (Message text false)).
    - reflexivity.
    - vm_compute. repeat constructor; discriminate. }
  split; [vm_compute; reflexivity |]. split; [exact Hchat |]. vm_compute. reflexivity.
Defined.

(** ** The upload *)

Lemma spanWord_spec (s : jsstring) :
  ∀ w r, spanWord s = (w, r) →
    s = w ++ r ∧ forallb isWordUnit w = true
    ∧ match r with c :: _ => isWordUnit c = false | [] => True end.
Proof.
  induction s as [| c s IH]; intros w r H.
  - injection H as <- <-. repeat split.
  - cbn [spanWord] in H. destruct (isWordUnit c) eqn:Hc.
    + destruct (spanWord s) as [w' r'] eqn:Hs. injection H as <- <-.
      destruct (IH w' r' eq_refl) as (-> & Hw & Hr).
      cbn [forallb app]. rewrite Hc, Hw. repeat split. exact Hr.
    + injection H as <- <-. repeat split. exact Hc.
Qed.

Lemma spanWord_app (w r : jsstring) :
  forallb isWordUnit w = true →
  match r with c :: _ => isWordUnit c = false | [] => True end →
  spanWord (w ++ r) = (w, r).
Proof.
  intros Hw Hr. induction w as [| c w IH].
  - destruct r as [| c r]; [reflexivity |]. cbn [app spanWord]. rewrite Hr. reflexivity.
  - cbn [forallb] in Hw. apply andb_true_iff in Hw as [Hc Hw].
    cbn [app spanWord]. rewrite Hc, (IH Hw). reflexivity.
Qed.

(** X16.  [saveImageToFile] accepts exactly the texts
    [data:image/FORMAT;base64,DATA] with a format of one or more letters,
    digits and underscores and data of one or more units none of which
    is a line terminator, and what it takes for the format and the data
    are these two parts: putting them back together gives the text. *)
Theorem dataUrlMatch_iff (dataUrl format base64Data : jsstring) :
  dataUrlMatch dataUrl = Some (format, base64Data)
  ↔ dataUrl = lit "data:image/" ++ format ++ lit ";base64," ++ base64Data
    ∧ format ≠ [] ∧ forallb isWordUnit format = true
    ∧ base64Data ≠ []
    ∧ forallb (fun c => negb (isLineTerminator c)) base64Data = true.
Proof.
  unfold dataUrlMatch. split.
  - destruct (startsWith (lit "data:image/") dataUrl) eqn:Hhead; [| discriminate].
    apply startsWith_split in Hhead.
    destruct (spanWord (drop (length (lit "data:image/")) dataUrl)) as [w r] eqn:Hspan.
    apply spanWord_spec in Hspan as (Hrest & Hw & _).
    unfold jseq. destruct (decide (w = [])) as [-> | Hne].
    { rewrite bool_decide_eq_true_2 by reflexivity. discriminate. }
    rewrite (bool_decide_eq_false_2 _ Hne). cbn [negb andb].
    destruct (startsWith (lit ";base64,") r) eqn:Hsep; [| discriminate].
    apply startsWith_split in Hsep.
    destruct (decide (drop (length (lit ";base64,")) r = [])) as [Hd | Hd].
    { rewrite Hd, bool_decide_eq_true_2 by reflexivity. discriminate. }
    rewrite (bool_decide_eq_false_2 _ Hd). cbn [negb andb].
    destruct (forallb _ (drop (length (lit ";base64,")) r)) eqn:Hlt; [| discriminate].
    intros [= <- <-]. split; [| repeat split; assumption].
    rewrite Hhead at 1. rewrite Hrest. rewrite Hsep at 1. reflexivity.
  - intros (-> & Hf & Hw & Hd & Hlt).
    rewrite startsWith_app, drop_app_length.
    rewrite (spanWord_app format (lit ";base64," ++ base64Data) Hw) by reflexivity.
    unfold jseq. rewrite (bool_decide_eq_false_2 _ Hf). cbn [negb andb].
    rewrite startsWith_app, drop_app_length.
    rewrite (bool_decide_eq_false_2 _ Hd), Hlt. reflexivity.
Qed.

(** ** The answers of the providers *)

(** X17.  An answer of the OpenAI kind whose first entry holds
    [b64_json] makes [generateImageOpenAI] return a PNG data URL of it,
    whatever [url] says, or throw a [TypeError] when the value cannot be
    converted to a string; and when the data has no line terminator
    [saveImageToFile] uploads exactly this data, as format [png], and
    ends as the upload does. *)
Theorem openai_b64_is_uploaded_as_png (ToString : jsval → jsstring)
    (result imageObj b64_json : jsval) (others : list jsval) (character : jsval)
    (server : uploadRequest → httpResponse) :
  getProp result (lit "data") = Some (JArr (imageObj :: others)) →
  getProp imageObj (lit "b64_json") = Some b64_json →
  truthy b64_json = true →
  ToString b64_json ≠ [] →
  forallb (fun c => negb (isLineTerminator c)) (ToString b64_json) = true →
  let dataUrl := JStr (lit "data:image/png;base64," ++ ToString b64_json) in
  let req := UploadRequest (ToString b64_json) (lit "png") (charNameOf character) in
  openaiResult ToString (OkBody (Some result))
  = (if canConvert b64_json then CReturned dataUrl else CEngineError)
  ∧ saveImageToFile ToString dataUrl character server
    = (uploadResult ToString (server req), Some req).
Proof.
  intros Hdata Hb64 Htruthy Hne Hlt. cbv zeta. split.
  - unfold openaiResult. rewrite Hdata.
    assert (Hurl : ∃ url, getProp result (lit "url") = Some url).
    { destruct result; try discriminate; eexists; reflexivity. }
    destruct Hurl as (url & ->). cbn [jsOr truthy lengthIsZero itemAt0].
    rewrite Hb64.
    assert (Himg : ∃ u, getProp imageObj (lit "url") = Some u).
    { destruct imageObj; try discriminate; eexists; reflexivity. }
    destruct Himg as (u & ->). rewrite Htruthy. reflexivity.
  - unfold saveImageToFile.
    assert (Hm : dataUrlMatch (lit "data:image/png;base64," ++ ToString b64_json)
                 = Some (lit "png", ToString b64_json)).
    { apply dataUrlMatch_iff. repeat split; [discriminate | exact Hne | exact Hlt]. }
    rewrite Hm. reflexivity.
Qed.

(** The answer the API documents for [response_format: b64_json], and a
    server that stores the file. *)
Lemma openai_b64_example :
  let result := JObj [(lit "created", JNum false 1700000000 0);
                      (lit "data", JArr [JObj [(lit "b64_json", JStr (lit "iVBORw0KGgo="))]])] in
  let server := fun _ : uploadRequest =>
    OkBody (Some (JObj [(lit "path", JStr (lit "/user/images/Alice/iig_1.png"))])) in
  ∃ dataUrl,
    openaiResult textOf (OkBody (Some result)) = CReturned dataUrl
    ∧ saveImageToFile textOf dataUrl (JObj [(lit "name", JStr (lit "Alice"))]) server
      = (CReturned (JStr (lit "/user/images/Alice/iig_1.png")),
         Some (UploadRequest (lit "iVBORw0KGgo=") (lit "png") (JStr (lit "Alice")))).
Proof.
  intros result server.
  destruct (openai_b64_is_uploaded_as_png textOf result
              (JObj [(lit "b64_json", JStr (lit "iVBORw0KGgo="))])
              (JStr (lit "iVBORw0KGgo=")) []
              (JObj [(lit "name", JStr (lit "Alice"))]) server) as [Hgen Hsave].
  - reflexivity.
  - reflexivity.
  - reflexivity.
  - discriminate.
  - reflexivity.
  - eexists. split; [cbn [canConvert] in Hgen; exact Hgen |]. rewrite Hsave. reflexivity.
Defined.

Lemma dataUrlMatch_head (dataUrl : jsstring) :
  startsWith (lit "data:image/") dataUrl = false → dataUrlMatch dataUrl = None.
Proof. intros H. unfold dataUrlMatch. rewrite H. reflexivity. Qed.

(** X18.  An answer of the OpenAI kind whose first entry holds no
    [b64_json] but a [url] makes [generateImageOpenAI] return the URL as
    it is, and [saveImageToFile] refuses every URL that does not start
    with [data:image/], an [https] address for one, with the error
    [Invalid data URL format], before any upload: such an image is
    generated and lost. *)
Theorem openai_url_is_refused (ToString : jsval → jsstring)
    (result imageObj b64_json : jsval) (others : list jsval) (url : jsstring)
    (character : jsval) (server : uploadRequest → httpResponse) :
  getProp result (lit "data") = Some (JArr (imageObj :: others)) →
  getProp imageObj (lit "b64_json") = Some b64_json →
  truthy b64_json = false →
  getProp imageObj (lit "url") = Some (JStr url) →
  startsWith (lit "data:image/") url = false →
  openaiResult ToString (OkBody (Some result)) = CReturned (JStr url)
  ∧ saveImageToFile ToString (JStr url) character server
    = (CThrew (lit "Invalid data URL format"), None).
Proof.
  intros Hdata Hb64 Hfalsy Hurl Hhead. split.
  - unfold openaiResult. rewrite Hdata.
    assert (Hu : ∃ u, getProp result (lit "url") = Some u).
    { destruct result; try discriminate; eexists; reflexivity. }
    destruct Hu as (u & ->). cbn [jsOr truthy lengthIsZero itemAt0].
    rewrite Hb64, Hurl, Hfalsy. unfold jsOr. rewrite Hfalsy. reflexivity.
  - unfold saveImageToFile. rewrite (dataUrlMatch_head url Hhead). reflexivity.
Qed.

(** The answer the API documents for [response_format: url]. *)
Lemma openai_url_example :
  let result := JObj [(lit "created", JNum false 1700000000 0);
                      (lit "data", JArr [JObj [(lit "url", JStr (lit "https://cdn.example.com/img/1.png"))]])] in
  let server := fun _ : uploadRequest =>
    OkBody (Some (JObj [(lit "path", JStr (lit "/user/images/Alice/iig_1.png"))])) in
  openaiResult textOf (OkBody (Some result))
  = CReturned (JStr (lit "https://cdn.example.com/img/1.png"))
  ∧ saveImageToFile textOf (JStr (lit "https://cdn.example.com/img/1.png")) JUndefined server
    = (CThrew (lit "Invalid data URL format"), None).
Proof.
  intros result server.
  apply (openai_url_is_refused textOf result
           (JObj [(lit "url", JStr (lit "https://cdn.example.com/img/1.png"))])
           JUndefined [] (lit "https://cdn.example.com/img/1.png") JUndefined server);
    reflexivity.
Defined.

Lemma firstImage_skips (ToString : jsval → jsstring) (texts rest : list jsval) :
  Forall holdsNoImage texts →
  firstImage ToString (texts ++ rest) = firstImage ToString rest.
Proof.
  induction 1 as [| p texts (a & b & Ha & Hta & Hb & Htb) _ IH]; [reflexivity |].
  cbn [app firstImage]. unfold inlineImage. rewrite Ha, Hb, Hta, Htb. exact IH.
Qed.

(** X19.  In an answer of the Gemini kind the first part that holds an
    image decides: the parts without one before it are passed over and
    the parts after it are not looked at.  Its image is read from
    [inlineData] with its [mimeType] when that is there, and from
    [inline_data] with its [mime_type] otherwise, and the value returned
    is the data URL of the declared type and the data; when one of the
    two cannot be converted to a string the function throws a
    [TypeError]. *)
Theorem gemini_first_image_decides (ToString : jsval → jsstring)
    (result candidate content p camel snake : jsval)
    (others texts rest : list jsval) :
  getProp result (lit "candidates") = Some (JArr (candidate :: others)) →
  getProp candidate (lit "content") = Some content →
  getProp content (lit "parts") = Some (JArr (texts ++ p :: rest)) →
  Forall holdsNoImage texts →
  getProp p (lit "inlineData") = Some camel →
  getProp p (lit "inline_data") = Some snake →
  truthy camel || truthy snake = true →
  let image := if truthy camel then camel else snake in
  let key := if truthy camel then lit "mimeType" else lit "mime_type" in
  let mime := default JUndefined (getProp image key) in
  let data := default JUndefined (getProp image (lit "data")) in
  geminiResult ToString (OkBody (Some result))
  = if canConvert mime && canConvert data
    then CReturned (JStr (lit "data:" ++ ToString mime ++ lit ";base64," ++ ToString data))
    else CEngineError.
Proof.
  intros Hcands Hcontent Hparts Htexts Hcamel Hsnake Himage. cbv zeta.
  unfold geminiResult. rewrite Hcands. cbn [jsOr truthy lengthIsZero itemAt0].
  rewrite Hcontent.
  assert (Hresp : match content with
                  | JUndefined | JNull => JArr []
                  | _ => jsOr (default JUndefined (getProp content (lit "parts"))) (JArr [])
                  end = JArr (texts ++ p :: rest)).
  { destruct content; try discriminate; rewrite Hparts; reflexivity. }
  rewrite Hresp, (firstImage_skips ToString texts (p :: rest) Htexts).
  cbn [firstImage]. unfold inlineImage. rewrite Hcamel, Hsnake.
  assert (Hread : ∀ v k, truthy v = true → ∃ x, getProp v k = Some x).
  { intros v k Hv. destruct v; try discriminate; eexists; reflexivity. }
  destruct (truthy camel) eqn:Hc.
  - destruct (Hread camel (lit "mimeType") Hc) as (x & ->).
    destruct (Hread camel (lit "data") Hc) as (y & ->). change (default JUndefined (Some x)) with x.
    change (default JUndefined (Some y)) with y.
    destruct (canConvert x && canConvert y); reflexivity.
  - cbn [orb] in Himage. rewrite Himage.
    destruct (Hread snake (lit "mime_type") Himage) as (x & ->).
    destruct (Hread snake (lit "data") Himage) as (y & ->). change (default JUndefined (Some x)) with x.
    change (default JUndefined (Some y)) with y.
    destruct (canConvert x && canConvert y); reflexivity.
Qed.

(** A text part, then a JPEG in the snake-case spelling, then a PNG. *)
Lemma gemini_answer_example :
  let jpeg := JObj [(lit "inline_data",
                     JObj [(lit "mime_type", JStr (lit "image/jpeg"));
                           (lit "data", JStr (lit "/9j/4AAQ"))])] in
  let png := JObj [(lit "inlineData",
                    JObj [(lit "mimeType", JStr (lit "image/png"));
                          (lit "data", JStr (lit "iVBORw0KGgo="))])] in
  let content := JObj [(lit "role", JStr (lit "model"));
                       (lit "parts", JArr [JObj [(lit "text", JStr (lit "Here it is."))];
                                           jpeg; png])] in
  let result := JObj [(lit "candidates", JArr [JObj [(lit "content", content)]])] in
  geminiResult textOf (OkBody (Some result))
  = CReturned (JStr (lit "data:image/jpeg;base64,/9j/4AAQ"))
  ∧ dataUrlMatch (lit "data:image/jpeg;base64,/9j/4AAQ")
    = Some (lit "jpeg", lit "/9j/4AAQ").
Proof.
  intros jpeg png content result.
  split; [| reflexivity].
  rewrite (gemini_first_image_decides textOf result (JObj [(lit "content", content)])
             content jpeg JUndefined
             (JObj [(lit "mime_type", JStr (lit "image/jpeg"));
                    (lit "data", JStr (lit "/9j/4AAQ"))])
             [] [JObj [(lit "text", JStr (lit "Here it is."))]] [png]).
  - reflexivity.
  - reflexivity.
  - reflexivity.
  - reflexivity.
  - constructor; [| constructor]. exists JUndefined, JUndefined. repeat split.
  - reflexivity.
  - reflexivity.
  - reflexivity.
Defined.

(** ** Errors of the providers and the retry loop *)

(** X20.  A response of status 429, 502, 503 or 504 makes either provider
    throw an error that the retry loop retries, whatever the body of the
    response, since its message spells the status.  The errors that the
    providers and the upload make up themselves, for an answer without
    an image and for a text that is no data URL, are never retried. *)
Theorem status_errors_are_retried (ToString : jsval → jsstring) (status : nat)
    (text : jsstring) :
  status ∈ [429; 502; 503; 504] →
  openaiResult ToString (NotOk status text) = CThrew (apiError status text)
  ∧ geminiResult ToString (NotOk status text) = CThrew (apiError status text)
  ∧ isRetryable (apiError status text) = true
  ∧ Forall (fun message => isRetryable message = false)
      [lit "No image data in response"; lit "No candidates in response";
       lit "No image found in Gemini response"; lit "Invalid data URL format"].
Proof.
  intros Hstatus. split; [reflexivity |]. split; [reflexivity |]. split.
  - unfold isRetryable, apiError.
    assert (Hdec : decimalOf status = lit "429" ∨ decimalOf status = lit "502"
                   ∨ decimalOf status = lit "503" ∨ decimalOf status = lit "504").
    { repeat (apply elem_of_cons in Hstatus as [-> | Hstatus]; [tauto |]).
      inversion Hstatus. }
    destruct Hdec as [-> | [-> | [-> | ->]]]; rewrite includes_app;
      rewrite ?orb_true_r; reflexivity.
  - repeat constructor.
Qed.

(** A 503 with an empty body. *)
Lemma status_503_is_retried :
  isRetryable (apiError 503 []) = true
  ∧ openaiResult textOf (NotOk 503 []) = CThrew (lit "API Error (503): ").
Proof.
  destruct (status_errors_are_retried textOf 503 []) as (Ho & _ & Hr & _).
  - apply elem_of_cons. right. apply elem_of_cons. right. apply elem_of_cons. left.
    reflexivity.
  - split; [exact Hr | exact Ho].
Defined.

(** ** The number fields of the settings *)

Lemma isDigit_cases (c : N) :
  isDigit c = true →
  isSpace c = false ∧ N.eqb c 45 = false ∧ N.eqb c 43 = false
  ∧ N.eqb c 120 = false ∧ N.eqb c 88 = false.
Proof.
  unfold isDigit. intros [H1 H2]%andb_true_iff.
  apply N.leb_le in H1. apply N.leb_le in H2.
  assert (Hc : (c = 48 ∨ c = 49 ∨ c = 50 ∨ c = 51 ∨ c = 52 ∨ c = 53 ∨ c = 54
                ∨ c = 55 ∨ c = 56 ∨ c = 57)%N) by lia.
  repeat destruct Hc as [-> | Hc]; try subst c; repeat split; reflexivity.
Qed.

Lemma digits_of_uint (u : Decimal.uint) :
  ∀ acc,
    let ds := lit (NilEmpty.string_of_uint u) in
    spanDigits ds = (ds, [])
    ∧ Forall (fun c => isDigit c = true) ds
    ∧ fold_left (fun a c => (a * 10 + (c - 48))%N) ds (N.of_nat acc)
      = N.of_nat (Nat.of_uint_acc u acc).
Proof.
  induction u as [| u IH | u IH | u IH | u IH | u IH | u IH | u IH | u IH | u IH | u IH];
    intros acc; cbv zeta; [repeat split; constructor | idtac ..];
    cbn [NilEmpty.string_of_uint Nat.of_uint_acc];
    match goal with
    | |- context [lit (String ?c ?s)] =>
        let v := eval vm_compute in (unit_of_ascii c) in
        change (lit (String c s)) with (v :: lit s)
    end;
    cbn [spanDigits fold_left];
    match goal with
    | |- context [isDigit ?c] =>
        let v := eval vm_compute in (isDigit c) in change (isDigit c) with v
    end;
    cbv iota;
    match goal with
    | |- context [Nat.of_uint_acc u ?a] =>
        destruct (IH a) as (Hspan & Hall & Hfold); rewrite Hspan;
        split; [reflexivity |]; split; [constructor; [reflexivity | exact Hall] |];
        rewrite <- Hfold; f_equal; rewrite Nat.tail_mul_spec; lia
    end.
Qed.

Lemma nearestDouble_small (z : Z) :
  (0 ≤ z < 2 ^ 53)%Z → nearestDouble z = Some z.
Proof.
  intros [H0 H53]. unfold nearestDouble. cbv zeta.
  assert (Hbits : (Z.log2 z + 1 ≤ 53)%Z).
  { destruct (Z.eq_dec z 0%Z) as [-> | Hz]; [cbn; lia |].
    assert (Z.log2 z < 53)%Z by (apply Z.log2_lt_pow2; lia). lia. }
  apply Z.leb_le in Hbits. rewrite Hbits. reflexivity.
Qed.

(** X21.  The number fields show a setting in decimal, and [parseInt]
    reads a number below [2 ^ 53] back from its decimal form, the range
    in which every integer is a number of the language.  So an [input]
    event that leaves a field as it is shown stores the number shown,
    with one exception: a field that shows 0 stores the fallback, 3 for
    the retry ceiling and 1000 for the delay. *)
Theorem number_field_round_trip (n : nat) (s : settings) :
  (Z.of_nat n < 2 ^ 53)%Z →
  parseInt (decimalOf n) = PInt (Z.of_nat n)
  ∧ onMaxRetriesInput s (decimalOf n)
    = Some (Settings (endpoint s) (apiKey s) (model s)
              (if n =? 0 then 3%Z else Z.of_nat n) (retryDelay s))
  ∧ onRetryDelayInput s (decimalOf n)
    = Some (Settings (endpoint s) (apiKey s) (model s) (maxRetries s)
              (if n =? 0 then 1000%Z else Z.of_nat n)).
Proof.
  intros Hsmall.
  assert (Hparse : parseInt (decimalOf n) = PInt (Z.of_nat n)).
  { unfold decimalOf.
    destruct (digits_of_uint (Nat.to_uint n) 0) as (Hspan & Hall & Hfold).
    cbv zeta in Hspan, Hall, Hfold.
    assert (Hval : digitsToN (lit (NilEmpty.string_of_uint (Nat.to_uint n))) = N.of_nat n).
    { unfold digitsToN. change 0%N with (N.of_nat 0). rewrite Hfold.
      change (Nat.of_uint_acc (Nat.to_uint n) 0) with (Nat.of_uint (Nat.to_uint n)).
      rewrite DecimalNat.Unsigned.of_to. reflexivity. }
    destruct (lit (NilEmpty.string_of_uint (Nat.to_uint n))) as [| c ds] eqn:Hds.
    { exfalso. assert (Hn : Nat.of_uint (Nat.to_uint n) = n)
        by apply DecimalNat.Unsigned.of_to.
      destruct (Nat.to_uint n) eqn:Hu; try discriminate.
      cbn in Hn. subst n. discriminate. }
    apply Forall_cons in Hall as [Hc Hall].
    destruct (isDigit_cases c Hc) as (Hsp & Hminus & Hplus & _).
    unfold parseInt. cbn [trimStart]. rewrite Hsp, Hminus, Hplus.
    assert (Hrun : decimalRun 1 (c :: ds) = PInt (Z.of_nat n)).
    { unfold decimalRun. rewrite Hspan, Hval. unfold numberOf.
      rewrite nearestDouble_small by lia. f_equal. lia. }
    destruct ds as [| x ds']; [exact Hrun |].
    apply Forall_cons in Hall as [Hx _].
    destruct (isDigit_cases x Hx) as (_ & _ & _ & H120 & H88).
    rewrite H120, H88, andb_false_r. exact Hrun. }
  split; [exact Hparse |].
  unfold onMaxRetriesInput, onRetryDelayInput, parseIntOr.
  rewrite Hparse. destruct n as [| n]; [split; reflexivity |].
  cbn [Nat.eqb]. destruct (Z.eqb_spec (Z.of_nat (S n)) 0); [lia | split; reflexivity].
Qed.

(** The retry ceiling 5 and the delay 2000, as the fields show them. *)
Lemma number_field_example :
  let s := Settings (lit "https://api.example.com") (lit "key") (lit "dall-e-3") 5 2000 in
  parseInt (decimalOf 5) = PInt 5
  ∧ onMaxRetriesInput s (decimalOf 5) = Some s
  ∧ onRetryDelayInput s (decimalOf 2000) = Some s.
Proof.
  intros s.
  destruct (number_field_round_trip 5 s) as (H5 & Hmax & _); [reflexivity |].
  destruct (number_field_round_trip 2000 s) as (_ & _ & Hdelay); [reflexivity |].
  split; [exact H5 |]. split; [exact Hmax | exact Hdelay].
Defined.

(** ** The rewrite and the save, on an example *)

(** A tag with its pending marker in a log with text around it. *)
Lemma rewriteDone_frame_example :
  let full := lit "<img data-iig-instruction='{`prompt`:`a knight`}' src=`[IMG:GEN]`>" in
  let t := Tag full 6 (JStr []) (JStr (lit "a knight")) JNull JNull JNull true JNull in
  rewriteDone (lit "Look: " ++ full ++ lit " Done.") t (lit "/user/images/k.png")
  = lit "Look: <img data-iig-instruction='{`prompt`:`a knight`}' src=`/user/images/k.png`> Done.".
Proof.
  intros full t.
  destruct (rewriteDone_frame (lit "Look: " ++ full ++ lit " Done.") t
              (lit "/user/images/k.png") 6 50 (RMatch 15 (Some dquote) None)) as [_ H].
  - reflexivity.
  - vm_compute. repeat constructor; discriminate.
  - vm_compute. repeat constructor; discriminate.
  - vm_compute. reflexivity.
  - vm_compute. reflexivity.
  - rewrite H. vm_compute. reflexivity.
Defined.

(** One message with one tag, whose job ends with an image before the
    join goes on. *)
Lemma saveChat_once_example :
  let text := lit "<img data-iig-instruction='{`prompt`:`a knight`}' src=`[IMG:GEN]`>" in
  let schedule := [Trigger 0; ResumeParse 0; Settle 0 0 (OutDone (lit "/user/images/k.png"));
                   ResumeJoin 0] in
  let w := run (World true [Message text false] (fun _ => Rendered) (fun _ => true) ∅ [] [])
             schedule in
  ∃ t, calls w !! 0 = Some t ∧ c_state t = TSaving ∧ savesOf w 0 = 1
       ∧ forallb isFulfilled (c_jobs t) = true.
Proof.
  intros text schedule w.
  destruct (calls w !! 0) as [t |] eqn:Ht; [| vm_compute in Ht; discriminate].
  exists t.
  destruct (saveChat_once_after_all_jobs true [Message text false] (fun _ => Rendered)
              (fun _ => true) schedule 0 t Ht) as (_ & Hall & Hsaving).
  assert (Hst : c_state t = TSaving).
  { vm_compute in Ht. injection Ht as <-. reflexivity. }
  split; [reflexivity |]. split; [exact Hst |].
  split; [apply Hsaving; exact Hst | apply Hall, Hsaving; exact Hst].
Defined.
